(** * spacesavers: the [ls] duplicate-detection pipeline of [src/commands.py]

    A shallow embedding of [readable_size], [_name], [name], [file_stats],
    [traversed] and [_ls], followed by the properties of the specification
    that were checked against it.

    Conventions of the embedding.
    - Python values that can be either an [int] or a [str] (the cached
      names) are kept apart in [pyval].
    - A raised exception is a value [Exn cls msg]: [cls] is the class that
      an [except] clause matches on, [msg] is what [str(e)] prints.
    - The operating system (file sizes, digests, [os.stat], the account
      databases, the directory walk) is a record of oracles, [World].  Every
      oracle is asked at most once for a given path during one scan, so an
      oracle per operation also covers a tree that changes between stages.
    - Code that can raise or that prints runs in the monad [M], which threads
      the two output streams and a log of the calls made to [md5sum] and to
      the account databases.
    - Python dictionaries whose iteration order is observable (the three
      bucket tables) are association lists in insertion order; the cache of
      resolved ids, which is only looked up, is a [gmap].
    - A double that [readable_size] works with is kept as the rational it
      stands for: the integer [float(sbytes)], a quotient by a power of two
      in thousandths.  Division and [round] are correctly rounded in IEEE
      arithmetic and are computed as such; the logarithm of the C library
      is described by the sizes at which its floor steps. *)

From stdpp Require Import base decidable option numbers list strings pretty gmap.
From Stdlib Require Import ZArith Lia.

Local Open Scope Z_scope.
Local Open Scope string_scope.
Local Open Scope list_scope.

(** ** Python values, exceptions, outcomes *)

Inductive pyval :=
  | PyInt (n : Z)
  | PyStr (s : string).

Global Instance pyval_eq_dec : EqDecision pyval.
Proof. solve_decision. Defined.

(** [str(val)] *)
Definition py_str (val : pyval) : string :=
  match val with
  | PyInt n => pretty n
  | PyStr s => s
  end.

Inductive exn := Exn (cls : string) (msg : string).

Global Instance exn_eq_dec : EqDecision exn.
Proof. solve_decision. Defined.

Definition exn_class (e : exn) : string := let 'Exn cls _ := e in cls.
(** [str(e)] *)
Definition exn_str (e : exn) : string := let 'Exn _ msg := e in msg.

Inductive outcome (A : Type) :=
  | Returns (a : A)
  | Raises (e : exn).
Global Arguments Returns {A} a.
Global Arguments Raises {A} e.

Global Instance outcome_eq_dec {A} `{EqDecision A} : EqDecision (outcome A).
Proof. solve_decision. Defined.

Definition returned {A} (r : outcome A) : bool :=
  match r with Returns _ => true | Raises _ => false end.

(** [sep.join(l)] *)
Fixpoint join (sep : string) (l : list string) : string :=
  match l with
  | [] => ""
  | [x] => x
  | x :: rest => x +:+ sep +:+ join sep rest
  end.

Definition TAB : string := String (Ascii.ascii_of_nat 9) EmptyString.

(** ** [readable_size] *)

Module ReadableSize.

Definition units : list string :=
  ["B"; "KiB"; "MiB"; "GiB"; "TiB"; "PiB"; "EiB"; "ZiB"; "YiB"].

(** Rounding of the quotient [n / d] to the nearest integer, ties to the
    even one: the rounding of IEEE arithmetic and of Python's [round]. *)
Definition round_half_even (n d : Z) : Z :=
  let q := n `div` d in
  let r := n `mod` d in
  if decide (2 * r < d) then q
  else if decide (d < 2 * r) then q + 1
  else if Z.even q then q else q + 1.

(** [float(n)] for an [int] [0 < n]: [n] rounded to the 53 significant
    bits of a double.  From [2^53] on a double is a whole number of units
    in the last place, so the value is an integer again. *)
Definition float_of_int (n : Z) : Z :=
  let e := Z.log2 n - 52 in
  if decide (e <= 0) then n
  else round_half_even n (2 ^ e) * 2 ^ e.

(** [math.log(sbytes, 1024)] is a quotient of two doubles,
    [log(float(sbytes)) / log(1024.0)], each of them rounded.  Its floor
    is the floor of the exact logarithm, except on the last few doubles
    below a power of 1024, whose logarithm rounds to that of the power:
    there the quotient is the exponent of the power already.  For the
    k-th power, [k = 1 .. 103], the table gives the number of doubles
    below [1024^k] where this is so, with logarithms rounded to nearest
    as those of glibc are (for [k = 5], where doubles are finer than
    integers, the number of integers): none below [1024^4], the three
    integers below [1024^5], 48 doubles below [1024^6], and so on.  The
    table ends where [math.pow(1024, i)] overflows. *)
Definition log_slack : list Z :=
  [0; 0; 0; 0; 3; 48; 8; 32; 56; 48; 8; 97; 57; 17; 105; 65; 153; 113; 9;
   97; 185; 17; 106; 194; 26; 114; 202; 34; 122; 210; 42; 130; 218; 307;
   139; 227; 187; 19; 363; 195; 27; 371; 203; 35; 379; 212; 44; 388; 220;
   52; 396; 228; 60; 404; 236; 68; 413; 245; 77; 421; 253; 85; 429; 261;
   605; 437; 269; 614; 446; 278; 622; 454; 286; 374; 206; 38; 894; 726;
   559; 391; 223; 55; 911; 743; 575; 407; 239; 71; 927; 759; 592; 424;
   256; 88; 944; 776; 608; 440; 272; 104; 960; 793; 511].

(** The least double at which the floor of [math.log(x, 1024)] is [k]. *)
Definition log_step (k : Z) : Z :=
  1024 ^ k
  - default 0 (log_slack !! Z.to_nat (k - 1)) * 2 ^ Z.max 0 (10 * k - 53).

(** [int(math.floor(math.log(sbytes, 1024)))], for [0 < sbytes]: the
    exact index of the double [float(sbytes)], [Z.log2] being the position
    of the leading bit and a power of 1024 taking ten of them, or the
    next index when the double has reached its step. *)
Definition unit_index (sbytes : Z) : Z :=
  let x := float_of_int sbytes in
  let k := Z.log2 x `div` 10 in
  if decide (log_step (k + 1) <= x) then k + 1 else k.

(** [round(x / p, 3)] under [from __future__ import division], for a
    double [x] and a power of two [p]: the quotient of two doubles by a
    power of two is exact, and [round] gives the double next to the
    quotient rounded to three decimals, ties to even.  The result is kept
    as a number of thousandths. *)
Definition round3 (x p : Z) : Z := round_half_even (1000 * x) p.

(** The three decimals of a fractional part given in thousandths, with the
    trailing zeros Python's [repr] of a float drops; one digit is always
    kept, so that a whole number prints as [1.0]. *)
Definition frac_digits (f : Z) : string :=
  let d1 := f `div` 100 in
  let d2 := (f `div` 10) `mod` 10 in
  let d3 := f `mod` 10 in
  if decide (d3 ≠ 0) then pretty d1 +:+ pretty d2 +:+ pretty d3
  else if decide (d2 ≠ 0) then pretty d1 +:+ pretty d2
  else pretty d1.

(** ["{}".format(x)] for the float [x = t / 1000], [0 <= x < 1e16]. *)
Definition float_repr (t : Z) : string :=
  pretty (t `div` 1000) +:+ "." +:+ frac_digits (t `mod` 1000).

(** An [int] at or above this bound does not convert to a double: it
    rounds to [2^1024], and [sbytes / p] raises. *)
Definition float_overflow_bound : Z := 2 ^ 1024 - 2 ^ 970.

Definition readable_size (sbytes : Z) : outcome string :=
  if decide (sbytes <= 0) then Returns "0 B"
  else
    let i := unit_index sbytes in
    (* p = math.pow(1024, i) *)
    if decide (103 <= i) then Raises (Exn "OverflowError" "math range error")
    else
      let p := 1024 ^ i in
      (* the arguments of format, left to right *)
      if decide (float_overflow_bound <= sbytes)
      then Raises (Exn "OverflowError" "int too large to convert to float")
      else
        let size := round3 (float_of_int sbytes) p in
        match units !! Z.to_nat i with
        | None => Raises (Exn "IndexError" "tuple index out of range")
        | Some u => Returns (float_repr size +:+ " " +:+ u)
        end.

End ReadableSize.
Export ReadableSize.

(** ** The operating system and the state of a scan *)

(** The fields of [os.stat(file)] that [file_stats] reads.  [st_mtime] is in
    whole seconds: the date is printed to the minute. *)
Record stat_result := mkStat {
  st_mode : Z;
  st_ino : Z;
  st_uid : Z;
  st_gid : Z;
  st_size : Z;
  st_mtime : Z
}.

Record World := mkWorld {
  (** [os.path.expanduser] and [os.path.abspath] *)
  w_expanduser : string -> string;
  w_abspath : string -> string;
  (** [os.walk(path)]: one [(pdir, chdirs, files)] per directory *)
  w_walk : string -> list (string * list string * list string);
  w_islink : string -> bool;
  w_getsize : string -> outcome Z;
  (** [md5sum(file, first_block_only)] of utils.py, which is not part of the
      sources at hand: a digest of the first 64 KiB or of the whole file *)
  w_md5sum : string -> bool -> outcome string;
  w_stat : string -> outcome stat_result;
  (** [getpwuid(uid).pw_name]; [None] when the id is unknown ([KeyError]) *)
  w_getpwuid : Z -> option string;
  w_getgrgid : Z -> option string;
  (** [stat.filemode] *)
  w_filemode : Z -> string;
  (** [datetime.datetime.fromtimestamp(t).strftime('%Y-%m-%d-%H:%M')];
      [fromtimestamp] raises for a time stamp outside the years it knows *)
  w_mdate : Z -> outcome string
}.

Record State := mkState {
  stdout : list string;
  stderr : list string;
  (** the calls made to [md5sum]: file and [first_block_only] *)
  hashed : list (string * bool);
  (** the lookups made in the account databases: database and id *)
  queried : list (string * Z)
}.

Definition initial : State := mkState [] [] [] [].

(** ** The monad of the scan *)

Definition M (A : Type) : Type := State -> outcome A * State.

Global Instance M_ret : MRet M := fun A a s => (Returns a, s).
Global Instance M_bind : MBind M := fun A B f m s =>
  match m s with
  | (Returns a, s') => f a s'
  | (Raises e, s') => (Raises e, s')
  end.

Definition raise {A} (e : exn) : M A := fun s => (Raises e, s).
Definition lift {A} (r : outcome A) : M A := fun s => (r, s).

(** [try: body / except Exception as e: handler e] *)
Definition try_except {A} (body : M A) (handler : exn -> M A) : M A :=
  fun s =>
    match body s with
    | (Returns a, s') => (Returns a, s')
    | (Raises e, s') => handler e s'
    end.

(** [try: body / except cls: handler], other classes propagate *)
Definition try_except_class {A} (cls : string) (body : M A) (handler : M A) : M A :=
  fun s =>
    match body s with
    | (Returns a, s') => (Returns a, s')
    | (Raises e, s') =>
        if decide (exn_class e = cls) then handler s' else (Raises e, s')
    end.

Definition print (line : string) : M unit := fun s =>
  (Returns tt, mkState (stdout s ++ [line]) (stderr s) (hashed s) (queried s)).

(** Modelled from the spec: [err] of utils.py, which is not part of the
    sources at hand; it prints its argument as one line on the error
    stream. *)
Definition err (line : string) : M unit := fun s =>
  (Returns tt, mkState (stdout s) (stderr s ++ [line]) (hashed s) (queried s)).

Definition log_hash (file : string) (first_block_only : bool) (s : State) : State :=
  mkState (stdout s) (stderr s) (hashed s ++ [(file, first_block_only)]) (queried s).

Definition log_query (db : string) (id : Z) (s : State) : State :=
  mkState (stdout s) (stderr s) (hashed s) (queried s ++ [(db, id)]).

Definition DQ : string := String (Ascii.ascii_of_nat 34) EmptyString.

(** ['WARNING: Failed to get info on "{}" due to "{}" error!'.format(file, e)] *)
Definition warning (file : string) (e : exn) : string :=
  "WARNING: Failed to get info on " +:+ DQ +:+ file +:+ DQ +:+
  " due to " +:+ DQ +:+ exn_str e +:+ DQ +:+ " error!".

(** ** Identity resolution and [file_stats] *)

Section Commands.

Variable w : World.

Definition getpwuid (uid : Z) : M string := fun s =>
  (match w_getpwuid w uid with
   | Some pw_name => Returns pw_name
   | None => Raises (Exn "KeyError" ("getpwuid(): uid not found: " +:+ pretty uid))
   end, log_query "passwd" uid s).

Definition getgrgid (gid : Z) : M string := fun s =>
  (match w_getgrgid w gid with
   | Some gr_name => Returns gr_name
   | None => Raises (Exn "KeyError" ("getgrgid(): gid not found: " +:+ pretty gid))
   end, log_query "group" gid s).

(** The local [name] is bound by one of the two branches or by the
    handler; with any other [uid_type] it is still unbound at [return]. *)
Definition _name (uid : Z) (uid_type : string) : M pyval :=
  name ← try_except_class "KeyError"
            (if decide (uid_type = "user") then
               pw_name ← getpwuid uid; mret (Some (PyStr pw_name))
             else if decide (uid_type = "group") then
               gr_name ← getgrgid uid; mret (Some (PyStr gr_name))
             else mret None)
            (mret (Some (PyInt uid)));
  match name with
  | Some name => mret name
  | None => raise (Exn "UnboundLocalError"
              "local variable 'name' referenced before assignment")
  end.

(** [uid_records] is the caller's dictionary, changed in place; the
    dictionary after the call is returned next to the name. *)
Definition name (uid : Z) (uid_type : string) (uid_records : gmap Z pyval)
  : M (pyval * gmap Z pyval) :=
  match uid_records !! uid with
  | Some name => mret (name, uid_records)
  | None =>
      name ← _name uid uid_type;
      mret (name, <[uid := name]> uid_records)
  end.

Definition os_stat (file : string) : M stat_result := lift (w_stat w file).

Definition file_stats (file : string) (users : gmap Z pyval)
  : M (list string * gmap Z pyval) :=
  stat_res ← try_except (st ← os_stat file; mret (Some st))
               (fun e => err (warning file e);; mret None);
  match stat_res with
  | None => mret ([], users)
  | Some stat_res =>
      let mode := st_mode stat_res in
      let permissions := w_filemode w mode in
      let inode := st_ino stat_res in
      '(owner, users) ← name (st_uid stat_res) "user" users;
      '(group, users) ← name (st_gid stat_res) "group" users;
      mdate ← lift (w_mdate w (st_mtime stat_res));
      let bsize := st_size stat_res in
      hsize ← lift (readable_size bsize);
      let info := [PyInt inode; PyStr permissions; owner; group;
                   PyInt bsize; PyStr hsize; PyStr mdate] in
      mret (py_str <$> info, users)
  end.

End Commands.

(** ** Bucket tables *)

(** A dictionary from keys to lists of paths, in the order in which the keys
    were first inserted (the order [items()] yields them in). *)
Abbreviation buckets K := (list (K * list string)).

(** [if k not in d: d[k] = []] followed by [d[k].append(file)] *)
Fixpoint bucket_append {K} `{EqDecision K} (k : K) (file : string)
    (d : buckets K) : buckets K :=
  match d with
  | [] => [(k, [file])]
  | (k', files) :: d' =>
      if decide (k' = k) then (k', files ++ [file]) :: d'
      else (k', files) :: bucket_append k file d'
  end.

(** ** [traversed] *)

Fixpoint ends_with_slash (a : string) : bool :=
  match a with
  | EmptyString => false
  | String c EmptyString => bool_decide (c = Ascii.ascii_of_nat 47)
  | String _ rest => ends_with_slash rest
  end.

(** [os.path.join(a, p)] of posixpath, two arguments *)
Definition os_path_join (a p : string) : string :=
  match p with
  | String c _ =>
      if bool_decide (c = Ascii.ascii_of_nat 47) then p
      else if bool_decide (a = "") || ends_with_slash a then a +:+ p
      else a +:+ "/" +:+ p
  | EmptyString =>
      if bool_decide (a = "") || ends_with_slash a then a else a +:+ "/"
  end.

Section Ls.

Variable w : World.

Definition normalized (path : string) : string :=
  let npath := w_expanduser w path in
  let npath := w_abspath w npath in
  npath.

(** The paths the generator yields, in the order it yields them. *)
Definition traversed (path : string) (skip_links : bool) : list string :=
  let path := normalized path in
  '(pdir, chdirs, files) ← w_walk w path;
  f ← files;
  let file := os_path_join pdir f in
  if skip_links && w_islink w file then [] else [file].

Definition os_path_getsize (file : string) : M Z := lift (w_getsize w file).

Definition md5sum (file : string) (first_block_only : bool) : M string :=
  fun s => (w_md5sum w file first_block_only, log_hash file first_block_only s).

(** First loop of [_ls]: [for file in traversed(path)]. *)
Fixpoint ls_sizes (files : list string) (sizes : buckets Z) : M (buckets Z) :=
  match files with
  | [] => mret sizes
  | file :: rest =>
      sizes ← try_except
                 (filesize ← os_path_getsize file;
                  mret (bucket_append filesize file sizes))
                 (fun e => err (warning file e);; mret sizes);
      ls_sizes rest sizes
  end.

(** The inner loop [for file in files] of the second and of the third
    loop; the two differ in [first_block_only] alone. *)
Fixpoint hash_files (first_block_only : bool) (size : Z) (files : list string)
    (hashes : buckets (string * Z)) : M (buckets (string * Z)) :=
  match files with
  | [] => mret hashes
  | file :: rest =>
      hashes ← try_except
                 (hash ← md5sum file first_block_only;
                  mret (bucket_append (hash, size) file hashes))
                 (fun e => err (warning file e);; mret hashes);
      hash_files first_block_only size rest hashes
  end.

(** The four lines shared by the last three loops:
    [file_info = file_stats(file, users)],
    [if not file_info: continue],
    [file_info.extend([file, duplicates])],
    [print("\t".join(file_info))]. *)
Definition report (file duplicates : string) (users : gmap Z pyval)
  : M (gmap Z pyval) :=
  '(file_info, users) ← file_stats w file users;
  match file_info with
  | [] => mret users
  | _ => print (join TAB (file_info ++ [file; duplicates]));; mret users
  end.

Definition index_error {A} : M A :=
  raise (Exn "IndexError" "list index out of range").

(** Second loop: [for size, files in sizes.items()]. *)
Fixpoint ls_mini (items : buckets Z) (users : gmap Z pyval)
    (mini_hashes : buckets (string * Z))
  : M (gmap Z pyval * buckets (string * Z)) :=
  match items with
  | [] => mret (users, mini_hashes)
  | (size, files) :: rest =>
      if decide (length files < 2)%nat then
        match files with
        | [] => index_error
        | file :: _ =>
            users ← report file "" users;
            ls_mini rest users mini_hashes
        end
      else
        mini_hashes ← hash_files true size files mini_hashes;
        ls_mini rest users mini_hashes
  end.

(** Third loop: [for hash_tuple, files in mini_hashes.items()]. *)
Fixpoint ls_full (items : buckets (string * Z)) (users : gmap Z pyval)
    (full_hashes : buckets (string * Z))
  : M (gmap Z pyval * buckets (string * Z)) :=
  match items with
  | [] => mret (users, full_hashes)
  | (hash_tuple, files) :: rest =>
      if decide (length files < 2)%nat then
        match files with
        | [] => index_error
        | file :: _ =>
            users ← report file "" users;
            ls_full rest users full_hashes
        end
      else
        let size := hash_tuple.2 in
        full_hashes ← hash_files false size files full_hashes;
        ls_full rest users full_hashes
  end.

(** Fourth loop: [for hash_tuple, files in full_hashes.items()]. *)
Fixpoint ls_dups (items : buckets (string * Z)) (users : gmap Z pyval)
  : M (gmap Z pyval) :=
  match items with
  | [] => mret users
  | (hash_tuple, files) :: rest =>
      match files with
      | [] => index_error
      | file :: others =>
          let duplicates := join "|" others in
          users ← report file duplicates users;
          ls_dups rest users
      end
  end.

Definition _ls (path : string) (md5 : bool) : M unit :=
  let users : gmap Z pyval := ∅ in
  sizes ← ls_sizes (traversed path true) [];
  '(users, mini_hashes) ← ls_mini sizes users [];
  '(users, full_hashes) ← ls_full mini_hashes users [];
  _ ← ls_dups full_hashes users;
  mret tt.

End Ls.

(** ** A small tree to run the scan on *)

Module Demo.

Definition st (ino uid gid size : Z) : stat_result :=
  mkStat 33188 ino uid gid size 0.

Definition io_error {A} : outcome A :=
  Raises (Exn "FileNotFoundError" "[Errno 2] No such file or directory").

(** [/d] holds [a], [b], [c], [d], [e] and a link [l].  [a] and [b] are
    equal, [c] has their size and their first block, [d] has their size,
    [e] is alone with its size. *)
Definition tree : World := {|
  w_expanduser p := p;
  w_abspath p := p;
  w_walk p := if decide (p = "/d") then [("/d", [], ["a"; "b"; "c"; "d"; "e"; "l"])] else [];
  w_islink f := bool_decide (f = "/d/l");
  w_getsize f :=
    if decide (f = "/d/e") then Returns 1536
    else if decide (f ∈ ["/d/a"; "/d/b"; "/d/c"; "/d/d"]) then Returns 100000
    else io_error;
  w_md5sum f first_block_only :=
    if decide (f ∈ ["/d/a"; "/d/b"]) then Returns (if first_block_only then "p1" else "f1")
    else if decide (f = "/d/c") then Returns (if first_block_only then "p1" else "f2")
    else if decide (f = "/d/d") then Returns (if first_block_only then "p2" else "f3")
    else io_error;
  w_stat f :=
    if decide (f = "/d/a") then Returns (st 11 0 0 100000)
    else if decide (f = "/d/b") then Returns (st 12 0 0 100000)
    else if decide (f = "/d/c") then Returns (st 13 1000 50 100000)
    else if decide (f = "/d/d") then Returns (st 14 1000 50 100000)
    else if decide (f = "/d/e") then Returns (st 15 4242 50 1536)
    else io_error;
  w_getpwuid uid :=
    if decide (uid = 0) then Some "root"
    else if decide (uid = 1000) then Some "alice" else None;
  w_getgrgid gid :=
    if decide (gid = 0) then Some "wheel"
    else if decide (gid = 50) then Some "staff" else None;
  w_filemode _ := "-rw-r--r--";
  w_mdate _ := Returns "1970-01-01-00:00"
|}.

(** [/v] holds [a] and [b], which are equal, [c], of their size, [e],
    alone with its size, and [x].  [x] is gone before its size is read,
    [c] before it is hashed, [a] and [e] before [os.stat] is called. *)
Definition vanishing : World := {|
  w_expanduser p := p;
  w_abspath p := p;
  w_walk p :=
    if decide (p = "/v") then [("/v", [], ["a"; "b"; "c"; "e"; "x"])] else [];
  w_islink f := false;
  w_getsize f :=
    if decide (f = "/v/e") then Returns 1536
    else if decide (f ∈ ["/v/a"; "/v/b"; "/v/c"]) then Returns 100000
    else io_error;
  w_md5sum f first_block_only :=
    if decide (f ∈ ["/v/a"; "/v/b"]) then Returns (if first_block_only then "p1" else "f1")
    else io_error;
  w_stat f :=
    if decide (f = "/v/b") then Returns (st 12 0 0 100000)
    else io_error;
  w_getpwuid uid := if decide (uid = 0) then Some "root" else None;
  w_getgrgid gid := if decide (gid = 0) then Some "wheel" else None;
  w_filemode _ := "-rw-r--r--";
  w_mdate _ := Returns "1970-01-01-00:00"
|}.

End Demo.


(** ** Vocabulary of the statements *)

(** The account database a [uid_type] selects, and what it holds for an id. *)
Definition database_of (uid_type : string) : string :=
  if decide (uid_type = "user") then "passwd" else "group".

Definition account_lookup (w : World) (uid_type : string) (uid : Z)
  : option string :=
  if decide (uid_type = "user") then w_getpwuid w uid else w_getgrgid w uid.

(** What a first resolution of [uid] yields: the account name, or the id
    itself when the database does not know it. *)
Definition resolved (w : World) (uid_type : string) (uid : Z) : pyval :=
  match account_lookup w uid_type uid with
  | Some account => PyStr account
  | None => PyInt uid
  end.

(** What [name] returns for [id]: the cached name, or what a first
    resolution yields. *)
Definition cached_name (w : World) (uid_type : string) (id : Z)
    (users : gmap Z pyval) : pyval :=
  default (resolved w uid_type id) (users !! id).

(** What [file_stats] makes of a stat result after the names are resolved:
    the date, then the readable size; the first exception escapes. *)
Definition render (w : World) (st : stat_result) : outcome (string * string) :=
  match w_mdate w (st_mtime st) with
  | Raises e => Raises e
  | Returns mdate =>
      match readable_size (st_size st) with
      | Raises e => Raises e
      | Returns hsize => Returns (mdate, hsize)
      end
  end.

(** The date and the size that [os.stat] reports for [file], if it reports
    any, can be rendered. *)
Definition renderable (w : World) (file : string) : Prop :=
  match w_stat w file with
  | Returns st => returned (render w st) = true
  | Raises _ => True
  end.

Global Instance renderable_dec w file : Decision (renderable w file).
Proof. unfold renderable. destruct (w_stat w file); apply _. Defined.

(** A name that the cache can hold for [id]: the one of the user database
    or the one of the group database, whichever resolved [id] first. *)
Definition named (w : World) (id : Z) (v : pyval) : Prop :=
  v = resolved w "user" id \/ v = resolved w "group" id.

Definition cache_named (w : World) (users : gmap Z pyval) : Prop :=
  forall id v, users !! id = Some v -> named w id v.

(** The seven fields of [file_stats], before [str] is mapped over them. *)
Definition info_fields (w : World) (st : stat_result) (owner group : pyval)
    (hsize mdate : string) : list pyval :=
  [PyInt (st_ino st); PyStr (w_filemode w (st_mode st)); owner; group;
   PyInt (st_size st); PyStr hsize; PyStr mdate].

(** The least size that [readable_size] cannot render: [float] rounds it
    to the double at which the index steps to 9, past the nine units. *)
Definition size_limit : Z := 1024 ^ 9 - 113 * 2 ^ 36.

(** The paths of [l] with a pipe between each two. *)
Definition piped (l : list string) : string :=
  match l with
  | [] => ""
  | x :: rest => foldl (fun acc y => acc +:+ "|" +:+ y) x rest
  end.

(** The list stored under [k], empty when [k] is not a key. *)
Fixpoint bucket_of {K} `{EqDecision K} (k : K) (d : buckets K) : list string :=
  match d with
  | [] => []
  | (k', files) :: d' => if decide (k' = k) then files else bucket_of k d'
  end.

Abbreviation small l := (length l < 2)%nat.

Section Pipeline.

Variable w : World.

(** The key a path is filed under in each of the three tables; [None]
    when the probe raises. *)
Definition size_key (file : string) : option Z :=
  match w_getsize w file with
  | Returns filesize => Some filesize
  | Raises _ => None
  end.

Definition hash_key (first_block_only : bool) (size : Z) (file : string)
  : option (string * Z) :=
  match w_md5sum w file first_block_only with
  | Returns hash => Some (hash, size)
  | Raises _ => None
  end.

(** The table a loop [for file in files] leaves behind: every path whose
    probe returned is appended under its key. *)
Fixpoint group {K} `{EqDecision K} (key : string -> option K)
    (files : list string) (d : buckets K) : buckets K :=
  match files with
  | [] => d
  | file :: rest =>
      group key rest
        (match key file with
         | Some k => bucket_append k file d
         | None => d
         end)
  end.

(** The table the second ([first_block_only], sizes as keys) and the third
    loop (digest and size as keys) leave behind: the buckets of fewer than
    two paths are passed over, the others are hashed again. *)
Fixpoint regroup {K} (first_block_only : bool) (size_of : K -> Z)
    (items : buckets K) (hashes : buckets (string * Z))
  : buckets (string * Z) :=
  match items with
  | [] => hashes
  | (k, files) :: rest =>
      regroup first_block_only size_of rest
        (if decide (length files < 2)%nat then hashes
         else group (hash_key first_block_only (size_of k)) files hashes)
  end.

Definition size_buckets (files : list string) : buckets Z :=
  group size_key files [].
Definition mini_buckets (files : list string) : buckets (string * Z) :=
  regroup true id (size_buckets files) [].
Definition full_buckets (files : list string) : buckets (string * Z) :=
  regroup false snd (mini_buckets files) [].

(** The buckets of a table that are final at once, and those that go on
    to the next stage. *)
Definition singletons {K} (items : buckets K) : list (list string) :=
  (filter (fun item => length item.2 < 2)%nat items).*2.
Definition candidates {K} (items : buckets K) : list (list string) :=
  (filter (fun item => ~ (length item.2 < 2)%nat) items).*2.

(** The final buckets, in the order in which the scan comes to them. *)
Definition final_buckets (files : list string) : list (list string) :=
  singletons (size_buckets files) ++ singletons (mini_buckets files)
    ++ (full_buckets files).*2.

(** A bucket is reported when [os.stat] succeeds on its first path. *)
Definition readable (bucket : list string) : Prop :=
  match bucket with
  | file :: _ => returned (w_stat w file) = true
  | [] => False
  end.

Global Instance readable_dec bucket : Decision (readable bucket).
Proof. destruct bucket; simpl; apply _. Defined.

Definition emitted (files : list string) : list (list string) :=
  filter readable (final_buckets files).

(** [line] is the record of [bucket]: inode, permissions, owner, group,
    size in bytes, readable size and date of the first path, the first
    path, the other paths with pipes between them; a tab after each field
    but the last. *)
Definition renders (bucket : list string) (line : string) : Prop :=
  match bucket with
  | [] => False
  | file :: others =>
      exists st owner group hsize mdate,
        w_stat w file = Returns st /\
        w_mdate w (st_mtime st) = Returns mdate /\
        readable_size (st_size st) = Returns hsize /\
        named w (st_uid st) owner /\ named w (st_gid st) group /\
        line = pretty (st_ino st) +:+ TAB +:+ w_filemode w (st_mode st)
               +:+ TAB +:+ py_str owner +:+ TAB +:+ py_str group
               +:+ TAB +:+ pretty (st_size st) +:+ TAB +:+ hsize
               +:+ TAB +:+ mdate +:+ TAB +:+ file +:+ TAB +:+ piped others
  end.

(** The warnings a list of probes leaves on the error stream. *)
Definition failures {A} (probe : string -> outcome A) (files : list string)
  : list string :=
  file ← files;
  match probe file with
  | Raises e => [warning file e]
  | Returns _ => []
  end.

Definition stat_failure (bucket : list string) : list string :=
  failures (w_stat w) (take 1 bucket).

(** What a pass over a table writes on the error stream and which digests
    it asks for. *)
Definition stage_errors {K} (first_block_only : bool) (items : buckets K)
  : list string :=
  item ← items;
  if decide (length item.2 < 2)%nat then stat_failure item.2
  else failures (fun file => w_md5sum w file first_block_only) item.2.

Definition stage_hashed {K} (first_block_only : bool) (items : buckets K)
  : list (string * bool) :=
  (fun file => (file, first_block_only)) <$> mjoin (candidates items).

(** What a whole scan of [files] writes on the error stream, and the
    digests it asks for, in order. *)
Definition ls_errors (files : list string) : list string :=
  failures (w_getsize w) files
    ++ stage_errors true (size_buckets files)
    ++ stage_errors false (mini_buckets files)
    ++ ((full_buckets files).*2 ≫= stat_failure).

Definition ls_hashed (files : list string) : list (string * bool) :=
  stage_hashed true (size_buckets files)
    ++ stage_hashed false (mini_buckets files).

(** What becomes of a traversed path.  [peers1] are the paths of its
    size, [peers2] those among them with its partial digest. *)
Definition peers1 (files : list string) (size : Z) : list string :=
  filter (fun g => size_key g = Some size) files.
Definition peers2 (files : list string) (size : Z) (hash : string)
  : list string :=
  filter (fun g => hash_key true size g = Some (hash, size)) (peers1 files size).

Inductive fate :=
  | SizeFailed (e : exn)
  | Singleton1 (size : Z)
  | PartialFailed (e : exn)
  | Singleton2 (hash : string) (size : Z)
  | FullFailed (e : exn)
  | Final (hash : string) (size : Z).

Global Instance fate_eq_dec : EqDecision fate.
Proof. solve_decision. Defined.

Definition fate_of (files : list string) (file : string) : fate :=
  match w_getsize w file with
  | Raises e => SizeFailed e
  | Returns size =>
      if decide (length (peers1 files size) < 2)%nat then Singleton1 size
      else
        match w_md5sum w file true with
        | Raises e => PartialFailed e
        | Returns mini =>
            if decide (length (peers2 files size mini) < 2)%nat
            then Singleton2 mini size
            else
              match w_md5sum w file false with
              | Raises e => FullFailed e
              | Returns full => Final full size
              end
        end
  end.

(** The failure that excluded a path, if one did. *)
Definition excluded_by (ft : fate) : option exn :=
  match ft with
  | SizeFailed e | PartialFailed e | FullFailed e => Some e
  | _ => None
  end.

(** Modelled from the spec: [md5sum] of utils.py is not part of the
    sources at hand.  The spec takes a fingerprint to be a digest of the
    file's bytes that stands for them in comparisons, the partial one
    over the first 64 KiB, the full one over all of them.  Hence, among
    the files of a scan, those of one size with one full digest have one
    partial digest. *)
Definition hash_coherent (files : list string) : Prop :=
  forall f g size full pf pg,
    f ∈ files -> g ∈ files ->
    w_getsize w f = Returns size -> w_getsize w g = Returns size ->
    w_md5sum w f false = Returns full -> w_md5sum w g false = Returns full ->
    w_md5sum w f true = Returns pf -> w_md5sum w g true = Returns pg ->
    pf = pg.

(** Every digest among [hs] that raised has its warning among [errs]. *)
Definition warned (hs : list (string * bool)) (errs : list string) : Prop :=
  forall file first_block_only e,
    (file, first_block_only) ∈ hs ->
    w_md5sum w file first_block_only = Raises e ->
    warning file e ∈ errs.

(** How far a loop came that was to report [bks_all], to write [errs_all]
    and to ask for [hs_all]: to its end, or up to a bucket whose first
    path [os.stat] could read but whose date or size could not be
    rendered. *)
Definition cut_short {A} (r : outcome A)
    (bks bks_all : list (list string)) (errs errs_all : list string)
    (hs hs_all : list (string * bool)) : Prop :=
  match r with
  | Returns _ => bks = bks_all /\ errs = errs_all /\ hs = hs_all
  | Raises e =>
      errs `prefix_of` errs_all /\ hs `prefix_of` hs_all /\
      exists file others st,
        (bks ++ [file :: others]) `prefix_of` bks_all /\
        w_stat w file = Returns st /\ render w st = Raises e
  end.

(** The second and the third loop in one: [ls_mini] is
    [ls_stage true id], [ls_full] is [ls_stage false snd]. *)
Fixpoint ls_stage {K} (first_block_only : bool) (size_of : K -> Z)
    (items : buckets K) (users : gmap Z pyval)
    (hashes : buckets (string * Z))
  : M (gmap Z pyval * buckets (string * Z)) :=
  match items with
  | [] => mret (users, hashes)
  | (k, files) :: rest =>
      if decide (length files < 2)%nat then
        match files with
        | [] => index_error
        | file :: _ =>
            users ← report w file "" users;
            ls_stage first_block_only size_of rest users hashes
        end
      else
        hashes ← hash_files w first_block_only (size_of k) files hashes;
        ls_stage first_block_only size_of rest users hashes
  end.

End Pipeline.

(** [s'] is [s] with [out] printed, [errs] written on the error stream and
    the digests [hs] asked for. *)
Definition extends (s s' : State) (out errs : list string)
    (hs : list (string * bool)) : Prop :=
  stdout s' = stdout s ++ out /\ stderr s' = stderr s ++ errs /\
  hashed s' = hashed s ++ hs.
(** ** Vocabulary of the further properties *)

(** The ids looked up so far are the cached ones, each looked up once. *)
Definition cache_logged (users : gmap Z pyval) (s : State) : Prop :=
  NoDup (queried s).*2 /\
  forall id, id ∈ (queried s).*2 <-> is_Some (users !! id).

(** The numbers that are the owner id, or the group id, of one of [files]. *)
Definition is_uid (w : World) (files : list string) (id : Z) : Prop :=
  exists file st, file ∈ files /\ w_stat w file = Returns st /\ st_uid st = id.
Definition is_gid (w : World) (files : list string) (id : Z) : Prop :=
  exists file st, file ∈ files /\ w_stat w file = Returns st /\ st_gid st = id.

(** No number is both an owner id and a group id among [files]. *)
Definition ids_apart (w : World) (files : list string) : Prop :=
  forall id, is_uid w files id -> is_gid w files id -> False.

(** Every cached name was resolved in the database of its own kind. *)
Definition cache_typed (w : World) (files : list string)
    (users : gmap Z pyval) : Prop :=
  forall id v, users !! id = Some v ->
    (is_uid w files id /\ v = resolved w "user" id) \/
    (is_gid w files id /\ v = resolved w "group" id).

(** The line of a bucket, with the owner resolved in the user database and
    the group in the group database; no line when [os.stat] fails on the
    first path. *)
Definition record (w : World) (bucket : list string) : list string :=
  match bucket with
  | [] => []
  | file :: others =>
      match w_stat w file with
      | Raises _ => []
      | Returns st =>
          match render w st with
          | Raises _ => []
          | Returns (mdate, hsize) =>
              [pretty (st_ino st) +:+ TAB +:+ w_filemode w (st_mode st)
               +:+ TAB +:+ py_str (resolved w "user" (st_uid st))
               +:+ TAB +:+ py_str (resolved w "group" (st_gid st))
               +:+ TAB +:+ pretty (st_size st) +:+ TAB +:+ hsize
               +:+ TAB +:+ mdate +:+ TAB +:+ file +:+ TAB +:+ piped others]
          end
      end
  end.

(** ** More trees *)

Module Samples.

(** [/h] holds [big], for which [os.stat] reports [1024^9] bytes. *)
Definition huge : World := {|
  w_expanduser p := p;
  w_abspath p := p;
  w_walk p := if decide (p = "/h") then [("/h", [], ["big"])] else [];
  w_islink f := false;
  w_getsize f := Returns (1024 ^ 9);
  w_md5sum f first_block_only := Demo.io_error;
  w_stat f := Returns (Demo.st 21 0 0 (1024 ^ 9));
  w_getpwuid uid := None;
  w_getgrgid gid := None;
  w_filemode _ := "-rw-r--r--";
  w_mdate _ := Returns "1970-01-01-00:00"
|}.

(** [/p] holds [one], [two] and [three], of three sizes; [three] is gone
    before its size is read.  [one] belongs to uid 1000 and gid 50, [two]
    to uid 1001 and gid 50. *)
Definition plain : World := {|
  w_expanduser p := p;
  w_abspath p := p;
  w_walk p := if decide (p = "/p") then [("/p", [], ["one"; "two"; "three"])] else [];
  w_islink f := false;
  w_getsize f :=
    if decide (f = "/p/one") then Returns 10
    else if decide (f = "/p/two") then Returns 2048
    else Demo.io_error;
  w_md5sum f first_block_only := Returns "d";
  w_stat f :=
    if decide (f = "/p/one") then Returns (Demo.st 31 1000 50 10)
    else if decide (f = "/p/two") then Returns (Demo.st 32 1001 50 2048)
    else Demo.io_error;
  w_getpwuid uid := if decide (uid = 1000) then Some "alice" else None;
  w_getgrgid gid := if decide (gid = 50) then Some "staff" else None;
  w_filemode _ := "-rw-r--r--";
  w_mdate _ := Returns "1970-01-01-00:00"
|}.

(** [/t] holds [new], [far] and [old], of three sizes.  The modification
    time of [far] is in the year 10000, which [fromtimestamp] refuses. *)
Definition dated : World := {|
  w_expanduser p := p;
  w_abspath p := p;
  w_walk p := if decide (p = "/t") then [("/t", [], ["new"; "far"; "old"])] else [];
  w_islink f := false;
  w_getsize f :=
    if decide (f = "/t/new") then Returns 10
    else if decide (f = "/t/far") then Returns 20
    else if decide (f = "/t/old") then Returns 30
    else Demo.io_error;
  w_md5sum f first_block_only := Returns "d";
  w_stat f :=
    if decide (f = "/t/new") then Returns (mkStat 33188 41 1000 50 10 0)
    else if decide (f = "/t/far")
    then Returns (mkStat 33188 42 1000 50 20 253402300800)
    else if decide (f = "/t/old") then Returns (mkStat 33188 43 1000 50 30 0)
    else Demo.io_error;
  w_getpwuid uid := if decide (uid = 1000) then Some "alice" else None;
  w_getgrgid gid := if decide (gid = 50) then Some "staff" else None;
  w_filemode _ := "-rw-r--r--";
  w_mdate t :=
    if decide (t < 253402300800) then Returns "1970-01-01-00:00"
    else Raises (Exn "ValueError" "year 10000 is out of range")
|}.

(** [/i] holds [a], [b], [c] and [d], of one size.  The partial digest
    puts [a] with [c] and [b] with [d]; by the time the full digests are
    taken [a], [b] and [c] read the same. *)
Definition shifting : World := {|
  w_expanduser p := p;
  w_abspath p := p;
  w_walk p := if decide (p = "/i") then [("/i", [], ["a"; "b"; "c"; "d"])] else [];
  w_islink f := false;
  w_getsize f := Returns 100;
  w_md5sum f first_block_only :=
    if first_block_only
    then Returns (if decide (f ∈ ["/i/a"; "/i/c"]) then "p1" else "p2")
    else Returns (if decide (f = "/i/d") then "f2" else "f1");
  w_stat f :=
    if decide (f = "/i/a") then Returns (Demo.st 51 1000 50 100)
    else if decide (f = "/i/d") then Returns (Demo.st 54 1000 50 100)
    else Demo.io_error;
  w_getpwuid uid := if decide (uid = 1000) then Some "alice" else None;
  w_getgrgid gid := if decide (gid = 50) then Some "staff" else None;
  w_filemode _ := "-rw-r--r--";
  w_mdate _ := Returns "1970-01-01-00:00"
|}.

End Samples.

(** * Properties *)

(** ** [readable_size] *)

Example readable_size_2048 : readable_size 2048 = Returns "2.0 KiB".
Proof. vm_compute. reflexivity. Qed.
Example readable_size_1088 : readable_size 1088 = Returns "1.062 KiB".
Proof. vm_compute. reflexivity. Qed.
Example readable_size_1 : readable_size 1 = Returns "1.0 B".
Proof. vm_compute. reflexivity. Qed.
Example readable_size_1234567 : readable_size 1234567 = Returns "1.177 MiB".
Proof. vm_compute. reflexivity. Qed.
(** Just below a power of 1024 the double logarithm has reached the power. *)
Example readable_size_below_PiB :
  readable_size (1024 ^ 5 - 1) = Returns "1.0 PiB".
Proof. vm_compute. reflexivity. Qed.
Example readable_size_below_PiB_exact :
  readable_size (1024 ^ 5 - 4) = Returns "1024.0 TiB".
Proof. vm_compute. reflexivity. Qed.
(** The conversion to a double comes before the division: the odd last bit
    is lost and the quotient is the tie 1.0625. *)
Example readable_size_tie :
  readable_size (17 * 2 ^ 56 + 1) = Returns "1.062 EiB".
Proof. vm_compute. reflexivity. Qed.

Section ReadableSizeFacts.

Lemma pow_1024_9 : 1024 ^ 9 = 2 ^ 90.
Proof. reflexivity. Qed.

(** *** Rounding *)

Lemma round_half_even_bounds n d :
  0 < d -> n `div` d <= round_half_even n d <= n `div` d + 1.
Proof.
  intros Hd. unfold round_half_even.
  repeat case_decide; try lia; destruct (Z.even _); lia.
Qed.

Lemma round_half_even_mono a b d :
  0 < d -> a <= b -> round_half_even a d <= round_half_even b d.
Proof.
  intros Hd Hab.
  pose proof (round_half_even_bounds a d Hd) as Ha.
  pose proof (round_half_even_bounds b d Hd) as Hb.
  pose proof (Z.div_le_mono a b d Hd Hab) as Hq.
  destruct (decide (a `div` d = b `div` d)) as [Heq|Hne]; [|lia].
  pose proof (Z.div_mod a d ltac:(lia)) as Hda.
  pose proof (Z.div_mod b d ltac:(lia)) as Hdb.
  unfold round_half_even. rewrite <- Heq in *.
  assert (Hr : a `mod` d <= b `mod` d) by lia.
  repeat case_decide; try lia; destruct (Z.even _); lia.
Qed.

Lemma round_half_even_multiple m d : 0 < d -> round_half_even (m * d) d = m.
Proof.
  intros Hd. unfold round_half_even.
  rewrite Z.mod_mul, Z.div_mul by lia.
  by rewrite decide_True by lia.
Qed.

(** *** The double of an integer *)

Lemma float_of_int_small n : n < 2 ^ 53 -> float_of_int n = n.
Proof.
  intros Hn. unfold float_of_int.
  destruct (decide (0 < n)) as [Hpos|Hneg].
  - apply Z.log2_lt_pow2 in Hn; [|done]. by rewrite decide_True by lia.
  - rewrite Z.log2_nonpos by lia. by rewrite decide_True by lia.
Qed.

Lemma float_of_int_bounds n :
  0 < n -> 2 ^ Z.log2 n <= float_of_int n <= 2 ^ (Z.log2 n + 1).
Proof.
  intros Hpos. pose proof (Z.log2_spec n Hpos) as [Hlo Hhi].
  rewrite <- Z.add_1_r in Hhi.
  unfold float_of_int. destruct (decide (Z.log2 n - 52 <= 0)) as [|He]; [lia|].
  set (e := Z.log2 n - 52) in *.
  assert (Hd : 0 < 2 ^ e) by (apply Z.pow_pos_nonneg; lia).
  assert (HL : 2 ^ Z.log2 n = 2 ^ 52 * 2 ^ e).
  { rewrite <- Z.pow_add_r by lia. f_equal. lia. }
  assert (HL1 : 2 ^ (Z.log2 n + 1) = 2 ^ 53 * 2 ^ e).
  { rewrite <- Z.pow_add_r by lia. f_equal. lia. }
  pose proof (round_half_even_bounds n (2 ^ e) Hd) as Hr.
  assert (Hq1 : 2 ^ 52 <= n `div` 2 ^ e)
    by (apply Z.div_le_lower_bound; lia).
  assert (Hq2 : n `div` 2 ^ e < 2 ^ 53)
    by (apply Z.div_lt_upper_bound; lia).
  rewrite HL, HL1. split; apply Z.mul_le_mono_nonneg_r; lia.
Qed.

Lemma float_of_int_pos n : 0 < n -> 0 < float_of_int n.
Proof.
  intros Hpos. pose proof (float_of_int_bounds n Hpos) as [Hlo _].
  assert (0 < 2 ^ Z.log2 n)
    by (apply Z.pow_pos_nonneg; [lia|apply Z.log2_nonneg]).
  lia.
Qed.

Lemma float_of_int_mono a b :
  0 < a -> a <= b -> float_of_int a <= float_of_int b.
Proof.
  intros Ha Hab.
  pose proof (Z.log2_le_mono a b Hab) as HL.
  destruct (decide (Z.log2 a = Z.log2 b)) as [Heq|Hne].
  - unfold float_of_int. rewrite Heq.
    destruct (decide (Z.log2 b - 52 <= 0)); [done|].
    assert (Hd : 0 < 2 ^ (Z.log2 b - 52)) by (apply Z.pow_pos_nonneg; lia).
    apply Z.mul_le_mono_nonneg_r; [lia|].
    by apply round_half_even_mono.
  - pose proof (float_of_int_bounds a Ha) as [_ Hhi].
    pose proof (float_of_int_bounds b ltac:(lia)) as [Hlo _].
    etrans; [exact Hhi|]. etrans; [|exact Hlo].
    apply Z.pow_le_mono_r; lia.
Qed.

(** An integer of at most 53 significant bits is a double. *)
Lemma float_of_int_multiple m k :
  0 < m < 2 ^ 53 -> 0 <= k -> float_of_int (m * 2 ^ k) = m * 2 ^ k.
Proof.
  intros [Hm1 Hm2] Hk. unfold float_of_int.
  rewrite Z.log2_mul_pow2 by lia.
  destruct (decide (k + Z.log2 m - 52 <= 0)) as [|He]; [done|].
  set (e := k + Z.log2 m - 52) in *.
  assert (HL : Z.log2 m < 53) by (apply Z.log2_lt_pow2; lia).
  assert (Hsplit : m * 2 ^ k = m * 2 ^ (k - e) * 2 ^ e).
  { rewrite <- Z.mul_assoc, <- Z.pow_add_r by lia. do 2 f_equal. lia. }
  rewrite Hsplit at 1.
  rewrite round_half_even_multiple by (apply Z.pow_pos_nonneg; lia).
  by rewrite <- Hsplit.
Qed.

(** *** The index *)

Lemma log_steps :
  log_step 1 = 1024 /\ log_step 2 = 1024 ^ 2 /\ log_step 3 = 1024 ^ 3 /\
  log_step 4 = 1024 ^ 4 /\ log_step 5 = 1024 ^ 5 - 3 /\
  log_step 6 = 1024 ^ 6 - 48 * 2 ^ 7 /\ log_step 7 = 1024 ^ 7 - 8 * 2 ^ 17 /\
  log_step 8 = 1024 ^ 8 - 32 * 2 ^ 27 /\ log_step 9 = 1024 ^ 9 - 56 * 2 ^ 37.
Proof. repeat split; vm_compute; reflexivity. Qed.

Lemma unit_index_nonneg sbytes : 0 <= unit_index sbytes.
Proof.
  unfold unit_index.
  assert (0 <= Z.log2 (float_of_int sbytes) `div` 10)
    by (apply Z.div_pos; [apply Z.log2_nonneg | lia]).
  case_decide; lia.
Qed.

Lemma unit_index_below_step sbytes :
  0 < sbytes -> float_of_int sbytes < log_step 9 -> unit_index sbytes <= 8.
Proof.
  intros Hpos Hlt. pose proof (float_of_int_pos _ Hpos) as Hx.
  unfold unit_index. set (x := float_of_int sbytes) in *.
  assert (Hs9 : log_step 9 < 2 ^ 90) by (vm_compute; reflexivity).
  assert (HL : Z.log2 x < 90) by (apply Z.log2_lt_pow2; lia).
  assert (Hk : Z.log2 x `div` 10 < 9) by (apply Z.div_lt_upper_bound; lia).
  case_decide as Hstep; [|lia].
  destruct (decide (Z.log2 x `div` 10 = 8)) as [Heq|]; [|lia].
  rewrite Heq in Hstep. change (8 + 1) with 9 in Hstep. lia.
Qed.

Lemma unit_index_above_step sbytes :
  log_step 9 <= float_of_int sbytes -> 9 <= unit_index sbytes.
Proof.
  intros Hle. unfold unit_index. set (x := float_of_int sbytes) in *.
  assert (Hs9 : 2 ^ 80 <= log_step 9) by (vm_compute; discriminate).
  assert (HL : 80 <= Z.log2 x).
  { rewrite <- (Z.log2_pow2 80) by lia. apply Z.log2_le_mono. lia. }
  assert (Hk : 8 <= Z.log2 x `div` 10) by (apply Z.div_le_lower_bound; lia).
  case_decide as Hstep; [lia|].
  destruct (decide (Z.log2 x `div` 10 = 8)) as [Heq|]; [|lia].
  rewrite Heq in Hstep. change (8 + 1) with 9 in Hstep. lia.
Qed.

(** [size_limit] is where the integers start whose double has reached
    the ninth step. *)
Lemma float_below_limit sbytes :
  0 < sbytes < size_limit -> float_of_int sbytes < log_step 9.
Proof.
  intros [Hpos Hlt].
  pose proof (float_of_int_mono sbytes (size_limit - 1) Hpos ltac:(lia)) as H.
  assert (Hc : float_of_int (size_limit - 1) < log_step 9)
    by (vm_compute; reflexivity).
  lia.
Qed.

Lemma float_above_limit sbytes :
  size_limit <= sbytes -> log_step 9 <= float_of_int sbytes.
Proof.
  intros Hle.
  assert (Hpos : 0 < size_limit) by (vm_compute; reflexivity).
  pose proof (float_of_int_mono size_limit sbytes Hpos Hle) as H.
  assert (Hc : float_of_int size_limit = log_step 9)
    by (vm_compute; reflexivity).
  lia.
Qed.

Lemma unit_index_small sbytes :
  0 < sbytes < size_limit -> unit_index sbytes <= 8.
Proof.
  intros Hr. apply unit_index_below_step; [lia|by apply float_below_limit].
Qed.

Lemma unit_index_large sbytes :
  size_limit <= sbytes -> 9 <= unit_index sbytes.
Proof. intros Hle. by apply unit_index_above_step, float_above_limit. Qed.

Lemma units_lookup_small i :
  0 <= i <= 8 -> is_Some (units !! Z.to_nat i).
Proof.
  intros Hi. apply lookup_lt_is_Some. simpl. lia.
Qed.

Lemma units_lookup_large i : 9 <= i -> units !! Z.to_nat i = None.
Proof.
  intros Hi. apply lookup_ge_None. simpl. lia.
Qed.

Lemma below_float_overflow sbytes :
  sbytes < 1024 ^ 9 -> ~ float_overflow_bound <= sbytes.
Proof.
  intros Hlt Hle.
  assert (Hb : 1024 ^ 9 <= float_overflow_bound) by (vm_compute; discriminate).
  lia.
Qed.

Lemma size_limit_below : size_limit < 1024 ^ 9.
Proof. vm_compute. reflexivity. Qed.

Lemma readable_size_returns sbytes :
  sbytes < size_limit -> exists size, readable_size sbytes = Returns size.
Proof.
  intros Hlt. unfold readable_size. pose proof size_limit_below.
  destruct (decide (sbytes <= 0)) as [|Hpos]; [by eexists|].
  assert (Hi : unit_index sbytes <= 8) by (apply unit_index_small; lia).
  pose proof (unit_index_nonneg sbytes) as Hi0.
  destruct (decide (103 <= unit_index sbytes)); [lia|].
  destruct (decide (float_overflow_bound <= sbytes)) as [Hov|_].
  { apply below_float_overflow in Hov; [done|lia]. }
  destruct (units_lookup_small (unit_index sbytes)) as [u ->]; [lia|].
  by eexists.
Qed.

Lemma readable_size_raises sbytes :
  size_limit <= sbytes -> exists e, readable_size sbytes = Raises e.
Proof.
  intros Hle. unfold readable_size.
  assert (0 < size_limit) by (vm_compute; reflexivity).
  destruct (decide (sbytes <= 0)); [lia|].
  destruct (decide (103 <= unit_index sbytes)); [by eexists|].
  destruct (decide (float_overflow_bound <= sbytes)); [by eexists|].
  rewrite units_lookup_large by by apply unit_index_large.
  by eexists.
Qed.

Lemma readable_size_returned sbytes :
  returned (readable_size sbytes) = true <-> sbytes < size_limit.
Proof.
  split.
  - intros Hr. destruct (decide (sbytes < size_limit)) as [|Hge]; [done|].
    destruct (readable_size_raises sbytes) as [e He]; [lia|].
    by rewrite He in Hr.
  - intros Hlt. destruct (readable_size_returns _ Hlt) as [size ->]. done.
Qed.

End ReadableSizeFacts.

(** C7, as the specification states it, fails at 1024: the quotient is a
    float and Python prints a whole float with one zero after the point. *)
Lemma readable_size_1024_not_trimmed : readable_size 1024 <> Returns "1 KiB".
Proof. vm_compute. discriminate. Qed.

(** C7, amended: [readable_size] maps 0 to ["0 B"], 1024 to ["1.0 KiB"]
    (the quotient rounded to three decimals and printed as a float), 1536 to
    ["1.5 KiB"], and every zero or negative input to ["0 B"]; it raises
    nothing there. *)
Theorem readable_size_examples :
  readable_size 0 = Returns "0 B" /\
  readable_size 1024 = Returns "1.0 KiB" /\
  readable_size 1536 = Returns "1.5 KiB" /\
  forall sbytes, sbytes <= 0 -> readable_size sbytes = Returns "0 B".
Proof.
  split; [done|]. split; [by vm_compute|]. split; [by vm_compute|].
  intros sbytes Hle. unfold readable_size. by rewrite decide_True.
Qed.

Lemma readable_size_examples_witness :
  -7 <= 0 /\ readable_size (-7) = Returns "0 B".
Proof.
  split; [lia|].
  apply (proj2 (proj2 (proj2 readable_size_examples)) (-7)). lia.
Defined.

(** C9, as the specification states it, fails twice.  Above [1024^10] the
    index computed is not 9: it is 10 at [2^101].  And below [1024^9] the
    index is not always within the tuple: the logarithm is computed in
    doubles, and at [1024^9 - 1] the quotient of the two logarithms is 9.0
    already, so that [units[9]] raises. *)
Lemma unit_index_not_always_9 :
  (1024 ^ 9 <= 2 ^ 101 /\ unit_index (2 ^ 101) = 10 /\
   unit_index (2 ^ 101) <> 9) /\
  (0 < 1024 ^ 9 - 1 < 1024 ^ 9 /\ unit_index (1024 ^ 9 - 1) = 9 /\
   units !! Z.to_nat (unit_index (1024 ^ 9 - 1)) = None /\
   readable_size (1024 ^ 9 - 1)
     = Raises (Exn "IndexError" "tuple index out of range")).
Proof. repeat split; by vm_compute. Qed.

(** C9, amended: the units tuple has nine entries.  For every
    [sbytes >= 1024^9] the computed unit index is at least 9, so [units[i]]
    is out of bounds and [readable_size] raises.  It raises from
    [1024^9 - 113 * 2^36] on already, where the double logarithm has
    reached 9, and it returns for every input below that: there, for
    [0 < sbytes], the index is within the tuple. *)
Theorem readable_size_index_bounds (sbytes : Z) :
  length units = 9%nat /\
  (1024 ^ 9 <= sbytes ->
     9 <= unit_index sbytes /\
     units !! Z.to_nat (unit_index sbytes) = None /\
     exists e, readable_size sbytes = Raises e) /\
  (1024 ^ 9 - 113 * 2 ^ 36 <= sbytes ->
     9 <= unit_index sbytes /\ exists e, readable_size sbytes = Raises e) /\
  (0 < sbytes < 1024 ^ 9 - 113 * 2 ^ 36 ->
     0 <= unit_index sbytes <= 8 /\
     is_Some (units !! Z.to_nat (unit_index sbytes)) /\
     exists size, readable_size sbytes = Returns size).
Proof.
  pose proof size_limit_below as Hlim.
  split; [done|]. split; [|split].
  - intros Hle. assert (Hl : size_limit <= sbytes) by lia.
    pose proof (unit_index_large _ Hl).
    split; [done|]. split; [by apply units_lookup_large|].
    by apply readable_size_raises.
  - intros Hle. split; [by apply unit_index_large|by apply readable_size_raises].
  - intros Hr. pose proof (unit_index_small _ Hr).
    pose proof (unit_index_nonneg sbytes).
    split; [lia|]. split; [apply units_lookup_small; lia|].
    apply readable_size_returns. unfold size_limit. lia.
Qed.

Lemma readable_size_index_bounds_witness :
  (1024 ^ 9 <= 1024 ^ 9 /\ exists e, readable_size (1024 ^ 9) = Raises e) /\
  (1024 ^ 9 - 113 * 2 ^ 36 <= 1024 ^ 9 - 1 /\
   exists e, readable_size (1024 ^ 9 - 1) = Raises e) /\
  (0 < 1024 ^ 8 < 1024 ^ 9 - 113 * 2 ^ 36 /\
   exists size, readable_size (1024 ^ 8) = Returns size).
Proof.
  split; [|split].
  - split; [lia|].
    apply (proj1 (proj2 (readable_size_index_bounds (1024 ^ 9)))). lia.
  - assert (H : 1024 ^ 9 - 113 * 2 ^ 36 <= 1024 ^ 9 - 1)
      by (vm_compute; discriminate).
    split; [exact H|].
    apply (proj1 (proj2 (proj2 (readable_size_index_bounds (1024 ^ 9 - 1)))) H).
  - assert (H : 0 < 1024 ^ 8 < 1024 ^ 9 - 113 * 2 ^ 36)
      by (vm_compute; split; reflexivity).
    split; [exact H|].
    apply (proj2 (proj2 (proj2 (readable_size_index_bounds (1024 ^ 8)))) H).
Defined.

(** ** Identity resolution *)

Section NameFacts.

Variable w : World.

Lemma bind_run {A B} (m : M A) (f : A -> M B) s :
  (m ≫= f) s =
    match m s with
    | (Returns a, s') => f a s'
    | (Raises e, s') => (Raises e, s')
    end.
Proof. reflexivity. Qed.

Lemma _name_run uid uid_type s :
  uid_type = "user" \/ uid_type = "group" ->
  _name w uid uid_type s =
    (Returns (resolved w uid_type uid), log_query (database_of uid_type) uid s).
Proof.
  intros [-> | ->]; unfold _name, resolved, account_lookup, database_of;
    rewrite bind_run; unfold try_except_class; simpl;
    rewrite bind_run; unfold getpwuid, getgrgid.
  - by destruct (w_getpwuid w uid).
  - by destruct (w_getgrgid w uid).
Qed.

Lemma name_cached uid uid_type users v s :
  users !! uid = Some v ->
  name w uid uid_type users s = (Returns (v, users), s).
Proof. intros Hv. unfold name. by rewrite Hv. Qed.

Lemma name_fresh uid uid_type users s :
  uid_type = "user" \/ uid_type = "group" ->
  users !! uid = None ->
  name w uid uid_type users s =
    (Returns (resolved w uid_type uid, <[uid := resolved w uid_type uid]> users),
     log_query (database_of uid_type) uid s).
Proof.
  intros Hty Hnone. unfold name. rewrite Hnone, bind_run.
  by rewrite _name_run.
Qed.

(** [name] with one of the two types [file_stats] passes returns, and
    touches neither output stream nor the log of digests. *)
Lemma name_returns uid uid_type users s :
  uid_type = "user" \/ uid_type = "group" ->
  exists v users' s',
    name w uid uid_type users s = (Returns (v, users'), s') /\
    stdout s' = stdout s /\ stderr s' = stderr s /\ hashed s' = hashed s.
Proof.
  intros Hty. destruct (users !! uid) as [v|] eqn:Hu.
  - exists v, users, s. by rewrite (name_cached _ _ _ v).
  - eexists _, _, _. by rewrite name_fresh.
Qed.

End NameFacts.

(** C5, as the specification states it, fails: the stand-in that [name]
    returns and caches for an unknown id is the integer, not a string. *)
Lemma name_unknown_id_not_stringified :
  w_getpwuid Demo.tree 99999 = None /\
  (name Demo.tree 99999 "user" ∅ initial).1
    = Returns (PyInt 99999, {[ 99999 := PyInt 99999 ]}) /\
  forall users, (name Demo.tree 99999 "user" ∅ initial).1
                  <> Returns (PyStr "99999", users).
Proof.
  split; [done|].
  assert (H : (name Demo.tree 99999 "user" ∅ initial).1
              = Returns (PyInt 99999, {[ 99999 := PyInt 99999 ]})).
  { by rewrite name_fresh by auto. }
  split; [done|]. intros users. rewrite H. discriminate.
Qed.

(** C5, amended: for every id that the account database does not know and
    that is not cached yet, identity resolution returns the id itself,
    unconverted (an integer, whose [str] is the stringified id), after one
    database query; it caches that stand-in under the id exactly as it
    caches a resolved name, so a second resolution of the same id returns
    the same value and queries no database: the state is left as it was. *)
Theorem name_fallback_cached (w : World) (uid : Z) (uid_type : string)
    (users : gmap Z pyval) (s : State) :
  uid_type = "user" \/ uid_type = "group" ->
  users !! uid = None ->
  exists v users' s',
    name w uid uid_type users s = (Returns (v, users'), s') /\
    v = resolved w uid_type uid /\
    (account_lookup w uid_type uid = None ->
       v = PyInt uid /\ py_str v = pretty uid) /\
    users' = <[uid := v]> users /\
    queried s' = queried s ++ [(database_of uid_type, uid)] /\
    forall uid_type' s2,
      name w uid uid_type' users' s2 = (Returns (v, users'), s2).
Proof.
  intros Hty Hnone. eexists _, _, _.
  split; [by apply name_fresh|]. split; [done|]. split.
  { intros Hl. unfold resolved. by rewrite Hl. }
  split; [done|]. split; [done|].
  intros uid_type' s2. apply name_cached. by rewrite lookup_insert_eq.
Qed.

Lemma name_fallback_cached_witness :
  exists v users' s',
    name Demo.tree 99999 "user" ∅ initial = (Returns (v, users'), s') /\
    v = PyInt 99999 /\
    queried s' = [("passwd", 99999)] /\
    name Demo.tree 99999 "user" users' s' = (Returns (v, users'), s').
Proof.
  destruct (name_fallback_cached Demo.tree 99999 "user" ∅ initial)
    as (v & users' & s' & Hrun & Hv & _ & _ & Hq & Hagain).
  - left. reflexivity.
  - apply lookup_empty.
  - exists v, users', s'.
    split; [exact Hrun|]. split; [exact Hv|]. split; [exact Hq|].
    apply Hagain.
Defined.

(** ** [file_stats] *)

Section FileStatsFacts.

Variable w : World.

Lemma named_resolved uid uid_type :
  uid_type = "user" \/ uid_type = "group" ->
  named w uid (resolved w uid_type uid).
Proof. intros [-> | ->]; [by left|by right]. Qed.

Lemma cache_named_empty : cache_named w ∅.
Proof. intros id v Hl. by rewrite lookup_empty in Hl. Qed.

Lemma name_named uid uid_type users s v users' s' :
  uid_type = "user" \/ uid_type = "group" ->
  cache_named w users ->
  name w uid uid_type users s = (Returns (v, users'), s') ->
  named w uid v /\ cache_named w users'.
Proof.
  intros Hty Hc Hrun. destruct (users !! uid) as [v0|] eqn:Hl.
  - rewrite (name_cached _ _ _ _ v0) in Hrun by done.
    injection Hrun as <- <- <-. split; [by eapply Hc|done].
  - rewrite name_fresh in Hrun by done. injection Hrun as <- <- <-.
    split; [by apply named_resolved|].
    intros id v. destruct (decide (id = uid)) as [->|Hne].
    + rewrite lookup_insert_eq. intros [= <-]. by apply named_resolved.
    + rewrite lookup_insert_ne by done. apply Hc.
Qed.

Lemma name_run uid uid_type users s :
  uid_type = "user" \/ uid_type = "group" ->
  exists s',
    name w uid uid_type users s
      = (Returns (cached_name w uid_type uid users,
                  <[uid := cached_name w uid_type uid users]> users), s') /\
    stdout s' = stdout s /\ stderr s' = stderr s /\ hashed s' = hashed s.
Proof.
  intros Hty. unfold cached_name. destruct (users !! uid) as [v|] eqn:Hl.
  - exists s. rewrite (name_cached _ _ _ _ v) by done. simpl.
    by rewrite insert_id.
  - eexists. rewrite name_fresh by done. done.
Qed.

Lemma file_stats_fails file users s e :
  w_stat w file = Raises e ->
  exists s',
    file_stats w file users s = (Returns ([], users), s') /\
    stdout s' = stdout s /\ stderr s' = stderr s ++ [warning file e] /\
    hashed s' = hashed s /\ queried s' = queried s.
Proof.
  intros Hst. unfold file_stats. rewrite bind_run.
  unfold try_except. rewrite bind_run. unfold os_stat, lift. rewrite Hst.
  eexists. split; [reflexivity|]. done.
Qed.

(** When [os.stat] returns, the two names are resolved, in that order;
    then the date and the size are rendered, or the exception of the
    first of them that raises escapes. *)
Lemma file_stats_stat file users s st :
  w_stat w file = Returns st ->
  exists owner group users1 users2 s1 s2,
    name w (st_uid st) "user" users s = (Returns (owner, users1), s1) /\
    name w (st_gid st) "group" users1 s1 = (Returns (group, users2), s2) /\
    file_stats w file users s
      = (match render w st with
         | Returns (mdate, hsize) =>
             Returns (py_str <$> info_fields w st owner group hsize mdate,
                      users2)
         | Raises e => Raises e
         end, s2) /\
    stdout s2 = stdout s /\ stderr s2 = stderr s /\ hashed s2 = hashed s.
Proof.
  intros Hst.
  destruct (name_returns w (st_uid st) "user" users s)
    as (owner & users1 & s1 & Hown & Ho1 & He1 & Hh1); [by left|].
  destruct (name_returns w (st_gid st) "group" users1 s1)
    as (group & users2 & s2 & Hgrp & Ho2 & He2 & Hh2); [by right|].
  exists owner, group, users1, users2, s1, s2.
  split; [done|]. split; [done|]. split.
  - unfold file_stats. rewrite bind_run.
    unfold try_except. rewrite bind_run. unfold os_stat, lift at 1.
    rewrite Hst. simpl. rewrite bind_run, Hown. simpl.
    rewrite bind_run, Hgrp. simpl.
    rewrite bind_run. unfold lift at 1. unfold render.
    destruct (w_mdate w (st_mtime st)) as [mdate|e]; [|done].
    rewrite bind_run. unfold lift.
    by destruct (readable_size (st_size st)).
  - split; [congruence|]. split; congruence.
Qed.

Lemma render_returned st :
  returned (render w st) = true <->
  returned (w_mdate w (st_mtime st)) = true /\ st_size st < size_limit.
Proof.
  rewrite <- readable_size_returned. unfold render.
  destruct (w_mdate w (st_mtime st)); [|by intuition].
  destruct (readable_size (st_size st)); by intuition.
Qed.

(** When the group id is numerically the owner id and that id is not
    cached yet, the group column repeats the owner column and the group
    database is never asked. *)
Lemma file_stats_group_is_owner file users s st mdate hsize :
  w_stat w file = Returns st ->
  render w st = Returns (mdate, hsize) ->
  st_gid st = st_uid st ->
  users !! st_uid st = None ->
  exists users' s',
    file_stats w file users s
      = (Returns (py_str <$> info_fields w st (resolved w "user" (st_uid st))
                               (resolved w "user" (st_uid st)) hsize mdate,
                  users'), s') /\
    queried s' = queried s ++ [("passwd", st_uid st)].
Proof.
  intros Hst Hren Hgid Hfresh.
  destruct (file_stats_stat file users s st)
    as (owner & group & users1 & users2 & s1 & s2 & Hown & Hgrp & Hrun & _);
    [done|].
  rewrite Hren in Hrun.
  rewrite name_fresh in Hown by auto. injection Hown as <- <- <-.
  rewrite Hgid in Hgrp.
  rewrite (name_cached _ _ _ _ (resolved w "user" (st_uid st))) in Hgrp
    by by rewrite lookup_insert_eq.
  injection Hgrp as <- <- <-.
  eexists _, _. split; [exact Hrun|]. done.
Qed.

End FileStatsFacts.

(** C6 does not hold of the code: [file_stats] passes the one dictionary
    [users] to both resolutions and [name] keys it by the bare id.  Here
    [/d/a] belongs to uid 0 ([root]) and gid 0 ([wheel]): the group column
    reads [root], taken from the owner's cache entry, and the group database
    is not queried. *)
Theorem file_stats_group_collision :
  w_stat Demo.tree "/d/a" = Returns (Demo.st 11 0 0 100000) /\
  w_getpwuid Demo.tree 0 = Some "root" /\
  w_getgrgid Demo.tree 0 = Some "wheel" /\
  file_stats Demo.tree "/d/a" ∅ initial
    = (Returns (["11"; "-rw-r--r--"; "root"; "root"; "100000"; "97.656 KiB";
                 "1970-01-01-00:00"], {[ 0 := PyStr "root" ]}),
       mkState [] [] [] [("passwd", 0)]).
Proof.
  split; [done|]. split; [done|]. split; [done|].
  by vm_compute.
Qed.

(** C10, as the specification states it, fails: there is a third outcome.
    [os.stat] succeeds on [/t/far], but its modification time is in the
    year 10000 and [fromtimestamp], which is called outside the [try],
    raises: [file_stats] returns neither the empty list nor seven strings,
    it raises.  So it does on [/h/big], whose size [readable_size] cannot
    render. *)
Lemma file_stats_raises_after_stat :
  returned (w_stat Samples.dated "/t/far") = true /\
  file_stats Samples.dated "/t/far" ∅ initial
    = (Raises (Exn "ValueError" "year 10000 is out of range"),
       mkState [] [] [] [("passwd", 1000); ("group", 50)]) /\
  returned (w_stat Samples.huge "/h/big") = true /\
  (file_stats Samples.huge "/h/big" ∅ initial).1
    = Raises (Exn "IndexError" "tuple index out of range").
Proof. repeat split; by vm_compute. Qed.

(** C10, amended: [file_stats] returns the empty list exactly when the
    [os.stat] probe fails.  When the probe succeeds it returns exactly
    seven elements, each the [str] of a field, the raw byte size included,
    provided the modification time can be formatted as a date and the size
    is below [1024^9 - 113 * 2^36]; otherwise the exception of
    [fromtimestamp] or of [readable_size] escapes. *)
Theorem file_stats_empty_iff_stat_fails (w : World) (file : string)
    (users : gmap Z pyval) (s : State) :
  exists r s',
    file_stats w file users s = (r, s') /\
    (forall e, w_stat w file = Raises e -> r = Returns ([], users)) /\
    (forall st, w_stat w file = Returns st ->
       (returned r = true <->
        returned (w_mdate w (st_mtime st)) = true /\
        st_size st < 1024 ^ 9 - 113 * 2 ^ 36) /\
       let owner := cached_name w "user" (st_uid st) users in
       let users1 := <[st_uid st := owner]> users in
       let group := cached_name w "group" (st_gid st) users1 in
       match render w st with
       | Returns (mdate, hsize) =>
           r = Returns ([pretty (st_ino st); w_filemode w (st_mode st);
                         py_str owner; py_str group; pretty (st_size st);
                         hsize; mdate], <[st_gid st := group]> users1)
       | Raises e => r = Raises e
       end) /\
    (forall info users', r = Returns (info, users') ->
       (info = [] <-> exists e, w_stat w file = Raises e) /\
       (info = [] \/ length info = 7%nat)).
Proof.
  destruct (w_stat w file) as [st|e] eqn:Hst.
  - destruct (file_stats_stat w file users s st Hst)
      as (owner & group & users1 & users2 & s1 & s2 & Hown & Hgrp & Hrun & _).
    destruct (name_run w (st_uid st) "user" users s) as (? & Hown' & _);
      [by left|].
    rewrite Hown' in Hown. injection Hown as <- <- <-.
    destruct (name_run w (st_gid st) "group"
                (<[st_uid st := cached_name w "user" (st_uid st) users]> users)
                x) as (? & Hgrp' & _); [by right|].
    rewrite Hgrp' in Hgrp. injection Hgrp as <- <- <-.
    eexists _, _. split; [exact Hrun|]. split; [discriminate|]. split.
    + intros st' [= <-]. split.
      * rewrite <- (render_returned w st : _ <-> _ /\ _ < size_limit).
        by destruct (render w st) as [[mdate hsize]|e].
      * by destruct (render w st) as [[mdate hsize]|e].
    + intros info users'.
      destruct (render w st) as [[mdate hsize]|e]; [|discriminate].
      intros [= <- <-]. split; [|by right].
      split; [discriminate|]. intros [e He]. discriminate.
  - destruct (file_stats_fails w file users s e Hst) as (s' & Hrun & _).
    eexists _, s'. split; [exact Hrun|]. split.
    { intros e' _. done. }
    split; [discriminate|].
    intros info users' [= <- <-]. split; [|by left]. split; [by exists e|done].
Qed.

Lemma file_stats_empty_iff_stat_fails_witness :
  (file_stats Demo.tree "/d/e" ∅ initial).1
    = Returns (["15"; "-rw-r--r--"; "4242"; "staff"; "1536"; "1.5 KiB";
                "1970-01-01-00:00"],
               {[ 4242 := PyInt 4242; 50 := PyStr "staff" ]}) /\
  (file_stats Demo.vanishing "/v/a" ∅ initial).1 = Returns ([], ∅).
Proof.
  split.
  - destruct (file_stats_empty_iff_stat_fails Demo.tree "/d/e" ∅ initial)
      as (r & s' & Hrun & _ & Hst & _).
    rewrite Hrun. simpl.
    destruct (Hst (Demo.st 15 4242 50 1536) eq_refl) as [_ Hr].
    vm_compute in Hr. rewrite Hr. vm_compute. reflexivity.
  - destruct (file_stats_empty_iff_stat_fails Demo.vanishing "/v/a" ∅ initial)
      as (r & s' & Hrun & Hfail & _).
    rewrite Hrun. simpl. exact (Hfail _ eq_refl).
Defined.

(** ** The loops of [_ls], one by one *)

Section RunFacts.

Variable w : World.

Lemma extends_refl s : extends s s [] [] [].
Proof. unfold extends. by rewrite !app_nil_r. Qed.

Lemma extends_trans s1 s2 s3 o1 e1 h1 o2 e2 h2 :
  extends s1 s2 o1 e1 h1 -> extends s2 s3 o2 e2 h2 ->
  extends s1 s3 (o1 ++ o2) (e1 ++ e2) (h1 ++ h2).
Proof.
  intros (Ho1 & He1 & Hh1) (Ho2 & He2 & Hh2). unfold extends.
  rewrite Ho2, He2, Hh2, Ho1, He1, Hh1. by rewrite !app_assoc.
Qed.

Lemma group_cons_some {K} `{EqDecision K} (key : string -> option K)
    file rest d k :
  key file = Some k ->
  group key (file :: rest) d = group key rest (bucket_append k file d).
Proof. intros Hk. simpl. by rewrite Hk. Qed.

Lemma group_cons_none {K} `{EqDecision K} (key : string -> option K)
    file rest d :
  key file = None -> group key (file :: rest) d = group key rest d.
Proof. intros Hk. simpl. by rewrite Hk. Qed.

Lemma failures_cons_returns {A} (probe : string -> outcome A) file rest a :
  probe file = Returns a -> failures probe (file :: rest) = failures probe rest.
Proof. intros Hp. unfold failures. simpl. by rewrite Hp. Qed.

Lemma failures_cons_raises {A} (probe : string -> outcome A) file rest e :
  probe file = Raises e ->
  failures probe (file :: rest) = warning file e :: failures probe rest.
Proof. intros Hp. unfold failures. simpl. by rewrite Hp. Qed.

Lemma extends_err s line :
  extends s (err line s).2 [] [line] [].
Proof. unfold extends. simpl. by rewrite !app_nil_r. Qed.

Lemma extends_log_hash s file first_block_only :
  extends s (log_hash file first_block_only s) [] [] [(file, first_block_only)].
Proof. unfold extends. simpl. by rewrite !app_nil_r. Qed.

Lemma extends_step s1 s2 s3 o1 e1 h1 o2 e2 h2 o e h :
  extends s1 s2 o1 e1 h1 -> extends s2 s3 o2 e2 h2 ->
  o = o1 ++ o2 -> e = e1 ++ e2 -> h = h1 ++ h2 ->
  extends s1 s3 o e h.
Proof. intros H1 H2 -> -> ->. by eapply extends_trans. Qed.

Lemma ls_sizes_run files : forall sizes s,
  exists s',
    ls_sizes w files sizes s = (Returns (group (size_key w) files sizes), s') /\
    extends s s' [] (failures (w_getsize w) files) [].
Proof.
  induction files as [|file rest IH]; intros sizes s.
  { exists s. split; [done|apply extends_refl]. }
  cbn [ls_sizes]. rewrite bind_run. unfold try_except. rewrite bind_run.
  unfold os_path_getsize, lift.
  destruct (w_getsize w file) as [filesize|e] eqn:Hsize.
  - rewrite (group_cons_some _ _ _ _ filesize) by (unfold size_key; by rewrite Hsize).
    rewrite (failures_cons_returns _ _ _ filesize) by done.
    simpl. destruct (IH (bucket_append filesize file sizes) s) as (s' & -> & Hext).
    by exists s'.
  - rewrite group_cons_none by (unfold size_key; by rewrite Hsize).
    rewrite (failures_cons_raises _ _ _ e) by done.
    rewrite bind_run. simpl.
    destruct (IH sizes (err (warning file e) s).2) as (s' & Hrun & Hext).
    exists s'. split; [exact Hrun|].
    eapply extends_step; [apply extends_err|exact Hext|done..].
Qed.

Lemma hash_files_run first_block_only size files : forall hashes s,
  exists s',
    hash_files w first_block_only size files hashes s
      = (Returns (group (hash_key w first_block_only size) files hashes), s') /\
    extends s s' []
      (failures (fun file => w_md5sum w file first_block_only) files)
      ((fun file => (file, first_block_only)) <$> files).
Proof.
  induction files as [|file rest IH]; intros hashes s.
  { exists s. split; [done|apply extends_refl]. }
  cbn [hash_files]. rewrite bind_run. unfold try_except. rewrite bind_run.
  unfold md5sum. rewrite fmap_cons.
  destruct (w_md5sum w file first_block_only) as [hash|e] eqn:Hhash.
  - rewrite (group_cons_some _ _ _ _ (hash, size))
      by (unfold hash_key; by rewrite Hhash).
    rewrite (failures_cons_returns _ _ _ hash) by done.
    simpl.
    destruct (IH (bucket_append (hash, size) file hashes)
                (log_hash file first_block_only s)) as (s' & Hrun & Hext).
    exists s'. split; [exact Hrun|].
    eapply extends_step; [apply extends_log_hash|exact Hext|done..].
  - rewrite group_cons_none by (unfold hash_key; by rewrite Hhash).
    rewrite (failures_cons_raises _ _ _ e) by done.
    rewrite bind_run. simpl.
    destruct (IH hashes (err (warning file e) (log_hash file first_block_only s)).2)
      as (s' & Hrun & Hext).
    exists s'. split; [exact Hrun|].
    eapply extends_step; [apply extends_log_hash| |done..].
    eapply extends_step; [apply extends_err|exact Hext|done..].
Qed.

Lemma singletons_cons {K} (k : K) files (rest : buckets K) :
  singletons ((k, files) :: rest)
    = if decide (length files < 2)%nat then files :: singletons rest
      else singletons rest.
Proof.
  unfold singletons. rewrite filter_cons. simpl.
  by destruct (decide (length files < 2)%nat).
Qed.

Lemma candidates_cons {K} (k : K) files (rest : buckets K) :
  candidates ((k, files) :: rest)
    = if decide (length files < 2)%nat then candidates rest
      else files :: candidates rest.
Proof.
  unfold candidates. rewrite filter_cons. simpl.
  destruct (decide (length files < 2)%nat).
  - by rewrite decide_False by tauto.
  - by rewrite decide_True by done.
Qed.

Lemma Forall2_filter_cons_app {A B} (R : A -> B -> Prop) (P : A -> Prop)
    `{forall x, Decision (P x)} x l out1 out2 :
  Forall2 R (filter P [x]) out1 -> Forall2 R (filter P l) out2 ->
  Forall2 R (filter P (x :: l)) (out1 ++ out2).
Proof.
  intros H1 H2. change (x :: l) with ([x] ++ l).
  rewrite filter_app. by apply Forall2_app.
Qed.

(** *** The record of a bucket *)

Lemma string_append_assoc (a b c : string) : (a +:+ b) +:+ c = a +:+ b +:+ c.
Proof.
  induction a as [|ch a IH]; [done|].
  change (String ch ((a +:+ b) +:+ c) = String ch (a +:+ b +:+ c)).
  by f_equal.
Qed.

Lemma foldl_pipe x rest y :
  foldl (fun acc z => acc +:+ "|" +:+ z) (x +:+ y) rest
    = x +:+ foldl (fun acc z => acc +:+ "|" +:+ z) y rest.
Proof.
  revert y. induction rest as [|z rest IH]; intros y; simpl; [done|].
  by rewrite <- IH, string_append_assoc.
Qed.

Lemma join_piped l : join "|" l = piped l.
Proof.
  induction l as [|x [|y rest] IH]; [done|done|].
  change (join "|" (x :: y :: rest)) with (x +:+ "|" +:+ join "|" (y :: rest)).
  rewrite IH. unfold piped. cbn [foldl].
  by rewrite (foldl_pipe x rest ("|" +:+ y)), (foldl_pipe "|" rest y).
Qed.

(** *** How far a loop came *)

Lemma warned_nil errs : warned w [] errs.
Proof. intros file b e Hin. by apply elem_of_nil in Hin. Qed.

Lemma warned_app hs1 errs1 hs2 errs2 :
  warned w hs1 errs1 -> warned w hs2 errs2 ->
  warned w (hs1 ++ hs2) (errs1 ++ errs2).
Proof.
  intros H1 H2 file b e Hin He. rewrite elem_of_app.
  apply elem_of_app in Hin as [Hin|Hin]; [left|right]; eauto.
Qed.

Lemma cut_short_app_l {A} (r : outcome A) b1 e1 h1 bks all errs eall hs hall :
  cut_short w r bks all errs eall hs hall ->
  cut_short w r (b1 ++ bks) (b1 ++ all) (e1 ++ errs) (e1 ++ eall)
    (h1 ++ hs) (h1 ++ hall).
Proof.
  destruct r as [a|e]; simpl.
  - by intros (-> & -> & ->).
  - intros (He & Hh & file & others & st & Hb & Hst & Hren).
    split; [by apply prefix_app|]. split; [by apply prefix_app|].
    exists file, others, st. split; [|done].
    rewrite <- app_assoc. by apply prefix_app.
Qed.

Lemma cut_short_app_r {A B} (r : outcome A) e bks all errs eall hs hall
    b2 e2 h2 :
  r = Raises e ->
  cut_short w r bks all errs eall hs hall ->
  cut_short w (Raises e : outcome B) bks (all ++ b2) errs (eall ++ e2)
    hs (hall ++ h2).
Proof.
  intros ->. simpl.
  intros (He & Hh & file & others & st & Hb & Hst & Hren).
  split; [by apply prefix_app_r|]. split; [by apply prefix_app_r|].
  exists file, others, st. split; [by apply prefix_app_r|done].
Qed.

Lemma cut_short_prefix {A} (r : outcome A) bks all errs eall hs hall :
  cut_short w r bks all errs eall hs hall ->
  bks `prefix_of` all /\ errs `prefix_of` eall /\ hs `prefix_of` hall.
Proof.
  destruct r as [a|e]; simpl.
  - by intros (-> & -> & ->).
  - intros (He & Hh & file & others & st & Hb & _).
    split; [by eapply prefix_app_l|done].
Qed.

(** *** The loops that report *)

Lemma report_run file others users s :
  cache_named w users ->
  exists r s' out,
    report w file (join "|" others) users s = (r, s') /\
    extends s s' out (stat_failure w (file :: others)) [] /\
    match r with
    | Returns users' =>
        cache_named w users' /\
        Forall2 (renders w) (filter (readable w) [file :: others]) out
    | Raises e =>
        out = [] /\
        exists st, w_stat w file = Returns st /\ render w st = Raises e
    end.
Proof.
  intros Hc. unfold report. rewrite bind_run.
  unfold stat_failure, failures. simpl.
  rewrite filter_cons, filter_nil. simpl.
  destruct (w_stat w file) as [st|e] eqn:Hst.
  - destruct (file_stats_stat w file users s st)
      as (owner & group & users1 & users2 & s1 & s2 & Hown & Hgrp & -> & Ho & He & Hh);
      [done|].
    destruct (name_named w _ _ _ _ _ _ _ ltac:(by left) Hc Hown) as [Hno Hc1].
    destruct (name_named w _ _ _ _ _ _ _ ltac:(by right) Hc1 Hgrp) as [Hng Hc2].
    destruct (render w st) as [[mdate hsize]|e] eqn:Hren.
    + simpl. rewrite bind_run. simpl.
      eexists _, _, [_]. split; [reflexivity|]. split.
      * unfold extends. simpl. by rewrite Ho, He, Hh, !app_nil_r.
      * split; [done|]. constructor; [|done].
        unfold render in Hren.
        destruct (w_mdate w (st_mtime st)) as [mdate'|] eqn:Hmd; [|done].
        destruct (readable_size (st_size st)) as [hsize'|] eqn:Hsz; [|done].
        injection Hren as -> ->.
        simpl. exists st, owner, group, hsize, mdate.
        repeat (split; [done|]). by rewrite join_piped.
    + eexists _, _, []. split; [reflexivity|]. split.
      * unfold extends. by rewrite Ho, He, Hh, !app_nil_r.
      * split; [done|]. by exists st.
  - destruct (file_stats_fails w file users s e Hst) as (s' & -> & Ho & He & Hh & _).
    simpl. eexists _, _, []. split; [reflexivity|]. split.
    + unfold extends. by rewrite Ho, He, Hh, !app_nil_r.
    + done.
Qed.

Lemma readable_returns file others st :
  w_stat w file = Returns st -> readable w (file :: others).
Proof. intros Hst. simpl. by rewrite Hst. Qed.

Lemma ls_stage_run {K} first_block_only (size_of : K -> Z) items :
  Forall (fun item : K * list string => item.2 <> []) items ->
  forall users hashes s,
  cache_named w users ->
  exists r s' out errs hs bks,
    ls_stage w first_block_only size_of items users hashes s = (r, s') /\
    extends s s' out errs hs /\
    Forall2 (renders w) bks out /\
    warned w hs errs /\
    cut_short w r bks (filter (readable w) (singletons items))
      errs (stage_errors w first_block_only items)
      hs (stage_hashed first_block_only items) /\
    match r with
    | Returns (users', hashes') =>
        hashes' = regroup w first_block_only size_of items hashes /\
        cache_named w users'
    | Raises _ => True
    end.
Proof.
  induction 1 as [|[k files] rest Hne _ IH]; intros users hashes s Hc.
  { exists (Returns (users, hashes)), s, [], [], [], [].
    split; [done|]. split; [apply extends_refl|]. split; [done|].
    split; [apply warned_nil|]. done. }
  simpl in Hne. cbn [ls_stage regroup].
  unfold stage_errors, stage_hashed.
  rewrite ?singletons_cons, ?candidates_cons.
  change (((k, files) :: rest) ≫= ?g) with (g (k, files) ++ (rest ≫= g)).
  cbn [snd].
  destruct (decide (length files < 2)%nat) as [Hsmall|Hbig].
  - destruct files as [|file [|]]; [done| |simpl in Hsmall; lia].
    rewrite bind_run.
    destruct (report_run file [] users s Hc)
      as (r1 & s1 & out1 & Hrep & Hext1 & Hr1).
    simpl in Hrep. rewrite Hrep. destruct r1 as [users1|e].
    + destruct Hr1 as [Hc1 Hout1].
      destruct (IH users1 hashes s1 Hc1)
        as (r & s2 & out2 & errs2 & hs2 & bks2 & -> & Hext2 & Hout2 & Hw2 & Hcut & Hr).
      exists r, s2, (out1 ++ out2), (stat_failure w [file] ++ errs2), hs2,
        (filter (readable w) [[file]] ++ bks2).
      split; [done|]. split.
      { eapply extends_step; [exact Hext1|exact Hext2|done..]. }
      split; [by apply Forall2_app|].
      split; [apply (warned_app [] _ hs2 errs2); [apply warned_nil|done]|].
      split; [|done].
      change ([file] :: singletons rest) with ([[file]] ++ singletons rest).
      rewrite filter_app.
      by apply (cut_short_app_l r _ _ []).
    + destruct Hr1 as (-> & st & Hst & Hren).
      exists (Raises e), s1, [], (stat_failure w [file]), [], [].
      split; [done|]. split; [done|]. split; [done|].
      split; [apply warned_nil|]. split; [|done].
      simpl. split; [by apply prefix_app_r|]. split; [apply prefix_nil|].
      exists file, [], st. split; [|done].
      rewrite filter_cons_True by by eapply readable_returns.
      simpl. apply prefix_cons, prefix_nil.
  - rewrite bind_run.
    destruct (hash_files_run first_block_only (size_of k) files hashes s)
      as (s1 & -> & Hext1).
    destruct (IH users (group (hash_key w first_block_only (size_of k)) files hashes) s1 Hc)
      as (r & s2 & out2 & errs2 & hs2 & bks2 & -> & Hext2 & Hout2 & Hw2 & Hcut & Hr).
    exists r, s2, out2,
      (failures (fun file => w_md5sum w file first_block_only) files ++ errs2),
      (((fun file => (file, first_block_only)) <$> files) ++ hs2), bks2.
    split; [done|]. split.
    { eapply extends_step; [exact Hext1|exact Hext2|done..]. }
    split; [done|]. split.
    { apply warned_app; [|done].
      intros file b e (f & [= -> ->] & Hf)%list_elem_of_fmap He.
      unfold failures. apply list_elem_of_bind. exists f.
      split; [|done]. rewrite He. apply list_elem_of_here. }
    split; [|done].
    change (mjoin (files :: candidates rest))
      with (files ++ mjoin (candidates rest)). rewrite fmap_app.
    by apply (cut_short_app_l r []).
Qed.

Lemma ls_mini_stage items : forall users hashes s,
  ls_mini w items users hashes s = ls_stage w true id items users hashes s.
Proof.
  induction items as [|[size files] rest IH]; intros users hashes s; [done|].
  simpl. destruct (decide (length files < 2)%nat).
  - destruct files as [|file ?]; [done|]. rewrite !bind_run.
    destruct (report w file "" users s) as [[users'|e] s']; [apply IH|done].
  - rewrite !bind_run.
    destruct (hash_files w true size files hashes s) as [[hashes'|e] s'];
      [apply IH|done].
Qed.

Lemma ls_full_stage items : forall users hashes s,
  ls_full w items users hashes s = ls_stage w false snd items users hashes s.
Proof.
  induction items as [|[hash_tuple files] rest IH]; intros users hashes s; [done|].
  simpl. destruct (decide (length files < 2)%nat).
  - destruct files as [|file ?]; [done|]. rewrite !bind_run.
    destruct (report w file "" users s) as [[users'|e] s']; [apply IH|done].
  - rewrite !bind_run.
    destruct (hash_files w false hash_tuple.2 files hashes s) as [[hashes'|e] s'];
      [apply IH|done].
Qed.

Lemma ls_dups_run items :
  Forall (fun item : (string * Z) * list string => item.2 <> []) items ->
  forall users s,
  cache_named w users ->
  exists r s' out errs bks,
    ls_dups w items users s = (r, s') /\
    extends s s' out errs [] /\
    Forall2 (renders w) bks out /\
    cut_short w r bks (filter (readable w) items.*2)
      errs (items.*2 ≫= stat_failure w) [] [].
Proof.
  induction 1 as [|[k files] rest Hne _ IH]; intros users s Hc.
  { exists (Returns users), s, [], [], [].
    split; [done|]. split; [apply extends_refl|]. done. }
  simpl in Hne. cbn [ls_dups]. destruct files as [|file others]; [done|].
  rewrite bind_run.
  change ((((k, file :: others) :: rest).*2) ≫= stat_failure w)
    with (stat_failure w (file :: others) ++ (rest.*2 ≫= stat_failure w)).
  change (((k, file :: others) :: rest).*2)
    with ([file :: others] ++ rest.*2).
  rewrite filter_app.
  destruct (report_run file others users s Hc)
    as (r1 & s1 & out1 & -> & Hext1 & Hr1).
  destruct r1 as [users1|e].
  - destruct Hr1 as [Hc1 Hout1].
    destruct (IH users1 s1 Hc1)
      as (r & s2 & out2 & errs2 & bks2 & -> & Hext2 & Hout2 & Hcut).
    exists r, s2, (out1 ++ out2), (stat_failure w (file :: others) ++ errs2),
      (filter (readable w) [file :: others] ++ bks2).
    split; [done|]. split.
    { eapply extends_step; [exact Hext1|exact Hext2|done..]. }
    split; [by apply Forall2_app|].
    by apply (cut_short_app_l r _ _ [] _ _ _ _ [] []).
  - destruct Hr1 as (-> & st & Hst & Hren).
    exists (Raises e), s1, [], (stat_failure w (file :: others)), [].
    split; [done|]. split; [done|]. split; [done|].
    simpl. split; [by apply prefix_app_r|]. split; [done|].
    exists file, others, st. split; [|done].
    rewrite filter_cons_True by by eapply readable_returns.
    simpl. apply prefix_cons, prefix_nil.
Qed.

End RunFacts.

(** ** Bucket tables *)

Section BucketFacts.

Context {K : Type} `{EqDecision K}.
Implicit Types (k : K) (d : buckets K) (file : string).

Lemma bucket_of_append_eq k file d :
  bucket_of k (bucket_append k file d) = bucket_of k d ++ [file].
Proof.
  induction d as [|[k' files] d IH]; simpl.
  - by rewrite decide_True.
  - destruct (decide (k' = k)); simpl.
    + by rewrite decide_True.
    + by rewrite decide_False.
Qed.

Lemma bucket_of_append_ne k k' file d :
  k <> k' -> bucket_of k' (bucket_append k file d) = bucket_of k' d.
Proof.
  intros Hne. induction d as [|[k2 files] d IH]; simpl.
  - by rewrite decide_False.
  - destruct (decide (k2 = k)) as [->|]; simpl.
    + by rewrite !decide_False.
    + by rewrite IH.
Qed.

Lemma bucket_append_keys_old k file d :
  k ∈ d.*1 -> (bucket_append k file d).*1 = d.*1.
Proof.
  induction d as [|[k' files] d IH]; cbn [bucket_append fmap list_fmap fst].
  - intros Hin. by apply elem_of_nil in Hin.
  - intros Hin. destruct (decide (k' = k)) as [->|Hne]; [done|].
    cbn [fmap list_fmap fst]. f_equal. apply IH.
    apply elem_of_cons in Hin as [->|Hin]; done.
Qed.

Lemma bucket_append_keys_new k file d :
  k ∉ d.*1 -> (bucket_append k file d).*1 = d.*1 ++ [k].
Proof.
  induction d as [|[k' files] d IH]; cbn [bucket_append fmap list_fmap fst].
  - done.
  - intros [Hne Hin]%not_elem_of_cons.
    rewrite decide_False by done.
    cbn [fmap list_fmap fst app]. f_equal. by apply IH.
Qed.

Lemma bucket_append_NoDup k file d :
  NoDup d.*1 -> NoDup (bucket_append k file d).*1.
Proof.
  intros Hd. destruct (decide (k ∈ d.*1)).
  - by rewrite bucket_append_keys_old.
  - rewrite bucket_append_keys_new by done.
    apply NoDup_app. split; [done|]. split; [|apply NoDup_singleton].
    intros x Hx ->%list_elem_of_singleton. done.
Qed.

Lemma bucket_append_nonempty k file d :
  Forall (fun item => item.2 <> []) d ->
  Forall (fun item => item.2 <> []) (bucket_append k file d).
Proof.
  induction 1 as [|[k' files] d Hne Hd IH]; simpl.
  - by repeat constructor.
  - destruct (decide (k' = k)); constructor; simpl; try done.
    by destruct files.
Qed.

Lemma bucket_append_perm k file d :
  mjoin (bucket_append k file d).*2 ≡ₚ file :: mjoin d.*2.
Proof.
  induction d as [|[k' files] d IH]; simpl; [done|].
  destruct (decide (k' = k)); simpl.
  - rewrite <- app_assoc. simpl. by rewrite <- Permutation_middle.
  - rewrite IH. by rewrite <- Permutation_middle.
Qed.

Lemma bucket_of_not_key k d : k ∉ d.*1 -> bucket_of k d = [].
Proof.
  induction d as [|[k' files] d IH]; simpl; [done|].
  rewrite not_elem_of_cons. intros [Hne Hk].
  rewrite decide_False by done. by apply IH.
Qed.

Lemma bucket_of_elem k files d :
  NoDup d.*1 -> (k, files) ∈ d -> bucket_of k d = files.
Proof.
  induction d as [|[k' files'] d IH]; simpl.
  - intros _ Hin. by apply elem_of_nil in Hin.
  - intros Hnd Hin. apply NoDup_cons in Hnd as [Hk' Hnd].
    apply elem_of_cons in Hin as [[= <- <-]|Hin].
    + by rewrite decide_True.
    + rewrite decide_False; [by apply IH|].
      intros ->. apply Hk'. apply list_elem_of_fmap. by exists (k, files).
Qed.

Lemma elem_bucket_of k d :
  bucket_of k d <> [] -> (k, bucket_of k d) ∈ d.
Proof.
  induction d as [|[k' files] d IH]; simpl; [done|].
  destruct (decide (k' = k)) as [->|].
  - intros _. apply list_elem_of_here.
  - intros Hne. apply list_elem_of_further. by apply IH.
Qed.

(** *** One grouping pass *)

Variable key : string -> option K.

Lemma bucket_of_group k files : forall d,
  bucket_of k (group key files d)
    = bucket_of k d ++ filter (fun file => key file = Some k) files.
Proof.
  induction files as [|file rest IH]; intros d; simpl.
  { by rewrite app_nil_r. }
  rewrite IH. destruct (key file) as [k'|] eqn:Hkey.
  - destruct (decide (k' = k)) as [->|Hne].
    + rewrite bucket_of_append_eq, filter_cons_True by done.
      by rewrite <- app_assoc.
    + rewrite bucket_of_append_ne, filter_cons_False by congruence. done.
  - by rewrite filter_cons_False by congruence.
Qed.

Lemma group_NoDup files : forall d,
  NoDup d.*1 -> NoDup (group key files d).*1.
Proof.
  induction files as [|file rest IH]; intros d Hd; simpl; [done|].
  apply IH. destruct (key file); [by apply bucket_append_NoDup|done].
Qed.

Lemma group_nonempty files : forall d,
  Forall (fun item => item.2 <> []) d ->
  Forall (fun item => item.2 <> []) (group key files d).
Proof.
  induction files as [|file rest IH]; intros d Hd; simpl; [done|].
  apply IH. destruct (key file); [by apply bucket_append_nonempty|done].
Qed.

Lemma group_perm files : forall d,
  mjoin (group key files d).*2
    ≡ₚ mjoin d.*2 ++ filter (fun file => is_Some (key file)) files.
Proof.
  induction files as [|file rest IH]; intros d; simpl.
  { by rewrite app_nil_r. }
  rewrite IH. destruct (key file) as [k|] eqn:Hkey.
  - rewrite bucket_append_perm, filter_cons_True by (by rewrite Hkey).
    by rewrite <- Permutation_middle.
  - rewrite filter_cons_False; [done|]. rewrite Hkey. by intros [? ?].
Qed.

End BucketFacts.

(** ** The three tables *)

Section TableFacts.

Variable w : World.

Lemma filter_nil_intro {A} (P : A -> Prop) `{forall x, Decision (P x)}
    (l : list A) :
  (forall x, x ∈ l -> ~ P x) -> filter P l = [].
Proof.
  induction l as [|x l IH]; intros Hl; [done|].
  rewrite filter_cons_False by (apply Hl; apply list_elem_of_here).
  apply IH. intros y Hy. apply Hl. by apply list_elem_of_further.
Qed.

Lemma filter_ext_elem {A} (P Q : A -> Prop) `{forall x, Decision (P x)}
    `{forall x, Decision (Q x)} (l : list A) :
  (forall x, x ∈ l -> P x <-> Q x) -> filter P l = filter Q l.
Proof.
  induction l as [|x l IH]; intros Hl; [done|].
  rewrite !filter_cons.
  assert (Hx : P x <-> Q x) by (apply Hl; apply list_elem_of_here).
  rewrite IH by (intros y Hy; apply Hl; by apply list_elem_of_further).
  destruct (decide (P x)), (decide (Q x)); tauto.
Qed.

(** In a table with distinct keys, a sum over the items to which the
    items of one key alone contribute is the contribution of that key. *)
Lemma bind_unique_key {K B} `{EqDecision K}
    (g : K * list string -> list B) (k : K) (d : buckets K) :
  NoDup d.*1 ->
  (forall item, item ∈ d -> item.1 <> k -> g item = []) ->
  g (k, []) = [] ->
  d ≫= g = g (k, bucket_of k d).
Proof.
  intros Hnd Hother Hnil.
  induction d as [|[k' files] d IH]; cbn [bucket_of]; [done|].
  apply NoDup_cons in Hnd as [Hk' Hnd].
  change (((k', files) :: d) ≫= g) with (g (k', files) ++ (d ≫= g)).
  destruct (decide (k' = k)) as [->|Hne].
  - rewrite IH; [|done|].
    + rewrite bucket_of_not_key by done. by rewrite Hnil, app_nil_r.
    + intros item Hin. apply Hother. by apply list_elem_of_further.
  - rewrite (Hother (k', files)); [|apply list_elem_of_here|done].
    apply IH; [done|].
    intros item Hin. apply Hother. by apply list_elem_of_further.
Qed.

Lemma elem_of_singletons {K} (items : buckets K) bucket :
  bucket ∈ singletons items <->
  exists k, (k, bucket) ∈ items /\ (length bucket < 2)%nat.
Proof.
  unfold singletons. rewrite list_elem_of_fmap. split.
  - intros ([k b] & -> & [Hsmall Hin]%list_elem_of_filter). by exists k.
  - intros (k & Hin & Hsmall). exists (k, bucket). split; [done|].
    by apply list_elem_of_filter.
Qed.

Lemma elem_of_candidates {K} (items : buckets K) bucket :
  bucket ∈ candidates items <->
  exists k, (k, bucket) ∈ items /\ ~ (length bucket < 2)%nat.
Proof.
  unfold candidates. rewrite list_elem_of_fmap. split.
  - intros ([k b] & -> & [Hbig Hin]%list_elem_of_filter). by exists k.
  - intros (k & Hin & Hbig). exists (k, bucket). split; [done|].
    by apply list_elem_of_filter.
Qed.

Lemma singletons_candidates_perm {K} (items : buckets K) :
  mjoin (singletons items) ++ mjoin (candidates items) ≡ₚ mjoin items.*2.
Proof.
  induction items as [|[k files] rest IH]; [done|].
  rewrite singletons_cons, candidates_cons.
  destruct (decide (length files < 2)%nat); simpl.
  - by rewrite <- app_assoc, IH.
  - rewrite <- IH. rewrite !app_assoc.
    apply Permutation_app_tail, Permutation_app_comm.
Qed.

(** *** [regroup] *)

Lemma bucket_of_regroup {K} first_block_only (size_of : K -> Z) items :
  forall hashes key,
  bucket_of key (regroup w first_block_only size_of items hashes)
    = bucket_of key hashes ++
        (items ≫= fun item =>
           if decide (length item.2 < 2)%nat then []
           else filter (fun file =>
                  hash_key w first_block_only (size_of item.1) file = Some key)
                  item.2).
Proof.
  induction items as [|[k files] rest IH]; intros hashes key.
  { simpl. by rewrite app_nil_r. }
  cbn [regroup]. rewrite IH.
  match goal with |- _ = _ ++ (?i :: ?r) ≫= ?g =>
    change ((i :: r) ≫= g) with (g i ++ (r ≫= g)) end.
  cbn [fst snd]. destruct (decide (length files < 2)%nat); [done|].
  by rewrite bucket_of_group, <- app_assoc.
Qed.

Lemma regroup_NoDup {K} first_block_only (size_of : K -> Z) items :
  forall hashes,
  NoDup hashes.*1 ->
  NoDup (regroup w first_block_only size_of items hashes).*1.
Proof.
  induction items as [|[k files] rest IH]; intros hashes Hnd; [done|].
  cbn [regroup]. apply IH.
  destruct (decide (length files < 2)%nat); [done|by apply group_NoDup].
Qed.

Lemma regroup_nonempty {K} first_block_only (size_of : K -> Z) items :
  forall hashes,
  Forall (fun item => item.2 <> []) hashes ->
  Forall (fun item => item.2 <> [])
    (regroup w first_block_only size_of items hashes).
Proof.
  induction items as [|[k files] rest IH]; intros hashes Hne; [done|].
  cbn [regroup]. apply IH.
  destruct (decide (length files < 2)%nat); [done|by apply group_nonempty].
Qed.

Lemma regroup_submseteq {K} first_block_only (size_of : K -> Z) items :
  forall hashes,
  mjoin (regroup w first_block_only size_of items hashes).*2
    ⊆+ mjoin hashes.*2 ++ mjoin (candidates items).
Proof.
  induction items as [|[k files] rest IH]; intros hashes.
  { simpl. by rewrite app_nil_r. }
  cbn [regroup]. etrans; [apply IH|]. rewrite candidates_cons.
  destruct (decide (length files < 2)%nat); [done|].
  rewrite group_perm.
  change (mjoin (files :: candidates rest))
    with (files ++ mjoin (candidates rest)).
  rewrite <- !app_assoc. apply submseteq_skips_l.
  apply submseteq_skips_r, sublist_submseteq, sublist_filter.
Qed.

End TableFacts.

(** ** What the tables hold, in terms of the traversal *)

Section PipelineFacts.

Variable w : World.
Variable files : list string.

Lemma size_key_Some file size :
  size_key w file = Some size <-> w_getsize w file = Returns size.
Proof. unfold size_key. destruct (w_getsize w file); intuition congruence. Qed.

Lemma hash_key_Some first_block_only size file hash size' :
  hash_key w first_block_only size file = Some (hash, size') <->
  w_md5sum w file first_block_only = Returns hash /\ size' = size.
Proof.
  unfold hash_key.
  destruct (w_md5sum w file first_block_only); intuition congruence.
Qed.

Lemma elem_of_peers1 file size :
  file ∈ peers1 w files size <->
  file ∈ files /\ w_getsize w file = Returns size.
Proof.
  unfold peers1. rewrite list_elem_of_filter, size_key_Some. tauto.
Qed.

Lemma elem_of_peers2 file size hash :
  file ∈ peers2 w files size hash <->
  file ∈ files /\ w_getsize w file = Returns size /\
  w_md5sum w file true = Returns hash.
Proof.
  unfold peers2. rewrite list_elem_of_filter, hash_key_Some, elem_of_peers1.
  tauto.
Qed.

Lemma peers2_le size hash :
  (length (peers2 w files size hash) <= length (peers1 w files size))%nat.
Proof. apply length_filter. Qed.

(** *** The table of sizes *)

Lemma size_buckets_NoDup : NoDup (size_buckets w files).*1.
Proof. apply group_NoDup. constructor. Qed.

Lemma size_buckets_nonempty :
  Forall (fun item => item.2 <> []) (size_buckets w files).
Proof. apply group_nonempty. constructor. Qed.

Lemma bucket_of_size size :
  bucket_of size (size_buckets w files) = peers1 w files size.
Proof. unfold size_buckets. by rewrite bucket_of_group. Qed.

Lemma size_bucket_elem size bucket :
  (size, bucket) ∈ size_buckets w files ->
  bucket = peers1 w files size /\ bucket <> [].
Proof.
  intros Hin. split.
  - rewrite <- bucket_of_size. symmetry.
    apply bucket_of_elem; [apply size_buckets_NoDup|done].
  - pose proof size_buckets_nonempty as Hne.
    rewrite Forall_forall in Hne. apply (Hne _ Hin).
Qed.

Lemma size_bucket_intro size :
  peers1 w files size <> [] ->
  (size, peers1 w files size) ∈ size_buckets w files.
Proof.
  rewrite <- bucket_of_size. apply elem_bucket_of.
Qed.

(** *** The table of partial digests *)

Lemma mini_buckets_NoDup : NoDup (mini_buckets w files).*1.
Proof. apply regroup_NoDup. constructor. Qed.

Lemma mini_buckets_nonempty :
  Forall (fun item => item.2 <> []) (mini_buckets w files).
Proof. apply regroup_nonempty. constructor. Qed.

Lemma bucket_of_mini hash size :
  bucket_of (hash, size) (mini_buckets w files)
    = if decide (small (peers1 w files size)) then []
      else peers2 w files size hash.
Proof.
  unfold mini_buckets. rewrite bucket_of_regroup. cbn [bucket_of app].
  rewrite (bind_unique_key _ size).
  - cbn [fst snd id]. by rewrite bucket_of_size.
  - apply size_buckets_NoDup.
  - intros [size' bucket] _ Hne. cbn [fst snd id] in *.
    destruct (decide (small bucket)); [done|].
    apply filter_nil_intro. intros file _ [_ ?]%hash_key_Some. done.
  - cbn [snd]. by rewrite decide_True by (simpl; lia).
Qed.

Lemma mini_bucket_elem hash size bucket :
  ((hash, size), bucket) ∈ mini_buckets w files ->
  bucket = peers2 w files size hash /\ ~ small (peers1 w files size) /\
  bucket <> [].
Proof.
  intros Hin.
  assert (Hne : bucket <> []).
  { pose proof mini_buckets_nonempty as Hne.
    rewrite Forall_forall in Hne. apply (Hne _ Hin). }
  pose proof (bucket_of_elem _ _ _ mini_buckets_NoDup Hin) as Hb.
  rewrite bucket_of_mini in Hb.
  destruct (decide (small (peers1 w files size))); by subst.
Qed.

Lemma mini_bucket_intro hash size :
  ~ small (peers1 w files size) -> peers2 w files size hash <> [] ->
  ((hash, size), peers2 w files size hash) ∈ mini_buckets w files.
Proof.
  intros Hbig Hne.
  pose proof (elem_bucket_of (hash, size) (mini_buckets w files)) as Hin.
  rewrite bucket_of_mini, decide_False in Hin by done. by apply Hin.
Qed.

(** *** The table of full digests *)

Lemma full_buckets_NoDup : NoDup (full_buckets w files).*1.
Proof. apply regroup_NoDup. constructor. Qed.

Lemma full_buckets_nonempty :
  Forall (fun item => item.2 <> []) (full_buckets w files).
Proof. apply regroup_nonempty. constructor. Qed.

Lemma bucket_of_full full size :
  bucket_of (full, size) (full_buckets w files)
    = mini_buckets w files ≫= fun item =>
        if decide (small item.2) then []
        else filter (fun file => hash_key w false item.1.2 file
                                 = Some (full, size)) item.2.
Proof. unfold full_buckets. by rewrite bucket_of_regroup. Qed.

Lemma elem_full_bucket file full size :
  file ∈ bucket_of (full, size) (full_buckets w files) <->
  exists mini,
    file ∈ peers2 w files size mini /\
    ~ small (peers2 w files size mini) /\
    w_md5sum w file false = Returns full.
Proof.
  rewrite bucket_of_full, list_elem_of_bind. split.
  - intros ([[mini size'] bucket] & Hfile & Hitem). cbn [fst snd] in Hfile.
    apply mini_bucket_elem in Hitem as (-> & _ & _).
    destruct (decide (small (peers2 w files size' mini))) as [|Hbig].
    { by apply elem_of_nil in Hfile. }
    apply list_elem_of_filter in Hfile as [[Hfull ->]%hash_key_Some Hfile].
    by exists mini.
  - intros (mini & Hfile & Hbig & Hfull).
    exists ((mini, size), peers2 w files size mini). split.
    + cbn [fst snd]. rewrite decide_False by done.
      apply list_elem_of_filter. split; [by apply hash_key_Some|done].
    + apply mini_bucket_intro.
      * pose proof (peers2_le size mini). lia.
      * intros Hnil. rewrite Hnil in Hfile. by apply elem_of_nil in Hfile.
Qed.

Lemma full_bucket_elem key bucket :
  (key, bucket) ∈ full_buckets w files ->
  bucket = bucket_of key (full_buckets w files) /\ bucket <> [].
Proof.
  intros Hin. split.
  - symmetry. apply bucket_of_elem; [apply full_buckets_NoDup|done].
  - pose proof full_buckets_nonempty as Hne.
    rewrite Forall_forall in Hne. apply (Hne _ Hin).
Qed.

(** *** What becomes of a path *)

Lemma fate_of_cases file :
  match fate_of w files file with
  | SizeFailed e => w_getsize w file = Raises e
  | Singleton1 size =>
      w_getsize w file = Returns size /\ small (peers1 w files size)
  | PartialFailed e =>
      exists size,
        w_getsize w file = Returns size /\ ~ small (peers1 w files size) /\
        w_md5sum w file true = Raises e
  | Singleton2 mini size =>
      w_getsize w file = Returns size /\ ~ small (peers1 w files size) /\
      w_md5sum w file true = Returns mini /\
      small (peers2 w files size mini)
  | FullFailed e =>
      exists size mini,
        w_getsize w file = Returns size /\
        w_md5sum w file true = Returns mini /\
        ~ small (peers2 w files size mini) /\
        w_md5sum w file false = Raises e
  | Final full size =>
      exists mini,
        w_getsize w file = Returns size /\
        w_md5sum w file true = Returns mini /\
        ~ small (peers2 w files size mini) /\
        w_md5sum w file false = Returns full
  end.
Proof.
  unfold fate_of.
  destruct (w_getsize w file) as [size|e]; [|done].
  destruct (decide (small (peers1 w files size))); [done|].
  destruct (w_md5sum w file true) as [mini|e]; [|by exists size].
  destruct (decide (small (peers2 w files size mini))); [done|].
  destruct (w_md5sum w file false) as [full|e].
  - by exists mini.
  - by exists size, mini.
Qed.

Lemma fate_Singleton1 file size :
  w_getsize w file = Returns size -> small (peers1 w files size) ->
  fate_of w files file = Singleton1 size.
Proof. intros Hs Hsmall. unfold fate_of. by rewrite Hs, decide_True. Qed.

Lemma fate_Singleton2 file size mini :
  w_getsize w file = Returns size -> ~ small (peers1 w files size) ->
  w_md5sum w file true = Returns mini ->
  small (peers2 w files size mini) ->
  fate_of w files file = Singleton2 mini size.
Proof.
  intros Hs Hbig Hm Hsmall. unfold fate_of.
  by rewrite Hs, decide_False, Hm, decide_True.
Qed.

Lemma fate_Final file size mini full :
  w_getsize w file = Returns size ->
  w_md5sum w file true = Returns mini ->
  ~ small (peers2 w files size mini) ->
  w_md5sum w file false = Returns full ->
  fate_of w files file = Final full size.
Proof.
  intros Hs Hm Hbig Hf. unfold fate_of.
  pose proof (peers2_le size mini).
  rewrite Hs, decide_False, Hm, decide_False, Hf by (done || lia). done.
Qed.

(** The paths in the final buckets are the traversed paths that no
    failure excluded. *)
Lemma elem_final_buckets file :
  file ∈ mjoin (final_buckets w files) <->
  file ∈ files /\ excluded_by (fate_of w files file) = None.
Proof.
  unfold final_buckets. rewrite !join_app, !elem_of_app, !list_elem_of_join.
  split.
  - intros [(bucket & Hfile & Hb)|[(bucket & Hfile & Hb)|(bucket & Hfile & Hb)]].
    + apply elem_of_singletons in Hb as (size & Hin & Hsmall).
      apply size_bucket_elem in Hin as [-> _].
      apply elem_of_peers1 in Hfile as [Hfile Hsize].
      split; [done|]. by rewrite (fate_Singleton1 _ size).
    + apply elem_of_singletons in Hb as ([mini size] & Hin & Hsmall).
      apply mini_bucket_elem in Hin as (-> & Hbig & _).
      apply elem_of_peers2 in Hfile as (Hfile & Hsize & Hmini).
      split; [done|]. by rewrite (fate_Singleton2 _ size mini).
    + apply list_elem_of_fmap in Hb as ([[full size] b] & -> & Hin).
      apply full_bucket_elem in Hin as [-> _]. cbn [snd] in Hfile.
      apply elem_full_bucket in Hfile as (mini & Hfile & Hbig & Hfull).
      apply elem_of_peers2 in Hfile as (Hfile & Hsize & Hmini).
      split; [done|]. by rewrite (fate_Final _ size mini full).
  - intros [Hfile Hfate]. pose proof (fate_of_cases file) as Hcases.
    destruct (fate_of w files file) as [e|size|e|mini size|e|full size];
      try done.
    + destruct Hcases as [Hsize Hsmall]. left.
      exists (peers1 w files size).
      assert (Hin : file ∈ peers1 w files size) by by apply elem_of_peers1.
      split; [done|]. apply elem_of_singletons. exists size.
      split; [|done]. apply size_bucket_intro.
      intros Hnil. rewrite Hnil in Hin. by apply elem_of_nil in Hin.
    + destruct Hcases as (Hsize & Hbig & Hmini & Hsmall). right. left.
      exists (peers2 w files size mini).
      assert (Hin : file ∈ peers2 w files size mini)
        by by apply elem_of_peers2.
      split; [done|]. apply elem_of_singletons. exists (mini, size).
      split; [|done]. apply mini_bucket_intro; [done|].
      intros Hnil. rewrite Hnil in Hin. by apply elem_of_nil in Hin.
    + destruct Hcases as (mini & Hsize & Hmini & Hbig & Hfull). right. right.
      exists (bucket_of (full, size) (full_buckets w files)).
      assert (Hin : file ∈ bucket_of (full, size) (full_buckets w files)).
      { apply elem_full_bucket. exists mini.
        split; [by apply elem_of_peers2|done]. }
      split; [done|]. apply list_elem_of_fmap.
      exists ((full, size), bucket_of (full, size) (full_buckets w files)).
      split; [done|]. apply elem_bucket_of.
      intros Hnil. rewrite Hnil in Hin. by apply elem_of_nil in Hin.
Qed.

Lemma final_buckets_submseteq : mjoin (final_buckets w files) ⊆+ files.
Proof.
  unfold final_buckets. rewrite !join_app.
  trans (mjoin (singletons (size_buckets w files))
           ++ mjoin (singletons (mini_buckets w files))
           ++ mjoin (candidates (mini_buckets w files))).
  { do 2 apply submseteq_skips_l.
    apply (regroup_submseteq w false snd (mini_buckets w files) []). }
  rewrite singletons_candidates_perm.
  trans (mjoin (singletons (size_buckets w files))
           ++ mjoin (candidates (size_buckets w files))).
  { apply submseteq_skips_l.
    apply (regroup_submseteq w true id (size_buckets w files) []). }
  rewrite singletons_candidates_perm.
  unfold size_buckets. rewrite group_perm. simpl.
  apply sublist_submseteq, sublist_filter.
Qed.

Lemma final_buckets_NoDup :
  NoDup files -> NoDup (mjoin (final_buckets w files)).
Proof.
  intros Hnd. destruct (submseteq_Permutation _ _ final_buckets_submseteq)
    as [rest Hperm].
  rewrite Hperm in Hnd. by apply NoDup_app in Hnd as [? _].
Qed.

Lemma final_buckets_nonempty :
  Forall (fun bucket => bucket <> []) (final_buckets w files).
Proof.
  unfold final_buckets. rewrite !Forall_app. split; [|split].
  - apply Forall_forall. intros b (size & Hin & _)%elem_of_singletons.
    by apply size_bucket_elem in Hin as [_ ?].
  - apply Forall_forall. intros b ([mini size] & Hin & _)%elem_of_singletons.
    by apply mini_bucket_elem in Hin as (_ & _ & ?).
  - apply Forall_forall. intros b ([key b'] & -> & Hin)%list_elem_of_fmap.
    by apply full_bucket_elem in Hin as [_ ?].
Qed.

End PipelineFacts.

(** ** The whole scan *)

Section LsFacts.

Variable w : World.
Lemma final_bucket_elems files bucket file :
  bucket ∈ final_buckets w files -> file ∈ bucket -> file ∈ files.
Proof.
  intros Hb Hfile.
  assert (Hin : file ∈ mjoin (final_buckets w files)).
  { apply list_elem_of_join. by exists bucket. }
  by apply elem_final_buckets in Hin as [? _].
Qed.

Lemma ls_run path md5 s :
  exists r s' out errs hs bks,
    _ls w path md5 s = (r, s') /\
    extends s s' out (failures (w_getsize w) (traversed w path true) ++ errs)
      hs /\
    Forall2 (renders w) bks out /\
    warned w hs errs /\
    cut_short w r bks (emitted w (traversed w path true))
      (failures (w_getsize w) (traversed w path true) ++ errs)
      (ls_errors w (traversed w path true))
      hs (ls_hashed w (traversed w path true)).
Proof.
  set (files := traversed w path true).
  unfold _ls. fold files. rewrite bind_run.
  destruct (ls_sizes_run w files [] s) as (s1 & -> & Hext1).
  fold (size_buckets w files). rewrite bind_run, ls_mini_stage.
  unfold emitted, final_buckets, ls_errors, ls_hashed. rewrite !filter_app.
  destruct (ls_stage_run w true id (size_buckets w files)
              (size_buckets_nonempty w files) ∅ [] s1 (cache_named_empty w))
    as (r2 & s2 & out2 & errs2 & hs2 & bks2 & -> & Hext2 & Hout2 & Hw2 & Hcut2 & Hr2).
  destruct r2 as [[users2 minis]|e]; cycle 1.
  { exists (Raises e), s2, out2, errs2, hs2, bks2.
    split; [done|]. split.
    { eapply extends_step; [exact Hext1|exact Hext2|done..]. }
    split; [done|]. split; [done|].
    apply (cut_short_app_l w (Raises e) [] _ []).
    by eapply cut_short_app_r. }
  destruct Hr2 as [-> Hc2]. fold (mini_buckets w files).
  destruct Hcut2 as (-> & -> & ->).
  cbn beta iota. rewrite bind_run, ls_full_stage.
  destruct (ls_stage_run w false snd (mini_buckets w files)
              (mini_buckets_nonempty w files) users2 [] s2 Hc2)
    as (r3 & s3 & out3 & errs3 & hs3 & bks3 & -> & Hext3 & Hout3 & Hw3 & Hcut3 & Hr3).
  destruct r3 as [[users3 fulls]|e]; cycle 1.
  { exists (Raises e), s3, (out2 ++ out3),
      (stage_errors w true (size_buckets w files) ++ errs3),
      (stage_hashed true (size_buckets w files) ++ hs3),
      (filter (readable w) (singletons (size_buckets w files)) ++ bks3).
    split; [done|]. split.
    { eapply extends_step; [exact Hext1| |done..].
      eapply extends_step; [exact Hext2|exact Hext3|done..]. }
    split; [by apply Forall2_app|]. split; [by apply warned_app|].
    apply (cut_short_app_l w (Raises e) [] _ []).
    apply (cut_short_app_l w (Raises e)).
    rewrite <- (app_nil_r (stage_hashed false (mini_buckets w files))).
    by eapply cut_short_app_r. }
  destruct Hr3 as [-> Hc3]. fold (full_buckets w files).
  destruct Hcut3 as (-> & -> & ->).
  cbn beta iota. rewrite bind_run.
  destruct (ls_dups_run w (full_buckets w files)
              (full_buckets_nonempty w files) users3 s3 Hc3)
    as (r4 & s4 & out4 & errs4 & bks4 & -> & Hext4 & Hout4 & Hcut4).
  exists (match r4 with Returns _ => Returns tt | Raises e => Raises e end),
    s4, (out2 ++ out3 ++ out4),
    (stage_errors w true (size_buckets w files)
       ++ stage_errors w false (mini_buckets w files) ++ errs4),
    (stage_hashed true (size_buckets w files)
       ++ stage_hashed false (mini_buckets w files)),
    (filter (readable w) (singletons (size_buckets w files))
       ++ filter (readable w) (singletons (mini_buckets w files)) ++ bks4).
  split; [by destruct r4|]. split.
  { eapply extends_step; [exact Hext1| |done..].
    eapply extends_step; [exact Hext2| |done..].
    eapply extends_step; [exact Hext3|exact Hext4|try done..].
    by rewrite app_nil_r. }
  split; [by repeat apply Forall2_app|]. split.
  { apply warned_app; [done|].
    rewrite <- (app_nil_r (stage_hashed false (mini_buckets w files))).
    apply warned_app; [done|apply warned_nil]. }
  apply (cut_short_app_l w _ [] _ []).
  apply (cut_short_app_l w _).
  rewrite <- (app_nil_r (stage_hashed false (mini_buckets w files))) at 1.
  rewrite <- (app_nil_r (stage_hashed false (mini_buckets w files))) at 2.
  apply (cut_short_app_l w _).
  by destruct r4.
Qed.

Lemma warned_weaken hs errs errs0 :
  warned w hs errs -> warned w hs (errs0 ++ errs).
Proof. intros Hw file b e Hin He. apply elem_of_app. right. eauto. Qed.

(** A scan from the initial state: the state it ends in, whether it
    returns or is cut short. *)
Lemma ls_run_initial path md5 :
  exists r s' bks,
    _ls w path md5 initial = (r, s') /\
    Forall2 (renders w) bks (stdout s') /\
    warned w (hashed s') (stderr s') /\
    failures (w_getsize w) (traversed w path true) `prefix_of` stderr s' /\
    cut_short w r bks (emitted w (traversed w path true))
      (stderr s') (ls_errors w (traversed w path true))
      (hashed s') (ls_hashed w (traversed w path true)).
Proof.
  destruct (ls_run path md5 initial)
    as (r & s' & out & errs & hs & bks & Hrun & (Ho & He & Hh) & Hout & Hw & Hcut).
  simpl in Ho, He, Hh. exists r, s', bks. rewrite Ho, He, Hh.
  split; [done|]. split; [done|]. split; [by apply warned_weaken|].
  split; [by apply prefix_app_r|done].
Qed.

(** A scan is cut short by nothing but the date or the size of a
    traversed file that [os.stat] could read. *)
Lemma cut_short_culprit {A} e files bks errs hs :
  cut_short w (Raises e : outcome A) bks (emitted w files)
    errs (ls_errors w files) hs (ls_hashed w files) ->
  exists file st,
    file ∈ files /\ w_stat w file = Returns st /\ render w st = Raises e.
Proof.
  simpl. intros (_ & _ & file & others & st & Hb & Hst & Hren).
  exists file, st. split; [|done].
  assert (Hin : (file :: others) ∈ emitted w files).
  { eapply elem_of_prefix; [|exact Hb].
    apply elem_of_app. right. apply list_elem_of_here. }
  apply list_elem_of_filter in Hin as [_ Hin].
  apply (final_bucket_elems files (file :: others)); [done|].
  apply list_elem_of_here.
Qed.

Lemma renderable_returns file st :
  renderable w file -> w_stat w file = Returns st ->
  exists mdate hsize, render w st = Returns (mdate, hsize).
Proof.
  unfold renderable. intros Hr Hst. rewrite Hst in Hr.
  destruct (render w st) as [[mdate hsize]|e]; [by eexists _, _|done].
Qed.

Lemma ls_run_returns path md5 :
  Forall (renderable w) (traversed w path true) ->
  exists s',
    _ls w path md5 initial = (Returns tt, s') /\
    stderr s' = ls_errors w (traversed w path true) /\
    hashed s' = ls_hashed w (traversed w path true) /\
    Forall2 (renders w) (emitted w (traversed w path true)) (stdout s').
Proof.
  intros Hren.
  destruct (ls_run_initial path md5)
    as (r & s' & bks & Hrun & Hout & _ & _ & Hcut).
  destruct r as [[]|e].
  - destruct Hcut as (-> & He & Hh). by exists s'.
  - apply cut_short_culprit in Hcut as (file & st & Hfile & Hst & He).
    rewrite Forall_forall in Hren.
    destruct (renderable_returns file st (Hren _ Hfile) Hst)
      as (mdate & hsize & Hok).
    congruence.
Qed.

(** The three tables of the vocabulary are those the loops build. *)
Lemma ls_tables files :
  Forall (renderable w) files ->
  exists s1 users2 s2 users3 s3,
    ls_sizes w files [] initial = (Returns (size_buckets w files), s1) /\
    ls_mini w (size_buckets w files) ∅ [] s1
      = (Returns (users2, mini_buckets w files), s2) /\
    ls_full w (mini_buckets w files) users2 [] s2
      = (Returns (users3, full_buckets w files), s3).
Proof.
  intros Hren. rewrite Forall_forall in Hren.
  assert (Hfinal : forall {A} (r : outcome A) bks all errs eall hs hall,
            cut_short w r bks all errs eall hs hall ->
            (forall bucket, bucket ∈ all -> bucket ∈ final_buckets w files) ->
            exists a, r = Returns a).
  { intros A [a|e] bks all errs eall hs hall Hcut Hall; [by exists a|].
    destruct Hcut as (_ & _ & file & others & st & Hb & Hst & He).
    assert (Hin : (file :: others) ∈ all).
    { eapply elem_of_prefix; [|exact Hb].
      apply elem_of_app. right. apply list_elem_of_here. }
    assert (Hfile : file ∈ files).
    { apply (final_bucket_elems files (file :: others)); [by apply Hall|].
      apply list_elem_of_here. }
    destruct (renderable_returns file st (Hren _ Hfile) Hst)
      as (mdate & hsize & Hok). congruence. }
  destruct (ls_sizes_run w files [] initial) as (s1 & Hsizes & _).
  destruct (ls_stage_run w true id (size_buckets w files)
              (size_buckets_nonempty w files) ∅ [] s1 (cache_named_empty w))
    as (r2 & s2 & out2 & errs2 & hs2 & bks2 & Hmini & _ & _ & _ & Hcut2 & Hr2).
  destruct (Hfinal _ _ _ _ _ _ _ _ Hcut2) as [[users2 minis] ->].
  { intros bucket [_ Hb]%list_elem_of_filter.
    unfold final_buckets. rewrite !elem_of_app. by left. }
  destruct Hr2 as [-> Hc2].
  destruct (ls_stage_run w false snd (mini_buckets w files)
              (mini_buckets_nonempty w files) users2 [] s2 Hc2)
    as (r3 & s3 & out3 & errs3 & hs3 & bks3 & Hfull & _ & _ & _ & Hcut3 & Hr3).
  destruct (Hfinal _ _ _ _ _ _ _ _ Hcut3) as [[users3 fulls] ->].
  { intros bucket [_ Hb]%list_elem_of_filter.
    unfold final_buckets. rewrite !elem_of_app. right. by left. }
  destruct Hr3 as [-> Hc3].
  exists s1, users2, s2, users3, s3.
  by rewrite ls_mini_stage, ls_full_stage.
Qed.

(** Whenever the second and the third loop return, their tables are
    those of the vocabulary. *)
Lemma ls_tables_returned files :
  exists s1,
    ls_sizes w files [] initial = (Returns (size_buckets w files), s1) /\
    forall users2 minis s2,
      ls_mini w (size_buckets w files) ∅ [] s1 = (Returns (users2, minis), s2) ->
      minis = mini_buckets w files /\
      forall users3 fulls s3,
        ls_full w minis users2 [] s2 = (Returns (users3, fulls), s3) ->
        fulls = full_buckets w files.
Proof.
  destruct (ls_sizes_run w files [] initial) as (s1 & Hsizes & _).
  exists s1. split; [done|]. intros users2 minis s2.
  rewrite ls_mini_stage.
  destruct (ls_stage_run w true id (size_buckets w files)
              (size_buckets_nonempty w files) ∅ [] s1 (cache_named_empty w))
    as (r2 & s2' & out2 & errs2 & hs2 & bks2 & -> & _ & _ & _ & _ & Hr2).
  intros [= -> ->]. destruct Hr2 as [-> Hc2]. fold (mini_buckets w files).
  split; [done|].
  intros users3 fulls s3. rewrite ls_full_stage.
  destruct (ls_stage_run w false snd (mini_buckets w files)
              (mini_buckets_nonempty w files) users2 [] s2 Hc2)
    as (r3 & s3' & out3 & errs3 & hs3 & bks3 & -> & _ & _ & _ & _ & Hr3).
  intros [= -> ->]. by destruct Hr3 as [-> _].
Qed.

(** What every scan from the initial state comes to. *)
Lemma ls_scan path md5 :
  exists r s' bks,
    _ls w path md5 initial = (r, s') /\
    Forall2 (renders w) bks (stdout s') /\
    bks `prefix_of` emitted w (traversed w path true) /\
    stderr s' `prefix_of` ls_errors w (traversed w path true) /\
    hashed s' `prefix_of` ls_hashed w (traversed w path true) /\
    failures (w_getsize w) (traversed w path true) `prefix_of` stderr s' /\
    warned w (hashed s') (stderr s') /\
    (r = Returns tt ->
       bks = emitted w (traversed w path true) /\
       stderr s' = ls_errors w (traversed w path true) /\
       hashed s' = ls_hashed w (traversed w path true)) /\
    (Forall (renderable w) (traversed w path true) -> r = Returns tt) /\
    (forall e, r = Raises e ->
       exists file st,
         file ∈ traversed w path true /\ w_stat w file = Returns st /\
         render w st = Raises e).
Proof.
  destruct (ls_run_initial path md5)
    as (r & s' & bks & Hrun & Hout & Hw & Hsz & Hcut).
  destruct (cut_short_prefix w _ _ _ _ _ _ _ Hcut) as (Hpb & Hpe & Hph).
  exists r, s', bks. do 7 (split; [done|]). split; [|split].
  - intros ->. exact Hcut.
  - intros Hren. destruct (ls_run_returns path md5 Hren) as (s'' & Hrun' & _).
    congruence.
  - intros e ->. by eapply cut_short_culprit.
Qed.

Lemma NoDup_join_unique {A} (ls : list (list A)) b1 b2 x :
  NoDup (mjoin ls) -> b1 ∈ ls -> b2 ∈ ls -> x ∈ b1 -> x ∈ b2 -> b1 = b2.
Proof.
  induction ls as [|b rest IH]; intros Hnd H1 H2 Hx1 Hx2.
  { by apply elem_of_nil in H1. }
  change (mjoin (b :: rest)) with (b ++ mjoin rest) in Hnd.
  apply NoDup_app in Hnd as (_ & Hdisj & Hrest).
  apply elem_of_cons in H1 as [->|H1], H2 as [->|H2]; [done|..].
  - destruct (Hdisj x Hx1). apply list_elem_of_join. by exists b2.
  - destruct (Hdisj x Hx2). apply list_elem_of_join. by exists b1.
  - by apply IH.
Qed.

Lemma join_filter_sublist {A} (P : list A -> Prop)
    `{forall l, Decision (P l)} (ls : list (list A)) :
  mjoin (filter P ls) `sublist_of` mjoin ls.
Proof.
  induction ls as [|l ls IH]; [done|].
  rewrite filter_cons. destruct (decide (P l)); simpl.
  - by apply sublist_app.
  - by apply sublist_inserts_l.
Qed.

Lemma Forall2_elem_l {A B} (R : A -> B -> Prop) l k x :
  Forall2 R l k -> x ∈ l -> exists y, y ∈ k /\ R x y.
Proof.
  induction 1 as [|a b l k Hab _ IH]; intros Hx.
  - by apply elem_of_nil in Hx.
  - apply elem_of_cons in Hx as [->|Hx].
    + exists b. split; [apply list_elem_of_here|done].
    + destruct (IH Hx) as (y & Hy & Hxy). exists y.
      split; [by apply list_elem_of_further|done].
Qed.

Lemma elem_failures {A} (probe : string -> outcome A) files file e :
  file ∈ files -> probe file = Raises e ->
  warning file e ∈ failures probe files.
Proof.
  intros Hin Hp. unfold failures. apply list_elem_of_bind.
  exists file. split; [|done]. rewrite Hp. apply list_elem_of_here.
Qed.

Lemma elem_stage_errors {K} first_block_only (items : buckets K) k bucket
    file e :
  (k, bucket) ∈ items -> ~ small bucket -> file ∈ bucket ->
  w_md5sum w file first_block_only = Raises e ->
  warning file e ∈ stage_errors w first_block_only items.
Proof.
  intros Hitem Hbig Hfile He. unfold stage_errors. apply list_elem_of_bind.
  exists (k, bucket). split; [|done]. cbn [snd].
  rewrite decide_False by done.
  by apply (elem_failures (fun file => w_md5sum w file first_block_only)).
Qed.

Lemma elem_stage_hashed {K} first_block_only (items : buckets K) file b :
  (file, b) ∈ stage_hashed first_block_only items <->
  b = first_block_only /\
  exists k bucket, (k, bucket) ∈ items /\ ~ small bucket /\ file ∈ bucket.
Proof.
  unfold stage_hashed. rewrite list_elem_of_fmap. split.
  - intros (f & [= -> ->] & (bucket & Hf & Hb)%list_elem_of_join).
    apply elem_of_candidates in Hb as (k & Hin & Hbig).
    split; [done|]. by exists k, bucket.
  - intros (-> & k & bucket & Hin & Hbig & Hf). exists file. split; [done|].
    apply list_elem_of_join. exists bucket. split; [done|].
    apply elem_of_candidates. by exists k.
Qed.

(** A path excluded by a failure has its warning on the error stream. *)
Lemma excluded_warned files file e :
  file ∈ files -> excluded_by (fate_of w files file) = Some e ->
  warning file e ∈ ls_errors w files.
Proof.
  intros Hfile Hex. pose proof (fate_of_cases w files file) as Hcases.
  unfold ls_errors. rewrite !elem_of_app.
  destruct (fate_of w files file) as [e'|size|e'|mini size|e'|full size];
    simplify_eq/=.
  - left. by apply elem_failures.
  - destruct Hcases as (size & Hsize & Hbig & Hmini). right. left.
    assert (Hin : file ∈ peers1 w files size) by by apply elem_of_peers1.
    apply (elem_stage_errors true _ size (peers1 w files size)); try done.
    apply size_bucket_intro.
    intros Hnil. rewrite Hnil in Hin. by apply elem_of_nil in Hin.
  - destruct Hcases as (size & mini & Hsize & Hmini & Hbig & Hfull).
    right. right. left.
    assert (Hin : file ∈ peers2 w files size mini)
      by by apply elem_of_peers2.
    apply (elem_stage_errors false _ (mini, size) (peers2 w files size mini));
      try done.
    apply mini_bucket_intro.
    + pose proof (peers2_le w files size mini). lia.
    + intros Hnil. rewrite Hnil in Hin. by apply elem_of_nil in Hin.
Qed.

(** A path that is alone in its bucket of the first table is never
    hashed; one that is alone in its bucket of the second table is not
    hashed in full. *)
Lemma singleton1_not_hashed files size file b :
  (size, [file]) ∈ size_buckets w files -> (file, b) ∉ ls_hashed w files.
Proof.
  intros Hin Hhashed.
  apply size_bucket_elem in Hin as [Hpeers _].
  assert (Hfile : file ∈ peers1 w files size)
    by (rewrite <- Hpeers; apply list_elem_of_here).
  apply elem_of_peers1 in Hfile as [_ Hsize].
  unfold ls_hashed in Hhashed. apply elem_of_app in Hhashed as [Hh|Hh];
    apply elem_stage_hashed in Hh as (_ & key & bucket & Hitem & Hbig & Hf).
  - apply size_bucket_elem in Hitem as [-> _].
    apply elem_of_peers1 in Hf as [_ Hsize'].
    assert (key = size) as -> by congruence.
    rewrite <- Hpeers in Hbig. simpl in Hbig. lia.
  - destruct key as [mini size'].
    apply mini_bucket_elem in Hitem as (-> & Hbig1 & _).
    apply elem_of_peers2 in Hf as (_ & Hsize' & _).
    assert (size' = size) as -> by congruence.
    rewrite <- Hpeers in Hbig1. simpl in Hbig1. lia.
Qed.

Lemma singleton2_not_hashed_in_full files key file :
  (key, [file]) ∈ mini_buckets w files -> (file, false) ∉ ls_hashed w files.
Proof.
  intros Hin Hhashed. destruct key as [mini size].
  apply mini_bucket_elem in Hin as (Hpeers & _ & _).
  assert (Hfile : file ∈ peers2 w files size mini)
    by (rewrite <- Hpeers; apply list_elem_of_here).
  apply elem_of_peers2 in Hfile as (_ & Hsize & Hmini).
  unfold ls_hashed in Hhashed. apply elem_of_app in Hhashed as [Hh|Hh];
    apply elem_stage_hashed in Hh as (Hb & key & bucket & Hitem & Hbig & Hf);
    [done|].
  destruct key as [mini' size'].
  apply mini_bucket_elem in Hitem as (-> & _ & _).
  apply elem_of_peers2 in Hf as (_ & Hsize' & Hmini').
  assert (size' = size) as -> by congruence.
  assert (mini' = mini) as -> by congruence.
  rewrite <- Hpeers in Hbig. simpl in Hbig. lia.
Qed.

End LsFacts.

(** ** Final buckets when partial digests follow full digests *)

Section CoherentFacts.

Variable w : World.
Variable files : list string.
Hypothesis Hcoh : hash_coherent w files.

Lemma size_class size :
  small (peers1 w files size) ->
  peers1 w files size
    = filter (fun file => fate_of w files file = Singleton1 size) files.
Proof.
  intros Hsmall. unfold peers1. apply filter_ext_elem. intros file _.
  rewrite size_key_Some. split.
  - intros Hsize. by apply fate_Singleton1.
  - intros Hfate. pose proof (fate_of_cases w files file) as Hc.
    rewrite Hfate in Hc. tauto.
Qed.

Lemma mini_class size mini :
  ~ small (peers1 w files size) -> small (peers2 w files size mini) ->
  peers2 w files size mini
    = filter (fun file => fate_of w files file = Singleton2 mini size) files.
Proof.
  intros Hbig Hsmall. unfold peers2, peers1. rewrite list_filter_filter.
  apply filter_ext_elem. intros file _.
  rewrite size_key_Some, hash_key_Some. split.
  - intros [[Hmini _] Hsize]. by apply fate_Singleton2.
  - intros Hfate. pose proof (fate_of_cases w files file) as Hc.
    rewrite Hfate in Hc. tauto.
Qed.

Lemma full_class rep size mini full :
  rep ∈ peers2 w files size mini ->
  ~ small (peers2 w files size mini) ->
  w_md5sum w rep false = Returns full ->
  bucket_of (full, size) (full_buckets w files)
    = filter (fun file => fate_of w files file = Final full size) files.
Proof.
  intros Hrep Hbig Hfull.
  apply elem_of_peers2 in Hrep as (Hrep & Hsize & Hmini).
  assert (Hbig1 : ~ small (peers1 w files size))
    by (pose proof (peers2_le w files size mini); lia).
  rewrite bucket_of_full.
  rewrite (bind_unique_key _ (mini, size)).
  - cbn [fst snd]. rewrite bucket_of_mini.
    rewrite (decide_False (P := small (peers1 w files size))) by done.
    rewrite decide_False by done.
    unfold peers2, peers1. rewrite !list_filter_filter.
    apply filter_ext_elem. intros file Hfile.
    rewrite size_key_Some, !hash_key_Some. split.
    + intros [[[Hf _] [Hm _]] Hs]. by apply (fate_Final _ _ _ _ mini).
    + intros Hfate. pose proof (fate_of_cases w files file) as Hc.
      rewrite Hfate in Hc. destruct Hc as (mini' & Hs & Hm & _ & Hf).
      assert (mini' = mini) as -> by (eapply (Hcoh file rep); done).
      done.
  - apply mini_buckets_NoDup.
  - intros [[mini' size'] bucket] Hitem Hne. cbn [fst snd] in *.
    destruct (decide (small bucket)); [done|].
    apply mini_bucket_elem in Hitem as (-> & _ & _).
    apply filter_nil_intro.
    intros file (Hfile & Hs & Hm)%elem_of_peers2 [Hf ->]%hash_key_Some.
    apply Hne. f_equal. eapply (Hcoh file rep); done.
  - cbn [snd]. by rewrite decide_True by (simpl; lia).
Qed.

(** Every final bucket is the list of the traversed paths that share the
    fate of its first path, in the order of the traversal. *)
Lemma final_bucket_class bucket :
  bucket ∈ final_buckets w files ->
  exists rep,
    head bucket = Some rep /\ rep ∈ files /\
    excluded_by (fate_of w files rep) = None /\
    bucket = filter (fun file => fate_of w files file = fate_of w files rep)
               files.
Proof.
  unfold final_buckets. rewrite !elem_of_app.
  intros [Hb|[Hb|Hb]].
  - apply elem_of_singletons in Hb as (size & Hin & Hsmall).
    apply size_bucket_elem in Hin as [Hpeers Hne].
    destruct bucket as [|rep rest]; [done|]. exists rep.
    assert (Hrep : rep ∈ peers1 w files size)
      by (rewrite <- Hpeers; apply list_elem_of_here).
    apply elem_of_peers1 in Hrep as [Hrep Hsize].
    rewrite Hpeers in Hsmall.
    rewrite (fate_Singleton1 w files rep size) by done.
    split; [done|]. split; [done|]. split; [done|].
    rewrite Hpeers. by apply size_class.
  - apply elem_of_singletons in Hb as ([mini size] & Hin & Hsmall).
    apply mini_bucket_elem in Hin as (Hpeers & Hbig & Hne).
    destruct bucket as [|rep rest]; [done|]. exists rep.
    assert (Hrep : rep ∈ peers2 w files size mini)
      by (rewrite <- Hpeers; apply list_elem_of_here).
    apply elem_of_peers2 in Hrep as (Hrep & Hsize & Hmini).
    rewrite Hpeers in Hsmall.
    rewrite (fate_Singleton2 w files rep size mini) by done.
    split; [done|]. split; [done|]. split; [done|].
    rewrite Hpeers. by apply mini_class.
  - apply list_elem_of_fmap in Hb as ([[full size] b] & -> & Hin).
    apply full_bucket_elem in Hin as [Hbucket Hne]. cbn [snd].
    destruct b as [|rep rest]; [done|]. exists rep.
    assert (Hrep : rep ∈ bucket_of (full, size) (full_buckets w files))
      by (rewrite <- Hbucket; apply list_elem_of_here).
    apply elem_full_bucket in Hrep as (mini & Hrep & Hbig & Hfull).
    pose proof Hrep as (Hfile & Hsize & Hmini)%elem_of_peers2.
    rewrite (fate_Final w files rep size mini full) by done.
    split; [done|]. split; [done|]. split; [done|].
    rewrite Hbucket. by apply (full_class rep size mini).
Qed.

End CoherentFacts.

(** ** The claims about the scan *)

Lemma tree_renderable :
  Forall (renderable Demo.tree) (traversed Demo.tree "/d" true).
Proof. apply (proj1 (bool_decide_eq_true _)). vm_compute. reflexivity. Qed.

Lemma vanishing_renderable :
  Forall (renderable Demo.vanishing) (traversed Demo.vanishing "/v" true).
Proof. apply (proj1 (bool_decide_eq_true _)). vm_compute. reflexivity. Qed.

(** C1, as the specification states it, fails: [/v/b] meets no failure at
    any probe, but its bucket is led by [/v/a], whose [os.stat] fails, and
    the bucket is skipped as a whole; [/v/b] is in no emitted group. *)
Lemma duplicate_of_unreadable_representative_lost :
  let w := Demo.vanishing in
  let files := ["/v/a"; "/v/b"; "/v/c"; "/v/e"; "/v/x"] in
  traversed w "/v" true = files /\
  returned (w_getsize w "/v/b") = true /\
  returned (w_md5sum w "/v/b" true) = true /\
  returned (w_md5sum w "/v/b" false) = true /\
  returned (w_stat w "/v/b") = true /\
  excluded_by (fate_of w files "/v/b") = None /\
  (_ls w "/v" false initial).1 = Returns tt /\
  stdout (_ls w "/v" false initial).2 = [].
Proof. repeat split; by vm_compute. Qed.

(** C1, amended: for every traversal that yields each path once, each path
    that no failed size probe, partial hash or full hash excludes is in
    exactly one final bucket.  A scan that runs to its end emits, as one
    group each, exactly the final buckets whose representative's metadata
    probe succeeds and skips the others as a whole; so no path is in two
    emitted groups, and the union of representatives and duplicates over
    the emitted groups is the traversed file set minus the files excluded
    by failures and minus the members of the skipped buckets.  A scan runs
    to its end when the date and the size of every traversed file that
    [os.stat] can read can be rendered; it is cut short by nothing but the
    exception of such a rendering, and the groups emitted until then are an
    initial segment of those. *)
Theorem ls_groups_partition (w : World) (path : string) (md5 : bool) :
  let files := traversed w path true in
  NoDup files ->
  exists r s' bks,
    _ls w path md5 initial = (r, s') /\
    Forall2 (renders w) bks (stdout s') /\
    bks `prefix_of` emitted w files /\
    (r = Returns tt -> bks = emitted w files) /\
    (Forall (renderable w) files -> r = Returns tt) /\
    (forall e, r = Raises e ->
       exists file st,
         file ∈ files /\ w_stat w file = Returns st /\
         render w st = Raises e) /\
    emitted w files = filter (readable w) (final_buckets w files) /\
    NoDup (mjoin (final_buckets w files)) /\
    (forall file,
       file ∈ mjoin (final_buckets w files) <->
       file ∈ files /\ excluded_by (fate_of w files file) = None) /\
    NoDup (mjoin (emitted w files)) /\
    (forall file,
       file ∈ mjoin (emitted w files) <->
       exists bucket,
         bucket ∈ final_buckets w files /\ file ∈ bucket /\
         readable w bucket).
Proof.
  intros files Hnd.
  destruct (ls_scan w path md5)
    as (r & s' & bks & Hrun & Hout & Hpre & _ & _ & _ & _ & Hret & Hren & Hcut).
  exists r, s', bks. split; [done|]. split; [done|]. split; [done|].
  split; [intros Hr; by destruct (Hret Hr)|]. split; [done|]. split; [done|].
  split; [done|].
  pose proof (final_buckets_NoDup w files Hnd) as Hfinal.
  split; [done|]. split; [apply elem_final_buckets|]. split.
  - eapply sublist_NoDup; [exact Hfinal|apply join_filter_sublist].
  - intros file. unfold emitted. rewrite list_elem_of_join. split.
    + intros (bucket & Hfile & [Hr Hb]%list_elem_of_filter). by exists bucket.
    + intros (bucket & Hb & Hfile & Hr). exists bucket. split; [done|].
      by apply list_elem_of_filter.
Qed.

Lemma ls_groups_partition_witness :
  exists s',
    _ls Demo.tree "/d" false initial = (Returns tt, s') /\
    emitted Demo.tree (traversed Demo.tree "/d" true)
      = [["/d/e"]; ["/d/d"]; ["/d/a"; "/d/b"]; ["/d/c"]] /\
    Forall2 (renders Demo.tree)
      [["/d/e"]; ["/d/d"]; ["/d/a"; "/d/b"]; ["/d/c"]] (stdout s') /\
    NoDup (mjoin (emitted Demo.tree (traversed Demo.tree "/d" true))).
Proof.
  destruct (ls_groups_partition Demo.tree "/d" false)
    as (r & s' & bks & Hrun & Hout & _ & Hret & Hren & _ & _ & _ & _ & Hnd & _).
  - apply (proj1 (bool_decide_eq_true _)). vm_compute. reflexivity.
  - rewrite (Hren tree_renderable) in Hrun, Hret.
    assert (Hem : emitted Demo.tree (traversed Demo.tree "/d" true)
                  = [["/d/e"]; ["/d/d"]; ["/d/a"; "/d/b"]; ["/d/c"]])
      by (vm_compute; reflexivity).
    exists s'. split; [exact Hrun|]. split; [exact Hem|]. split; [|exact Hnd].
    rewrite <- Hem, <- (Hret eq_refl). exact Hout.
Defined.

(** C2, as the specification states it, fails: [/v/e] is alone in its size
    bucket, but [os.stat] fails on it and nothing is emitted for it. *)
Lemma unreadable_singleton_not_emitted :
  let w := Demo.vanishing in
  (1536, ["/v/e"]) ∈ size_buckets w (traversed w "/v" true) /\
  (_ls w "/v" false initial).1 = Returns tt /\
  stdout (_ls w "/v" false initial).2 = [].
Proof.
  split; [|split; by vm_compute].
  assert (size_buckets Demo.vanishing (traversed Demo.vanishing "/v" true)
          = [(100000, ["/v/a"; "/v/b"; "/v/c"]); (1536, ["/v/e"])]) as ->
    by by vm_compute.
  apply list_elem_of_further, list_elem_of_here.
Qed.

(** C2, amended: in a scan whose traversal yields each path once, a path
    that is alone in its Stage-1 size bucket is never hashed, partially or
    in full, and a path that is alone in its Stage-2 (partial-hash, size)
    bucket is never hashed in full.  In a scan that runs to its end such a
    path is emitted as a singleton group, with an empty duplicates field,
    provided its metadata probe succeeds; when the probe fails, a warning
    that names the path and the error is written and the path is in no
    group.  (A scan runs to its end when the date and the size of every
    traversed file that [os.stat] can read can be rendered.) *)
Theorem singleton_buckets_not_hashed (w : World) (path : string) (md5 : bool) :
  let files := traversed w path true in
  NoDup files ->
  exists r s' bks,
    _ls w path md5 initial = (r, s') /\
    Forall2 (renders w) bks (stdout s') /\
    bks `prefix_of` emitted w files /\
    (Forall (renderable w) files -> r = Returns tt) /\
    (exists s1,
       ls_sizes w files [] initial = (Returns (size_buckets w files), s1) /\
       forall users minis s2,
         ls_mini w (size_buckets w files) ∅ [] s1
           = (Returns (users, minis), s2) ->
         minis = mini_buckets w files) /\
    (forall size file,
       (size, [file]) ∈ size_buckets w files ->
       ((file, true) ∉ hashed s') /\ ((file, false) ∉ hashed s')) /\
    (forall key file,
       (key, [file]) ∈ mini_buckets w files -> ((file, false) ∉ hashed s')) /\
    (r = Returns tt ->
     forall file,
       (exists size, (size, [file]) ∈ size_buckets w files) \/
       (exists key, (key, [file]) ∈ mini_buckets w files) ->
       (forall st, w_stat w file = Returns st ->
          exists line owner group hsize mdate,
            line ∈ stdout s' /\
            w_mdate w (st_mtime st) = Returns mdate /\
            readable_size (st_size st) = Returns hsize /\
            named w (st_uid st) owner /\ named w (st_gid st) group /\
            line = pretty (st_ino st) +:+ TAB +:+ w_filemode w (st_mode st)
                   +:+ TAB +:+ py_str owner +:+ TAB +:+ py_str group
                   +:+ TAB +:+ pretty (st_size st) +:+ TAB +:+ hsize
                   +:+ TAB +:+ mdate +:+ TAB +:+ file +:+ TAB +:+ "") /\
       (forall e, w_stat w file = Raises e ->
          ("WARNING: Failed to get info on " +:+ DQ +:+ file +:+ DQ +:+
           " due to " +:+ DQ +:+ exn_str e +:+ DQ +:+ " error!") ∈ stderr s' /\
          forall bucket, bucket ∈ bks -> file ∉ bucket)).
Proof.
  intros files Hnd.
  destruct (ls_scan w path md5)
    as (r & s' & bks & Hrun & Hout & Hpre & _ & Hph & _ & _ & Hret & Hren & _).
  fold files in Hpre, Hph, Hret, Hren.
  exists r, s', bks. split; [done|]. split; [done|]. split; [done|].
  split; [done|]. split.
  { destruct (ls_tables_returned w files) as (s1 & Hsizes & Hmini).
    exists s1. split; [done|]. intros users minis s2 H.
    by destruct (Hmini users minis s2 H). }
  split; [|split].
  - intros size file Hin. split; intros Hh.
    + eapply singleton1_not_hashed; [exact Hin|].
      eapply elem_of_prefix; [exact Hh|exact Hph].
    + eapply singleton1_not_hashed; [exact Hin|].
      eapply elem_of_prefix; [exact Hh|exact Hph].
  - intros key file Hin Hh.
    eapply singleton2_not_hashed_in_full; [exact Hin|].
    eapply elem_of_prefix; [exact Hh|exact Hph].
  - intros Hr. destruct (Hret Hr) as (-> & Herr & _).
    intros file Hsingle.
    assert (Hfinal : [file] ∈ final_buckets w files).
    { unfold final_buckets. rewrite !elem_of_app.
      destruct Hsingle as [[size Hin]|[key Hin]]; [left|right; left];
        apply elem_of_singletons; eexists; (split; [exact Hin|simpl; lia]). }
    split.
    + intros st Hst.
      destruct (Forall2_elem_l _ _ _ [file] Hout) as (line & Hline & Hr').
      { apply list_elem_of_filter. split; [|done]. simpl. by rewrite Hst. }
      destruct Hr' as (st' & owner & group & hsize & mdate & Hst' & Hmd & Hsz
                       & Hno & Hng & Heq).
      assert (st' = st) as -> by congruence.
      by exists line, owner, group, hsize, mdate.
    + intros e He. split.
      * rewrite Herr. unfold ls_errors. rewrite !elem_of_app.
        destruct Hsingle as [[size Hin]|[key Hin]];
          [right; left|right; right; left];
          (unfold stage_errors; apply list_elem_of_bind; eexists;
           split; [|exact Hin]; cbn [snd];
           rewrite decide_True by (simpl; lia);
           apply (elem_failures (w_stat w)); [apply list_elem_of_here|done]).
      * intros bucket [Hread Hb]%list_elem_of_filter Hfile.
        assert (bucket = [file]) as ->.
        { apply (NoDup_join_unique (final_buckets w files) _ _ file);
            [by apply final_buckets_NoDup|done|done|done|apply list_elem_of_here]. }
        simpl in Hread. by rewrite He in Hread.
Qed.

Lemma singleton_buckets_not_hashed_witness :
  let tab := String (Ascii.ascii_of_nat 9) "" in
  let dq := String (Ascii.ascii_of_nat 34) "" in
  (exists s',
     _ls Demo.tree "/d" false initial = (Returns tt, s') /\
     (("/d/e", true) ∉ hashed s') /\ (("/d/e", false) ∉ hashed s') /\
     (("/d/d", false) ∉ hashed s') /\
     (exists line, line ∈ stdout s' /\ renders Demo.tree ["/d/e"] line) /\
     stdout s' !! 0%nat
       = Some ("15" +:+ tab +:+ "-rw-r--r--" +:+ tab +:+ "4242" +:+ tab +:+
               "staff" +:+ tab +:+ "1536" +:+ tab +:+ "1.5 KiB" +:+ tab +:+
               "1970-01-01-00:00" +:+ tab +:+ "/d/e" +:+ tab)) /\
  (exists s',
     _ls Demo.vanishing "/v" false initial = (Returns tt, s') /\
     ("WARNING: Failed to get info on " +:+ dq +:+ "/v/e" +:+ dq +:+
      " due to " +:+ dq +:+ "[Errno 2] No such file or directory" +:+ dq +:+
      " error!") ∈ stderr s' /\
     stdout s' = []).
Proof.
  intros tab dq. split.
  - destruct (singleton_buckets_not_hashed Demo.tree "/d" false)
      as (r & s' & bks & Hrun & _ & _ & Hren & _ & H1 & H2 & Hret).
    + apply (proj1 (bool_decide_eq_true _)). vm_compute. reflexivity.
    + rewrite (Hren tree_renderable) in Hrun, Hret.
      exists s'. split; [exact Hrun|].
      assert (Hs : size_buckets Demo.tree (traversed Demo.tree "/d" true)
                   = [(100000, ["/d/a"; "/d/b"; "/d/c"; "/d/d"]);
                      (1536, ["/d/e"])]) by (vm_compute; reflexivity).
      assert (Hm : mini_buckets Demo.tree (traversed Demo.tree "/d" true)
                   = [(("p1", 100000), ["/d/a"; "/d/b"; "/d/c"]);
                      (("p2", 100000), ["/d/d"])]) by (vm_compute; reflexivity).
      assert (He : (1536, ["/d/e"])
                   ∈ size_buckets Demo.tree (traversed Demo.tree "/d" true)).
      { rewrite Hs. apply list_elem_of_further, list_elem_of_here. }
      destruct (H1 1536 "/d/e" He) as (Ha & Hb).
      assert (Hc : ("/d/d", false) ∉ hashed s').
      { apply (H2 ("p2", 100000) "/d/d").
        rewrite Hm. apply list_elem_of_further, list_elem_of_here. }
      split; [exact Ha|]. split; [exact Hb|]. split; [exact Hc|]. split.
      * destruct (Hret eq_refl "/d/e") as [Hline _].
        { left. by exists 1536. }
        destruct (Hline (Demo.st 15 4242 50 1536) eq_refl)
          as (line & owner & group & hsize & mdate & Hin & Hmd & Hsz & Hno & Hng & ->).
        eexists. split; [exact Hin|].
        exists (Demo.st 15 4242 50 1536), owner, group, hsize, mdate.
        split; [reflexivity|]. split; [exact Hmd|]. split; [exact Hsz|].
        split; [exact Hno|]. split; [exact Hng|]. reflexivity.
      * replace s' with (_ls Demo.tree "/d" false initial).2 by by rewrite Hrun.
        vm_compute. reflexivity.
  - destruct (singleton_buckets_not_hashed Demo.vanishing "/v" false)
      as (r & s' & bks & Hrun & _ & _ & Hren & _ & _ & _ & Hret).
    + apply (proj1 (bool_decide_eq_true _)). vm_compute. reflexivity.
    + rewrite (Hren vanishing_renderable) in Hrun, Hret.
      exists s'. split; [exact Hrun|]. split.
      * destruct (Hret eq_refl "/v/e") as [_ Hwarn].
        { left. exists 1536.
          assert (size_buckets Demo.vanishing (traversed Demo.vanishing "/v" true)
                  = [(100000, ["/v/a"; "/v/b"; "/v/c"]); (1536, ["/v/e"])]) as ->
            by by vm_compute.
          apply list_elem_of_further, list_elem_of_here. }
        exact (proj1 (Hwarn _ eq_refl)).
      * replace s' with (_ls Demo.vanishing "/v" false initial).2
          by by rewrite Hrun.
        vm_compute. reflexivity.
Defined.

Lemma Forall2_impl_elem {A B} (R R' : A -> B -> Prop) (l : list A) (k : list B) :
  Forall2 R l k ->
  (forall x y, x ∈ l -> R x y -> R' x y) ->
  Forall2 R' l k.
Proof.
  induction 1 as [|x y l k Hxy _ IH]; intros Himpl; constructor.
  - apply Himpl; [apply list_elem_of_here|done].
  - apply IH. intros x' y' Hx'. apply Himpl. by apply list_elem_of_further.
Qed.



Lemma tree_hash_coherent :
  hash_coherent Demo.tree (traversed Demo.tree "/d" true).
Proof.
  intros f g size full pf pg _ _ _ _ Hf Hg Hpf Hpg.
  unfold Demo.tree, Demo.io_error in *. simpl in *.
  repeat case_decide; first [congruence | contradiction].
Qed.


(** C4, as the specification states it, fails: with the toggle false the
    scan still hashes [/d/a], [/d/b] and [/d/c] in full, and [/d/c], which
    shares their partial digest and size, is reported apart from them. *)
Lemma full_hashes_computed_with_toggle_off :
  let s' := (_ls Demo.tree "/d" false initial).2 in
  (("p1", 100000), ["/d/a"; "/d/b"; "/d/c"])
    ∈ mini_buckets Demo.tree (traversed Demo.tree "/d" true) /\
  ("/d/a", false) ∈ hashed s' /\
  emitted Demo.tree (traversed Demo.tree "/d" true)
    = [["/d/e"]; ["/d/d"]; ["/d/a"; "/d/b"]; ["/d/c"]] /\
  length (stdout s') = 4%nat.
Proof.
  split; [|split; [|split; by vm_compute]].
  - assert (mini_buckets Demo.tree (traversed Demo.tree "/d" true)
            = [(("p1", 100000), ["/d/a"; "/d/b"; "/d/c"]);
               (("p2", 100000), ["/d/d"])]) as -> by by vm_compute.
    apply list_elem_of_here.
  - assert (hashed (_ls Demo.tree "/d" false initial).2
            = [("/d/a", true); ("/d/b", true); ("/d/c", true); ("/d/d", true);
               ("/d/a", false); ("/d/b", false); ("/d/c", false)]) as ->
      by by vm_compute.
    do 4 apply list_elem_of_further. apply list_elem_of_here.
Qed.

(** C4, amended: the compute-full-hashes toggle has no effect: a scan with
    it and a scan without it do the same.  Whatever its value, a scan that
    runs to its end has run Stage 3: every member of every Stage-2 bucket
    of two or more paths has been hashed in full, and the groups reported
    are the final buckets, those of Stage 3 being keyed by full digest and
    size.  (A scan runs to its end when the date and the size of every
    traversed file that [os.stat] can read can be rendered.) *)
Theorem full_hashes_toggle_ignored (w : World) (path : string) (md5 : bool) :
  let files := traversed w path true in
  exists r s' bks,
    _ls w path md5 initial = (r, s') /\
    _ls w path (negb md5) initial = (r, s') /\
    Forall2 (renders w) bks (stdout s') /\
    bks `prefix_of` emitted w files /\
    (Forall (renderable w) files -> r = Returns tt) /\
    (r = Returns tt ->
       bks = emitted w files /\
       forall key bucket file,
         (key, bucket) ∈ mini_buckets w files -> ~ small bucket ->
         file ∈ bucket -> (file, false) ∈ hashed s').
Proof.
  intros files.
  destruct (ls_scan w path md5)
    as (r & s' & bks & Hrun & Hout & Hpre & _ & _ & _ & _ & Hret & Hren & _).
  exists r, s', bks. split; [done|]. split; [exact Hrun|].
  split; [done|]. split; [done|]. split; [done|].
  intros Hr. destruct (Hret Hr) as (Hb & _ & Hh). split; [done|].
  intros key bucket file Hin Hbig Hfile. rewrite Hh. unfold ls_hashed.
  apply elem_of_app. right. apply elem_stage_hashed.
  split; [done|]. by exists key, bucket.
Qed.

Lemma full_hashes_toggle_ignored_witness :
  exists s',
    _ls Demo.tree "/d" false initial = (Returns tt, s') /\
    _ls Demo.tree "/d" true initial = (Returns tt, s') /\
    ("/d/c", false) ∈ hashed s'.
Proof.
  destruct (full_hashes_toggle_ignored Demo.tree "/d" false)
    as (r & s' & bks & Hrun & Hrun' & _ & _ & Hren & Hret).
  rewrite (Hren tree_renderable) in Hrun, Hrun', Hret.
  exists s'. split; [exact Hrun|]. split; [exact Hrun'|].
  destruct (Hret eq_refl) as [_ Hfull].
  apply (Hfull ("p1", 100000) ["/d/a"; "/d/b"; "/d/c"]).
  - assert (mini_buckets Demo.tree (traversed Demo.tree "/d" true)
            = [(("p1", 100000), ["/d/a"; "/d/b"; "/d/c"]);
               (("p2", 100000), ["/d/d"])]) as -> by (vm_compute; reflexivity).
    apply list_elem_of_here.
  - simpl. lia.
  - do 2 apply list_elem_of_further. apply list_elem_of_here.
Defined.



(** * Further properties *)

(** ** [traversed] *)

Lemma filter_bind {A B} (P : B -> Prop) `{forall y, Decision (P y)}
    (f : A -> list B) (l : list A) :
  filter P (l ≫= f) = l ≫= fun x => filter P (f x).
Proof.
  induction l as [|x l IH]; [done|].
  change ((x :: l) ≫= f) with (f x ++ (l ≫= f)).
  by rewrite filter_app, IH.
Qed.

Lemma bind_ext_all {A B} (f g : A -> list B) (l : list A) :
  (forall x, f x = g x) -> l ≫= f = l ≫= g.
Proof.
  intros Hfg. induction l as [|x l IH]; [done|].
  change ((x :: l) ≫= f) with (f x ++ (l ≫= f)).
  change ((x :: l) ≫= g) with (g x ++ (l ≫= g)).
  by rewrite Hfg, IH.
Qed.

(** X1: with [skip_links] set, [traversed] yields the paths it yields
    without it, less the symbolic links and in the same order; no symbolic
    link is ever yielded. *)
Theorem traversed_skips_links (w : World) (path : string) :
  traversed w path true
    = filter (fun file => w_islink w file = false) (traversed w path false) /\
  forall file, file ∈ traversed w path true -> w_islink w file = false.
Proof.
  assert (Heq : traversed w path true
    = filter (fun file => w_islink w file = false) (traversed w path false)).
  { unfold traversed. rewrite filter_bind. apply bind_ext_all.
    intros [[pdir chdirs] files]. rewrite filter_bind. apply bind_ext_all.
    intros f. simpl.
    destruct (w_islink w (os_path_join pdir f)) eqn:Hlink.
    - rewrite filter_cons_False by (rewrite Hlink; discriminate). done.
    - rewrite filter_cons_True by done. done. }
  split; [done|].
  intros file. rewrite Heq. by intros [? _]%list_elem_of_filter.
Qed.

(** ** [_name] and [name] *)

Lemma name_raises_unbound (w : World) uid uid_type users s :
  uid_type <> "user" -> uid_type <> "group" -> users !! uid = None ->
  exists msg,
    name w uid uid_type users s = (Raises (Exn "UnboundLocalError" msg), s).
Proof.
  intros Hu Hg Hnone. unfold name. rewrite Hnone, bind_run.
  unfold _name. rewrite bind_run. unfold try_except_class.
  rewrite !decide_False by done. simpl. by eexists.
Qed.

(** X2: with a [uid_type] that is neither ['user'] nor ['group'], [name]
    raises [UnboundLocalError] for an id that is not cached, queries no
    database and leaves the state as it was; for a cached id it returns the
    cached name, whatever the type. *)
Theorem name_unknown_type (w : World) (uid : Z) (uid_type : string)
    (users : gmap Z pyval) (s : State) :
  uid_type <> "user" -> uid_type <> "group" ->
  (users !! uid = None ->
     exists msg,
       name w uid uid_type users s = (Raises (Exn "UnboundLocalError" msg), s)) /\
  (forall v, users !! uid = Some v ->
     name w uid uid_type users s = (Returns (v, users), s)).
Proof.
  intros Hu Hg. split.
  - by apply name_raises_unbound.
  - intros v Hv. unfold name. by rewrite Hv.
Qed.

Lemma name_unknown_type_witness :
  exists msg,
    name Demo.tree 7 "other" ∅ initial
      = (Raises (Exn "UnboundLocalError" msg), initial).
Proof.
  apply (proj1 (name_unknown_type Demo.tree 7 "other" ∅ initial
                  ltac:(discriminate) ltac:(discriminate))).
  reflexivity.
Defined.

Lemma name_outcome (w : World) uid uid_type users s :
  (exists v, users !! uid = Some v /\
     name w uid uid_type users s = (Returns (v, users), s)) \/
  (users !! uid = None /\ (uid_type = "user" \/ uid_type = "group") /\
     name w uid uid_type users s
       = (Returns (resolved w uid_type uid,
                   <[uid := resolved w uid_type uid]> users),
          log_query (database_of uid_type) uid s)) \/
  (users !! uid = None /\ exists e, name w uid uid_type users s = (Raises e, s)).
Proof.
  destruct (users !! uid) as [v|] eqn:Hl.
  { left. exists v. split; [done|]. by apply name_cached. }
  right. destruct (decide (uid_type = "user")) as [->|Hu].
  { left. split; [done|]. split; [by left|]. by apply name_fresh; [left|]. }
  destruct (decide (uid_type = "group")) as [->|Hg].
  { left. split; [done|]. split; [by right|]. by apply name_fresh; [right|]. }
  right. split; [done|].
  destruct (name_raises_unbound w uid uid_type users s Hu Hg Hl) as [msg H].
  by eexists.
Qed.

(** X3: a call of [name] that returns leaves the returned name cached under
    the id and every other entry as it was; an entry that was there is
    never replaced, and then neither the cache nor the state changes; at
    most one database lookup is made. *)
Theorem name_extends_cache (w : World) (uid : Z) (uid_type : string)
    (users users' : gmap Z pyval) (s s' : State) (v : pyval) :
  name w uid uid_type users s = (Returns (v, users'), s') ->
  users' !! uid = Some v /\
  (forall id, id <> uid -> users' !! id = users !! id) /\
  users ⊆ users' /\
  (forall v0, users !! uid = Some v0 -> v = v0 /\ users' = users /\ s' = s) /\
  (users !! uid = None ->
     queried s' = queried s ++ [(database_of uid_type, uid)]).
Proof.
  intros Hrun.
  destruct (name_outcome w uid uid_type users s)
    as [(v0 & Hl & H)|[(Hl & Hty & H)|(Hl & e & H)]];
    rewrite H in Hrun; [| |discriminate]; injection Hrun as <- <- <-.
  - split; [done|]. split; [done|]. split; [done|]. split.
    + intros v1 Hv1. rewrite Hl in Hv1. by injection Hv1 as <-.
    + intros Hnone. congruence.
  - split; [by rewrite lookup_insert_eq|]. split.
    { intros id Hne. by rewrite lookup_insert_ne. }
    split; [by apply insert_subseteq|]. split; [|done].
    intros v0 Hv0. congruence.
Qed.

Lemma name_extends_cache_witness :
  exists users' s',
    name Demo.tree 1000 "user" {[ 0 := PyStr "root" ]} initial
      = (Returns (PyStr "alice", users'), s') /\
    users' !! 0 = Some (PyStr "root") /\ users' !! 1000 = Some (PyStr "alice").
Proof.
  assert (Hrun : name Demo.tree 1000 "user" {[ 0 := PyStr "root" ]} initial
            = (Returns (PyStr "alice", <[1000 := PyStr "alice"]> {[ 0 := PyStr "root" ]}),
               log_query "passwd" 1000 initial)) by (vm_compute; reflexivity).
  destruct (name_extends_cache _ _ _ _ _ _ _ _ Hrun) as (Hv & Hothers & _).
  eexists _, _. split; [exact Hrun|]. split; [|exact Hv].
  rewrite (Hothers 0) by lia. reflexivity.
Defined.

(** ** [file_stats] *)

Lemma name_valid_run (w : World) uid uid_type users s :
  uid_type = "user" \/ uid_type = "group" ->
  exists v users' s',
    name w uid uid_type users s = (Returns (v, users'), s') /\
    stdout s' = stdout s /\ stderr s' = stderr s /\ hashed s' = hashed s /\
    (queried s' = queried s \/
     queried s' = queried s ++ [(database_of uid_type, uid)]).
Proof.
  intros Hty.
  destruct (name_outcome w uid uid_type users s)
    as [(v0 & Hl & H)|[(Hl & _ & H)|(Hl & e & H)]].
  - exists v0, users, s. split; [done|]. repeat split; by left.
  - eexists _, _, _. split; [exact H|]. repeat split; by right.
  - rewrite name_fresh in H by done. discriminate.
Qed.



(** X4: whenever the group id of a file is numerically its owner id, the
    group column of [file_stats] repeats the owner column, whatever the
    group database holds and whatever is cached: the group database is not
    asked, and the user database at most once.  This is so whether
    [file_stats] returns or the date or the size makes it raise. *)
Theorem file_stats_same_id_same_name (w : World) (file : string)
    (users : gmap Z pyval) (s : State) (st : stat_result) :
  w_stat w file = Returns st ->
  st_gid st = st_uid st ->
  exists r s',
    file_stats w file users s = (r, s') /\
    (queried s' = queried s \/
     queried s' = queried s ++ [("passwd", st_uid st)]) /\
    match render w st with
    | Returns (mdate, hsize) =>
        exists owner users',
          r = Returns ([pretty (st_ino st); w_filemode w (st_mode st);
                        py_str owner; py_str owner; pretty (st_size st);
                        hsize; mdate], users')
    | Raises e => r = Raises e
    end.
Proof.
  intros Hst Hgid.
  destruct (file_stats_stat w file users s st Hst)
    as (owner & group & users1 & users2 & s1 & s2 & Hown & Hgrp & Hrun & _).
  assert (Hcached : users1 !! st_uid st = Some owner /\
            (queried s1 = queried s \/
             queried s1 = queried s ++ [("passwd", st_uid st)])).
  { destruct (name_outcome w (st_uid st) "user" users s)
      as [(v0 & Hl & H)|[(Hl & _ & H)|(Hl & e & H)]];
      rewrite H in Hown; [| |discriminate]; injection Hown as <- <- <-.
    - split; [done|by left].
    - split; [by rewrite lookup_insert_eq|by right]. }
  destruct Hcached as [Hcached Hq].
  rewrite Hgid, (name_cached _ _ _ _ owner) in Hgrp by done.
  injection Hgrp as <- <- <-.
  eexists _, s1. split; [exact Hrun|]. split; [done|].
  destruct (render w st) as [[mdate hsize]|e]; [|done].
  by exists owner, users1.
Qed.

Lemma file_stats_same_id_same_name_witness :
  w_getgrgid Demo.tree 0 = Some "wheel" /\
  exists owner users',
    (file_stats Demo.tree "/d/a" ∅ initial).1
      = Returns (["11"; "-rw-r--r--"; py_str owner; py_str owner; "100000";
                  "97.656 KiB"; "1970-01-01-00:00"], users').
Proof.
  split; [reflexivity|].
  destruct (file_stats_same_id_same_name Demo.tree "/d/a" ∅ initial
              (Demo.st 11 0 0 100000))
    as (r & s' & Hrun & _ & Hr).
  - reflexivity.
  - reflexivity.
  - rewrite Hrun. vm_compute in Hr. destruct Hr as (owner & users' & ->).
    by exists owner, users'.
Defined.

(** ** [readable_size], beyond the examples *)

Lemma pow_1024 k : 0 <= k -> 1024 ^ k = 2 ^ (10 * k).
Proof. intros Hk. by rewrite Z.pow_mul_r by lia. Qed.

(** The exact index of a positive number: the power of 1024 at or below. *)
Lemma exact_index_spec x :
  0 < x ->
  0 <= Z.log2 x `div` 10 /\
  1024 ^ (Z.log2 x `div` 10) <= x < 1024 ^ (Z.log2 x `div` 10 + 1).
Proof.
  intros Hpos.
  assert (Hi : 0 <= Z.log2 x `div` 10)
    by (apply Z.div_pos; [apply Z.log2_nonneg | lia]).
  split; [done|]. rewrite !pow_1024 by lia.
  pose proof (Z.log2_spec x Hpos) as [Hlo Hhi].
  pose proof (Z.log2_nonneg x) as HL.
  pose proof (Z.div_mod (Z.log2 x) 10 ltac:(lia)) as Hdm.
  pose proof (Z.mod_pos_bound (Z.log2 x) 10 ltac:(lia)) as Hm.
  split.
  - etrans; [|exact Hlo]. apply Z.pow_le_mono_r; lia.
  - eapply Z.lt_le_trans; [exact Hhi|]. apply Z.pow_le_mono_r; lia.
Qed.

Lemma round3_bounds x p :
  0 < p -> p <= x < 1024 * p ->
  1000 <= round3 x p <= 1024000.
Proof.
  intros Hp [Hlo Hhi]. unfold round3.
  pose proof (round_half_even_bounds (1000 * x) p Hp) as Hr.
  assert (Hq1 : 1000 <= (1000 * x) `div` p)
    by (apply Z.div_le_lower_bound; lia).
  assert (Hq2 : (1000 * x) `div` p < 1024000)
    by (apply Z.div_lt_upper_bound; lia).
  lia.
Qed.

(** A quotient within half a unit of [q] rounds to [q]. *)
Lemma round_half_even_near n d q :
  0 < d -> (2 * q - 1) * d < 2 * n < (2 * q + 1) * d ->
  round_half_even n d = q.
Proof.
  intros Hd [Hlo Hhi]. unfold round_half_even.
  pose proof (Z.div_mod n d ltac:(lia)) as Hdm.
  pose proof (Z.mod_pos_bound n d Hd) as Hm.
  assert (Hq : n `div` d = q \/ n `div` d = q - 1) by nia.
  destruct Hq as [Hq|Hq]; rewrite Hq in *.
  - rewrite decide_True by nia. done.
  - rewrite decide_False by nia. rewrite decide_True by nia. lia.
Qed.

(** Where the double logarithm steps early, the number printed is 1.0. *)
Lemma round3_at_step k x :
  5 <= k <= 9 -> log_step k <= x < 1024 ^ k -> round3 x (1024 ^ k) = 1000.
Proof.
  intros Hk [Hlo Hhi]. unfold round3.
  assert (Hcases : k = 5 \/ k = 6 \/ k = 7 \/ k = 8 \/ k = 9) by lia.
  apply round_half_even_near; [apply Z.pow_pos_nonneg; lia|].
  destruct Hcases as [->|[->|[->|[->| ->]]]].
  - assert (Hs : 1999 * 1024 ^ 5 < 2000 * log_step 5) by (vm_compute; reflexivity).
    lia.
  - assert (Hs : 1999 * 1024 ^ 6 < 2000 * log_step 6) by (vm_compute; reflexivity).
    lia.
  - assert (Hs : 1999 * 1024 ^ 7 < 2000 * log_step 7) by (vm_compute; reflexivity).
    lia.
  - assert (Hs : 1999 * 1024 ^ 8 < 2000 * log_step 8) by (vm_compute; reflexivity).
    lia.
  - assert (Hs : 1999 * 1024 ^ 9 < 2000 * log_step 9) by (vm_compute; reflexivity).
    lia.
Qed.

Lemma log_step_exact k : 1 <= k <= 4 -> log_step k = 1024 ^ k.
Proof.
  intros Hk. assert (Hcases : k = 1 \/ k = 2 \/ k = 3 \/ k = 4) by lia.
  destruct Hcases as [->|[->|[->| ->]]]; vm_compute; reflexivity.
Qed.

(** X7: for [0 < sbytes < 1024^9 - 113 * 2^36], where [readable_size]
    returns, the number printed lies between 1.0 and 1024.0, both
    included.  The unit is a power of 1024 not above [sbytes], the largest
    one for every size below [1024^5 - 3]; the only exception is a size
    just below a power of 1024 whose double, or the logarithm of whose
    double, has reached the power: then the unit is that power and the
    number printed is 1.0. *)
Theorem readable_size_range (sbytes : Z) :
  0 < sbytes < 1024 ^ 9 - 113 * 2 ^ 36 ->
  exists unit thousandths,
    units !! Z.to_nat (unit_index sbytes) = Some unit /\
    readable_size sbytes
      = Returns (float_repr thousandths +:+ " " +:+ unit) /\
    1000 <= thousandths <= 1024000 /\
    (1024 ^ unit_index sbytes <= sbytes \/ thousandths = 1000) /\
    (sbytes < 1024 ^ 5 - 3 ->
       1024 ^ unit_index sbytes <= sbytes < 1024 ^ (unit_index sbytes + 1)).
Proof.
  intros [Hpos Hlt]. pose proof size_limit_below as Hlim.
  assert (Hr : 0 < sbytes < size_limit) by (unfold size_limit; lia).
  pose proof (unit_index_nonneg sbytes) as Hi0.
  pose proof (unit_index_small sbytes Hr) as Hi8.
  destruct (units_lookup_small (unit_index sbytes)) as [unit Hunit]; [lia|].
  exists unit, (round3 (float_of_int sbytes) (1024 ^ unit_index sbytes)).
  split; [done|]. split.
  { unfold readable_size.
    rewrite decide_False by lia. rewrite decide_False by lia.
    rewrite decide_False by (apply below_float_overflow; lia).
    by rewrite Hunit. }
  pose proof (float_of_int_pos sbytes Hpos) as Hx.
  pose proof (float_below_limit sbytes Hr) as Hx9.
  unfold unit_index in *. set (x := float_of_int sbytes) in *.
  destruct (exact_index_spec x Hx) as (Hk0 & Hklo & Hkhi).
  set (k := Z.log2 x `div` 10) in *.
  assert (Hp : 0 < 1024 ^ k) by (apply Z.pow_pos_nonneg; lia).
  assert (Hsucc : 1024 ^ (k + 1) = 1024 * 1024 ^ k)
    by (rewrite Z.pow_add_r by lia; lia).
  (* a size below a power of 1024 whose double is at or above it *)
  assert (Hround : sbytes < 1024 ^ k -> x = 1024 ^ k).
  { intros Hs.
    pose proof (float_of_int_mono sbytes (1024 ^ k) Hpos ltac:(lia)) as Hm.
    assert (Hf : float_of_int (1024 ^ k) = 1024 ^ k).
    { rewrite pow_1024 by lia.
      rewrite <- (Z.mul_1_l (2 ^ (10 * k))) at 1.
      rewrite float_of_int_multiple by lia. lia. }
    fold x in Hm. lia. }
  destruct (decide (log_step (k + 1) <= x)) as [Hstep|Hstep].
  - (* the logarithm has stepped *)
    assert (Hk5 : 5 <= k + 1 <= 9).
    { destruct (decide (k + 1 <= 4)) as [Hk4|]; [|lia].
      rewrite log_step_exact in Hstep by lia. lia. }
    assert (Ht : round3 x (1024 ^ (k + 1)) = 1000)
      by (apply round3_at_step; lia).
    rewrite Ht. split; [lia|]. split; [by right|].
    intros Hs. exfalso.
    assert (Hxs : x = sbytes).
    { apply float_of_int_small. assert (1024 ^ 5 < 2 ^ 53) by done. lia. }
    assert (Hk4 : k + 1 <= 5).
    { destruct (decide (k + 1 <= 5)) as [|Hbig]; [done|].
      assert (1024 ^ 5 <= 1024 ^ k) by (apply Z.pow_le_mono_r; lia). lia. }
    assert (k + 1 = 5) as Hk by lia. rewrite Hk in Hstep.
    rewrite (proj1 (proj2 (proj2 (proj2 (proj2 log_steps))))) in Hstep. lia.
  - (* the exact index *)
    split; [apply round3_bounds; lia|]. split.
    + destruct (decide (1024 ^ k <= sbytes)) as [|Hbelow]; [by left|].
      right. rewrite Hround by lia.
      unfold round3. by rewrite round_half_even_multiple.
    + intros Hs.
      assert (Hxs : x = sbytes).
      { apply float_of_int_small. assert (1024 ^ 5 < 2 ^ 53) by done. lia. }
      rewrite <- Hxs. lia.
Qed.

Lemma readable_size_range_witness :
  (exists unit thousandths,
     readable_size (1024 ^ 5 - 1)
       = Returns (float_repr thousandths +:+ " " +:+ unit) /\
     1000 <= thousandths <= 1024000 /\
     (1024 ^ unit_index (1024 ^ 5 - 1) <= 1024 ^ 5 - 1 \/ thousandths = 1000)) /\
  readable_size (1024 ^ 5 - 1) = Returns "1.0 PiB" /\
  readable_size 1073741300 = Returns "1024.0 MiB".
Proof.
  split; [|split; [vm_compute; reflexivity|vm_compute; reflexivity]].
  destruct (readable_size_range (1024 ^ 5 - 1))
    as (unit & t & _ & Hrun & Ht & Hunit & _).
  - vm_compute. split; reflexivity.
  - exists unit, t. split; [exact Hrun|]. split; [exact Ht|exact Hunit].
Defined.

Lemma unit_index_multiple m k :
  1 <= m < 1024 -> 0 <= k <= 8 -> unit_index (m * 1024 ^ k) = k.
Proof.
  intros [Hm1 Hm2] Hk. unfold unit_index.
  assert (Hm53 : 0 < m < 2 ^ 53) by (assert (1024 < 2 ^ 53) by done; lia).
  rewrite pow_1024 by lia.
  rewrite float_of_int_multiple by (done || lia).
  assert (Hidx : Z.log2 (m * 2 ^ (10 * k)) `div` 10 = k).
  { rewrite Z.log2_mul_pow2 by lia.
    assert (HL : 0 <= Z.log2 m < 10).
    { split; [apply Z.log2_nonneg|]. apply Z.log2_lt_pow2; lia. }
    replace (10 * k + Z.log2 m) with (Z.log2 m + k * 10) by lia.
    rewrite Z.div_add by lia. rewrite Z.div_small by lia. lia. }
  rewrite Hidx. case_decide as Hstep; [exfalso|done].
  assert (Hbelow : 1023 * 2 ^ (10 * k) < log_step (k + 1)).
  { assert (Hcases : k = 0 \/ k = 1 \/ k = 2 \/ k = 3 \/ k = 4 \/ k = 5 \/
                     k = 6 \/ k = 7 \/ k = 8) by lia.
    destruct Hcases as [->|[->|[->|[->|[->|[->|[->|[->| ->]]]]]]]];
      vm_compute; reflexivity. }
  assert (0 < 2 ^ (10 * k)) by (apply Z.pow_pos_nonneg; lia).
  nia.
Qed.

Lemma round3_multiple m p : 0 < p -> round3 (m * p) p = 1000 * m.
Proof.
  intros Hp. unfold round3.
  replace (1000 * (m * p)) with (1000 * m * p) by lia.
  by apply round_half_even_multiple.
Qed.

Lemma float_repr_whole m : float_repr (1000 * m) = pretty m +:+ ".0".
Proof.
  unfold float_repr.
  replace (1000 * m) with (m * 1000) by lia.
  rewrite Z.div_mul, Z.mod_mul by lia. reflexivity.
Qed.

(** X6: a size that is a whole number [m] of units, [1 <= m < 1024], prints
    as that number with one zero after the point, followed by the unit:
    the quotient is a float and nothing trims it. *)
Theorem readable_size_whole_units (m k : Z) :
  1 <= m < 1024 -> 0 <= k <= 8 ->
  exists unit,
    units !! Z.to_nat k = Some unit /\
    readable_size (m * 1024 ^ k) = Returns ((pretty m +:+ ".0") +:+ " " +:+ unit).
Proof.
  intros Hm Hk.
  destruct (units_lookup_small k) as [unit Hunit]; [lia|].
  exists unit. split; [done|].
  assert (Hp : 0 < 1024 ^ k) by (apply Z.pow_pos_nonneg; lia).
  assert (Hlt : m * 1024 ^ k < 1024 ^ 9).
  { apply Z.lt_le_trans with (1024 * 1024 ^ k); [nia|].
    rewrite <- Z.pow_succ_r by lia. apply Z.pow_le_mono_r; lia. }
  unfold readable_size.
  rewrite decide_False by nia.
  rewrite unit_index_multiple by lia.
  rewrite decide_False by lia.
  rewrite decide_False by by apply below_float_overflow.
  assert (Hm53 : 0 < m < 2 ^ 53) by (assert (1024 < 2 ^ 53) by done; lia).
  assert (Hf : float_of_int (m * 1024 ^ k) = m * 1024 ^ k).
  { rewrite pow_1024 by lia. apply float_of_int_multiple; [done|lia]. }
  rewrite Hf.
  by rewrite round3_multiple, float_repr_whole, Hunit.
Qed.

Lemma readable_size_whole_units_witness :
  readable_size (5 * 1024 ^ 3) = Returns "5.0 GiB".
Proof.
  destruct (readable_size_whole_units 5 3) as (unit & Hunit & Hrun).
  - lia.
  - lia.
  - rewrite Hrun. vm_compute in Hunit. injection Hunit as <-.
    vm_compute. reflexivity.
Defined.

(** ** [_ls], beyond the claims *)

(** X8: when the traversal yields no file (the root is missing or empty, or
    holds links alone), [_ls] returns without printing, warning, hashing or
    looking anything up: the state is left as it was. *)
Theorem ls_nothing_traversed (w : World) (path : string) (md5 : bool)
    (s : State) :
  traversed w path true = [] ->
  _ls w path md5 s = (Returns tt, s).
Proof. intros Hnone. unfold _ls. by rewrite Hnone. Qed.

Lemma ls_nothing_traversed_witness :
  w_walk Demo.tree (normalized Demo.tree "/nowhere") = [] /\
  _ls Demo.tree "/nowhere" false initial = (Returns tt, initial).
Proof.
  split; [reflexivity|].
  apply (ls_nothing_traversed Demo.tree "/nowhere" false initial).
  reflexivity.
Defined.

Section LsMore.

Variable w : World.
Variable files : list string.

Lemma candidates_submseteq {K} (items : buckets K) :
mjoin (candidates items) ⊆+ mjoin items.*2.
Proof.
rewrite <- singletons_candidates_perm. apply submseteq_inserts_l. done.
Qed.

Lemma size_buckets_submseteq : mjoin (size_buckets w files).*2 ⊆+ files.
Proof.
unfold size_buckets. rewrite group_perm. simpl.
apply sublist_submseteq, sublist_filter.
Qed.

Lemma mini_buckets_submseteq :
mjoin (mini_buckets w files).*2 ⊆+ mjoin (candidates (size_buckets w files)).
Proof. apply (regroup_submseteq w true id (size_buckets w files) []). Qed.

Lemma submseteq_NoDup {A} (l k : list A) : l ⊆+ k -> NoDup k -> NoDup l.
Proof.
intros Hsub Hnd. destruct (submseteq_Permutation _ _ Hsub) as [rest Hperm].
rewrite Hperm in Hnd. by apply NoDup_app in Hnd as [? _].
Qed.

Lemma partial_candidates_NoDup :
NoDup files -> NoDup (mjoin (candidates (size_buckets w files))).
Proof.
intros Hnd. eapply submseteq_NoDup; [|exact Hnd].
etrans; [apply candidates_submseteq|apply size_buckets_submseteq].
Qed.

Lemma full_candidates_NoDup :
NoDup files -> NoDup (mjoin (candidates (mini_buckets w files))).
Proof.
intros Hnd. eapply submseteq_NoDup; [|by apply partial_candidates_NoDup].
etrans; [apply candidates_submseteq|apply mini_buckets_submseteq].
Qed.

Lemma elem_partial_candidates file :
file ∈ mjoin (candidates (size_buckets w files)) <->
exists size,
  file ∈ files /\ w_getsize w file = Returns size /\
  ~ small (peers1 w files size).
Proof.
rewrite list_elem_of_join. split.
- intros (bucket & Hfile & (size & Hin & Hbig)%elem_of_candidates).
  apply size_bucket_elem in Hin as [-> _].
  apply elem_of_peers1 in Hfile as [? ?]. by exists size.
- intros (size & Hfile & Hsize & Hbig).
  assert (Hin : file ∈ peers1 w files size) by by apply elem_of_peers1.
  exists (peers1 w files size). split; [done|].
  apply elem_of_candidates. exists size. split; [|done].
  apply size_bucket_intro.
  intros Hnil. rewrite Hnil in Hin. by apply elem_of_nil in Hin.
Qed.

Lemma elem_full_candidates file :
file ∈ mjoin (candidates (mini_buckets w files)) <->
exists size mini,
  file ∈ files /\ w_getsize w file = Returns size /\
  w_md5sum w file true = Returns mini /\
  ~ small (peers2 w files size mini).
Proof.
rewrite list_elem_of_join. split.
- intros (bucket & Hfile & ([mini size] & Hin & Hbig)%elem_of_candidates).
  apply mini_bucket_elem in Hin as (-> & _ & _).
  apply elem_of_peers2 in Hfile as (? & ? & ?). by exists size, mini.
- intros (size & mini & Hfile & Hsize & Hmini & Hbig).
  assert (Hin : file ∈ peers2 w files size mini) by by apply elem_of_peers2.
  exists (peers2 w files size mini). split; [done|].
  apply elem_of_candidates. exists (mini, size). split; [|done].
  apply mini_bucket_intro.
  + pose proof (peers2_le w files size mini). lia.
  + intros Hnil. rewrite Hnil in Hin. by apply elem_of_nil in Hin.
Qed.

Lemma elem_failures_inv {A} (probe : string -> outcome A) (l : list string)
  line :
line ∈ failures probe l ->
exists file e, file ∈ l /\ probe file = Raises e /\ line = warning file e.
Proof.
unfold failures. intros (file & Hline & Hfile)%list_elem_of_bind.
destruct (probe file) as [a|e] eqn:Hp.
- by apply elem_of_nil in Hline.
- apply list_elem_of_singleton in Hline. by exists file, e.
Qed.

Lemma elem_stat_failure_inv bucket line :
line ∈ stat_failure w bucket ->
exists file e, file ∈ bucket /\ w_stat w file = Raises e /\
               line = warning file e.
Proof.
unfold stat_failure. intros (file & e & Hin & Hp & ->)%elem_failures_inv.
exists file, e. split; [|done].
eapply elem_of_submseteq; [exact Hin|apply submseteq_take].
Qed.

(** Whatever is on the error stream after a scan of [files] is the warning
  of a traversed file at a probe that failed on it. *)
Lemma ls_errors_inv line :
line ∈ ls_errors w files ->
exists file e,
  file ∈ files /\ line = warning file e /\
  (w_getsize w file = Raises e \/ w_md5sum w file true = Raises e \/
   w_md5sum w file false = Raises e \/ w_stat w file = Raises e).
Proof.
unfold ls_errors. rewrite !elem_of_app.
intros [H|[H|[H|H]]].
- apply elem_failures_inv in H as (file & e & Hin & Hp & ->).
  exists file, e. by repeat split; try left.
- unfold stage_errors in H.
  apply list_elem_of_bind in H as ([size bucket] & Hline & Hitem).
  cbn [snd] in Hline. apply size_bucket_elem in Hitem as [-> _].
  destruct (decide (small (peers1 w files size))).
  + apply elem_stat_failure_inv in Hline as (file & e & Hin & Hp & ->).
    apply elem_of_peers1 in Hin as [Hin _].
    exists file, e. split; [done|]. split; [done|]. by do 3 right.
  + apply elem_failures_inv in Hline as (file & e & Hin & Hp & ->).
    apply elem_of_peers1 in Hin as [Hin _].
    exists file, e. split; [done|]. split; [done|]. right. by left.
- unfold stage_errors in H.
  apply list_elem_of_bind in H as ([[mini size] bucket] & Hline & Hitem).
  cbn [snd] in Hline. apply mini_bucket_elem in Hitem as (-> & _ & _).
  destruct (decide (small (peers2 w files size mini))).
  + apply elem_stat_failure_inv in Hline as (file & e & Hin & Hp & ->).
    apply elem_of_peers2 in Hin as (Hin & _ & _).
    exists file, e. split; [done|]. split; [done|]. by do 3 right.
  + apply elem_failures_inv in Hline as (file & e & Hin & Hp & ->).
    apply elem_of_peers2 in Hin as (Hin & _ & _).
    exists file, e. split; [done|]. split; [done|]. right. right. by left.
- apply list_elem_of_bind in H as (bucket & Hline & Hb).
  apply elem_stat_failure_inv in Hline as (file & e & Hin & Hp & ->).
  exists file, e. split; [|split; [done|by do 3 right]].
  apply (final_bucket_elems w files bucket); [|done].
  unfold final_buckets. rewrite !elem_of_app. by do 2 right.
Qed.

End LsMore.

Lemma prefix_app_cases {A} (l l1 l2 : list A) :
  l `prefix_of` l1 ++ l2 ->
  (l `prefix_of` l1 /\ l <> l1) \/ (exists k, l = l1 ++ k /\ k `prefix_of` l2).
Proof.
  revert l. induction l1 as [|x l1 IH]; intros l Hpre.
  { right. by exists l. }
  destruct l as [|y l].
  { left. split; [apply prefix_nil|done]. }
  simpl in Hpre.
  pose proof (prefix_cons_inv_1 _ _ _ _ Hpre) as ->.
  apply prefix_cons_inv_2 in Hpre.
  destruct (IH l Hpre) as [[Hp Hne]|(k & -> & Hk)].
  - left. split; [by apply prefix_cons|congruence].
  - right. by exists k.
Qed.

Lemma prefix_fmap_inv {A B} (f : A -> B) (l : list B) (k : list A) :
  l `prefix_of` f <$> k -> exists k0, l = f <$> k0 /\ k0 `prefix_of` k.
Proof.
  intros [rest Heq].
  apply fmap_app_inv in Heq as (k0 & k1 & -> & -> & ->).
  exists k0. split; [done|]. by exists k1.
Qed.

Lemma prefix_NoDup {A} (l k : list A) : l `prefix_of` k -> NoDup k -> NoDup l.
Proof. intros [rest ->] Hnd. by apply NoDup_app in Hnd as [? _]. Qed.

(** X9: in every scan whose traversal yields each path once, whether it
    runs to its end or is cut short, every partial digest is asked for
    before any full one, no file is hashed twice in either way, a partial
    digest is asked only for traversed files whose size was read and is
    shared, and a full digest only for files whose partial digest was asked
    for and returned. *)
Theorem ls_hash_discipline (w : World) (path : string) (md5 : bool) :
  let files := traversed w path true in
  NoDup files ->
  exists r s' partial full,
    _ls w path md5 initial = (r, s') /\
    hashed s' = ((fun file => (file, true)) <$> partial)
                  ++ ((fun file => (file, false)) <$> full) /\
    NoDup partial /\ NoDup full /\
    (forall file, file ∈ partial ->
       exists size, file ∈ files /\ w_getsize w file = Returns size /\
                    ~ small (peers1 w files size)) /\
    (forall file, file ∈ full ->
       file ∈ partial /\ returned (w_md5sum w file true) = true) /\
    (r = Returns tt ->
       partial = mjoin (candidates (size_buckets w files)) /\
       full = mjoin (candidates (mini_buckets w files))).
Proof.
  intros files Hnd.
  destruct (ls_scan w path md5)
    as (r & s' & bks & Hrun & _ & _ & _ & Hph & _ & _ & Hret & _ & _).
  fold files in Hph, Hret.
  set (P := mjoin (candidates (size_buckets w files))).
  set (F := mjoin (candidates (mini_buckets w files))).
  assert (HP : NoDup P) by by apply partial_candidates_NoDup.
  assert (HF : NoDup F) by by apply full_candidates_NoDup.
  assert (HFP : forall file, file ∈ F ->
            file ∈ P /\ returned (w_md5sum w file true) = true).
  { intros file (size & mini & Hfile & Hsize & Hmini & Hbig)%elem_full_candidates.
    split; [|by rewrite Hmini].
    apply elem_partial_candidates. exists size. split; [done|]. split; [done|].
    pose proof (peers2_le w files size mini). lia. }
  assert (Hsplit : exists partial full,
            hashed s' = ((fun file => (file, true)) <$> partial)
                          ++ ((fun file => (file, false)) <$> full) /\
            partial `prefix_of` P /\ full `prefix_of` F /\
            (full <> [] -> partial = P) /\
            (hashed s' = ls_hashed w files -> partial = P /\ full = F)).
  { unfold ls_hashed, stage_hashed in *. fold P F in Hph |- *.
    apply prefix_app_cases in Hph as [[Hp Hne]|(k & Hk & Hp)].
    - apply prefix_fmap_inv in Hp as (p0 & Hp0 & Hpre).
      exists p0, []. rewrite app_nil_r. split; [done|].
      split; [done|]. split; [apply prefix_nil|]. split; [done|].
      intros Heq. exfalso. apply Hne.
      destruct Hpre as [rest Hrest].
      assert (Hlen : length p0 = (length P + length F)%nat).
      { apply (f_equal length) in Heq. rewrite Hp0 in Heq.
        by rewrite length_app, !length_fmap in Heq. }
      assert (rest = []) as ->.
      { apply (f_equal length) in Hrest. rewrite length_app in Hrest.
        destruct rest; [done|simpl in Hrest; lia]. }
      rewrite app_nil_r in Hrest. by rewrite Hp0, Hrest.
    - apply prefix_fmap_inv in Hp as (f0 & -> & Hpre).
      exists P, f0. split; [done|]. split; [done|]. split; [done|].
      split; [done|]. intros Heq. split; [done|]. rewrite Hk in Heq.
      apply app_inv_head in Heq.
      eapply (inj (fmap (fun file : string => (file, false)))). exact Heq. }
  destruct Hsplit as (partial & full & Hh & Hp & Hf & Hfull & Hall).
  exists r, s', partial, full. split; [done|]. split; [done|].
  split; [by eapply prefix_NoDup|]. split; [by eapply prefix_NoDup|].
  split; [|split].
  - intros file Hfile. apply elem_partial_candidates.
    by eapply elem_of_prefix.
  - intros file Hfile.
    assert (Hne : full <> []) by (intros ->; by apply elem_of_nil in Hfile).
    rewrite (Hfull Hne). apply HFP. by eapply elem_of_prefix.
  - intros Hr. destruct (Hret Hr) as (_ & _ & Heq). by apply Hall.
Qed.

Lemma ls_hash_discipline_witness :
  exists s',
    _ls Demo.tree "/d" false initial = (Returns tt, s') /\
    hashed s'
      = ((fun file => (file, true)) <$> ["/d/a"; "/d/b"; "/d/c"; "/d/d"])
          ++ ((fun file => (file, false)) <$> ["/d/a"; "/d/b"; "/d/c"]).
Proof.
  destruct (ls_hash_discipline Demo.tree "/d" false)
    as (r & s' & partial & full & Hrun & Hh & _ & _ & _ & _ & Hret).
  - apply (proj1 (bool_decide_eq_true _)). vm_compute. reflexivity.
  - destruct (ls_scan Demo.tree "/d" false)
      as (r' & s'' & bks & Hrun' & _ & _ & _ & _ & _ & _ & _ & Hren & _).
    rewrite (Hren tree_renderable) in Hrun'. rewrite Hrun' in Hrun.
    injection Hrun as <- <-.
    destruct (Hret eq_refl) as [-> ->].
    exists s''. split; [exact Hrun'|]. rewrite Hh. vm_compute. reflexivity.
Defined.

(** X10: nothing but warnings reaches the error stream, and only for
    failures: in every scan, whether it runs to its end or is cut short,
    every line on the error stream names a traversed file and the error
    that the size probe, a digest or [os.stat] raised on that file. *)
Theorem ls_warns_only_of_failures (w : World) (path : string) (md5 : bool) :
  let files := traversed w path true in
  exists r s',
    _ls w path md5 initial = (r, s') /\
    forall line, line ∈ stderr s' ->
      exists file e,
        file ∈ files /\
        line = "WARNING: Failed to get info on " +:+ DQ +:+ file +:+ DQ +:+
               " due to " +:+ DQ +:+ exn_str e +:+ DQ +:+ " error!" /\
        (w_getsize w file = Raises e \/ w_md5sum w file true = Raises e \/
         w_md5sum w file false = Raises e \/ w_stat w file = Raises e).
Proof.
  intros files.
  destruct (ls_scan w path md5)
    as (r & s' & bks & Hrun & _ & _ & Hpe & _).
  exists r, s'. split; [done|]. intros line Hline.
  apply (ls_errors_inv w files). by eapply elem_of_prefix.
Qed.

Lemma ls_warns_only_of_failures_witness :
  let dq := String (Ascii.ascii_of_nat 34) "" in
  exists r s',
    _ls Demo.vanishing "/v" false initial = (r, s') /\
    (forall line, line ∈ stderr s' ->
       exists file e,
         line = "WARNING: Failed to get info on " +:+ DQ +:+ file +:+ DQ +:+
                " due to " +:+ DQ +:+ exn_str e +:+ DQ +:+ " error!") /\
    stderr s' !! 0%nat
      = Some ("WARNING: Failed to get info on " +:+ dq +:+ "/v/x" +:+ dq +:+
              " due to " +:+ dq +:+ "[Errno 2] No such file or directory"
              +:+ dq +:+ " error!").
Proof.
  intros dq.
  destruct (ls_warns_only_of_failures Demo.vanishing "/v" false)
    as (r & s' & Hrun & Hlines).
  exists r, s'. split; [exact Hrun|]. split.
  - intros line Hline. destruct (Hlines line Hline) as (file & e & _ & Heq & _).
    exists file, e. exact Heq.
  - replace s' with (_ls Demo.vanishing "/v" false initial).2 by by rewrite Hrun.
    vm_compute. reflexivity.
Defined.

(** X11: a scan prints at most one line per traversed file, whether it
    runs to its end or is cut short. *)
Theorem ls_prints_at_most_one_line_per_file (w : World) (path : string)
    (md5 : bool) :
  exists r s',
    _ls w path md5 initial = (r, s') /\
    (length (stdout s') <= length (traversed w path true))%nat.
Proof.
  set (files := traversed w path true).
  destruct (ls_scan w path md5)
    as (r & s' & bks & Hrun & Hout & Hpre & _).
  exists r, s'. split; [done|]. fold files in Hpre.
  rewrite <- (Forall2_length _ _ _ Hout).
  etrans; [apply prefix_length, Hpre|].
  etrans; [apply length_filter|].
  etrans; [|apply submseteq_length, (final_buckets_submseteq w files)].
  pose proof (final_buckets_nonempty w files) as Hne.
  induction Hne as [|bucket rest Hb _ IH]; [done|].
  change (mjoin (bucket :: rest)) with (bucket ++ mjoin rest).
  rewrite length_app. destruct bucket; [done|]. simpl. lia.
Qed.

(** ** A traversal without two files of one size *)

Section DistinctSizes.

Context {K : Type} `{EqDecision K}.

Lemma bucket_append_new (k : K) file (d : buckets K) :
k ∉ d.*1 -> bucket_append k file d = d ++ [(k, [file])].
Proof.
induction d as [|[k' files] d IH]; [done|].
cbn [bucket_append fmap list_fmap fst].
intros [Hne Hin]%not_elem_of_cons.
rewrite decide_False by done. simpl. f_equal. by apply IH.
Qed.

Lemma group_fresh (key : string -> option K) files : forall d : buckets K,
NoDup (omap key files) ->
(forall k, k ∈ omap key files -> k ∉ d.*1) ->
group key files d
  = d ++ omap (fun file => k ← key file; Some (k, [file])) files.
Proof.
induction files as [|file rest IH]; intros d Hnd Hfresh.
{ simpl. by rewrite app_nil_r. }
cbn [group omap list_omap] in *.
destruct (key file) as [k|] eqn:Hkey; cbn [mbind option_bind] in *.
- apply NoDup_cons in Hnd as [Hk Hnd].
  rewrite bucket_append_new by (apply Hfresh; apply list_elem_of_here).
  rewrite IH; [by rewrite <- app_assoc|done|].
  intros k' Hk'. rewrite fmap_app, elem_of_app. intros [Hd|Hd].
  + by apply (Hfresh k'); [apply list_elem_of_further|].
  + apply list_elem_of_singleton in Hd. simpl in Hd. by subst.
- by apply IH.
Qed.

End DistinctSizes.

Section DistinctSizesLs.

Variable w : World.
Variable files : list string.
Hypothesis Hdistinct : NoDup (omap (size_key w) files).

Lemma size_buckets_distinct :
size_buckets w files
  = omap (fun file => size ← size_key w file; Some (size, [file])) files.
Proof.
unfold size_buckets. rewrite group_fresh; [done|done|].
intros k _. apply not_elem_of_nil.
Qed.

Lemma size_buckets_all_small :
Forall (fun item : Z * list string => small item.2) (size_buckets w files).
Proof.
rewrite size_buckets_distinct. clear Hdistinct.
induction files as [|file rest IH]; [constructor|].
cbn [omap list_omap]. destruct (size_key w file); cbn [mbind option_bind];
  [constructor; [simpl; lia|done]|done].
Qed.

Lemma all_small_singletons {K} (items : buckets K) :
Forall (fun item : K * list string => small item.2) items ->
singletons items = items.*2 /\ candidates items = [] /\
forall first_block_only (size_of : K -> Z) hashes,
  regroup w first_block_only size_of items hashes = hashes.
Proof.
induction 1 as [|[k bucket] rest Hsmall _ (IH1 & IH2 & IH3)]; [done|].
cbn [snd] in Hsmall.
rewrite singletons_cons, candidates_cons, !decide_True by done.
split; [by rewrite IH1|]. split; [done|].
intros first_block_only size_of hashes. cbn [regroup].
by rewrite decide_True, IH3 by done.
Qed.

Lemma final_buckets_distinct :
final_buckets w files
  = (fun file => [file])
      <$> filter (fun file => is_Some (size_key w file)) files /\
ls_hashed w files = [].
Proof.
destruct (all_small_singletons _ size_buckets_all_small) as (Hs & Hc & Hr).
assert (Hmini : mini_buckets w files = []) by apply Hr.
assert (Hfull : full_buckets w files = [])
  by (unfold full_buckets; by rewrite Hmini).
split.
- unfold final_buckets. rewrite Hs, Hmini, Hfull. simpl.
  rewrite app_nil_r, size_buckets_distinct. clear.
  induction files as [|file rest IH]; [done|].
  cbn [omap list_omap]. rewrite filter_cons.
  destruct (size_key w file) as [size|]; cbn [mbind option_bind].
  + rewrite decide_True by done. rewrite !fmap_cons. by rewrite IH.
  + rewrite decide_False; [done|]. by intros [? ?].
- unfold ls_hashed, stage_hashed. by rewrite Hc, Hmini.
Qed.

End DistinctSizesLs.

Lemma filter_readable_singletons (w : World) (l : list string) :
  filter (readable w) ((fun file => [file]) <$> l)
    = (fun file => [file])
        <$> filter (fun file => returned (w_stat w file) = true) l.
Proof.
  induction l as [|file rest IH]; [done|].
  rewrite fmap_cons, !filter_cons, IH. simpl.
  by destruct (decide (returned (w_stat w file) = true)).
Qed.

Lemma plain_renderable :
  Forall (renderable Samples.plain) (traversed Samples.plain "/p" true).
Proof. apply (proj1 (bool_decide_eq_true _)). vm_compute. reflexivity. Qed.

(** X12: when the sizes that could be read are pairwise distinct, the scan
    computes no digest at all; if moreover the date and the size of every
    traversed file that [os.stat] can read can be rendered, the scan runs
    to its end and prints one line, with an empty last field, for each file
    whose size and metadata could be read, in the order of the traversal. *)
Theorem ls_distinct_sizes (w : World) (path : string) (md5 : bool) :
  let files := traversed w path true in
  NoDup (omap (size_key w) files) ->
  exists r s',
    _ls w path md5 initial = (r, s') /\
    hashed s' = [] /\
    (Forall (renderable w) files ->
       r = Returns tt /\
       Forall2 (fun file line => renders w [file] line)
         (filter (fun file => returned (w_stat w file) = true)
            (filter (fun file => is_Some (size_key w file)) files))
         (stdout s')).
Proof.
  intros files Hdistinct.
  destruct (final_buckets_distinct w files Hdistinct) as [Hfinal Hnone].
  destruct (ls_scan w path md5)
    as (r & s' & bks & Hrun & Hout & _ & _ & Hph & _ & _ & Hret & Hren & _).
  fold files in Hph, Hret, Hren.
  exists r, s'. split; [done|]. split.
  { rewrite Hnone in Hph. by apply prefix_nil_inv. }
  intros Hr. specialize (Hren Hr). split; [done|].
  destruct (Hret Hren) as (-> & _).
  unfold emitted in Hout.
  rewrite Hfinal, filter_readable_singletons in Hout.
  exact (proj1 (Forall2_fmap_l (fun file : string => [file]) (renders w) _ _) Hout).
Qed.

Lemma ls_distinct_sizes_witness :
  let tab := String (Ascii.ascii_of_nat 9) "" in
  exists s',
    _ls Samples.plain "/p" false initial = (Returns tt, s') /\
    hashed s' = [] /\
    Forall2 (fun file line => renders Samples.plain [file] line)
      ["/p/one"; "/p/two"] (stdout s') /\
    stdout s'
      = ["31" +:+ tab +:+ "-rw-r--r--" +:+ tab +:+ "alice" +:+ tab +:+ "staff"
         +:+ tab +:+ "10" +:+ tab +:+ "10.0 B" +:+ tab +:+ "1970-01-01-00:00"
         +:+ tab +:+ "/p/one" +:+ tab;
         "32" +:+ tab +:+ "-rw-r--r--" +:+ tab +:+ "1001" +:+ tab +:+ "staff"
         +:+ tab +:+ "2048" +:+ tab +:+ "2.0 KiB" +:+ tab +:+ "1970-01-01-00:00"
         +:+ tab +:+ "/p/two" +:+ tab].
Proof.
  intros tab.
  destruct (ls_distinct_sizes Samples.plain "/p" false)
    as (r & s' & Hrun & Hh & Hret).
  - apply (proj1 (bool_decide_eq_true _)). vm_compute. reflexivity.
  - destruct (Hret plain_renderable) as [-> Hout].
    exists s'. split; [exact Hrun|]. split; [exact Hh|]. split; [exact Hout|].
    replace s' with (_ls Samples.plain "/p" false initial).2 by by rewrite Hrun.
    vm_compute. reflexivity.
Defined.

(** ** The output when owner ids and group ids do not meet *)

Section IdsApart.

Variable w : World.
Variable files : list string.
Hypothesis Hren : Forall (renderable w) files.
Hypothesis Hapart : ids_apart w files.

Lemma cache_typed_insert_user users uid :
cache_typed w files users -> is_uid w files uid ->
cache_typed w files (<[uid := resolved w "user" uid]> users).
Proof.
intros Hc Hu id v. destruct (decide (id = uid)) as [->|Hne].
- rewrite lookup_insert_eq. intros [= <-]. by left.
- rewrite lookup_insert_ne by done. apply Hc.
Qed.

Lemma cache_typed_insert_group users gid :
cache_typed w files users -> is_gid w files gid ->
cache_typed w files (<[gid := resolved w "group" gid]> users).
Proof.
intros Hc Hg id v. destruct (decide (id = gid)) as [->|Hne].
- rewrite lookup_insert_eq. intros [= <-]. by right.
- rewrite lookup_insert_ne by done. apply Hc.
Qed.

Lemma name_typed_user users uid s :
cache_typed w files users -> is_uid w files uid ->
exists users' s',
  name w uid "user" users s = (Returns (resolved w "user" uid, users'), s') /\
  cache_typed w files users'.
Proof.
intros Hc Hu. destruct (users !! uid) as [v|] eqn:Hl.
- destruct (Hc uid v Hl) as [[_ ->]|[Hg _]]; [|by destruct (Hapart uid)].
  exists users, s. split; [by apply name_cached|done].
- eexists _, _. split; [by apply name_fresh; [left|]|].
  by apply cache_typed_insert_user.
Qed.

Lemma name_typed_group users gid s :
cache_typed w files users -> is_gid w files gid ->
exists users' s',
  name w gid "group" users s = (Returns (resolved w "group" gid, users'), s') /\
  cache_typed w files users'.
Proof.
intros Hc Hg. destruct (users !! gid) as [v|] eqn:Hl.
- destruct (Hc gid v Hl) as [[Hu _]|[_ ->]]; [by destruct (Hapart gid)|].
  exists users, s. split; [by apply name_cached|done].
- eexists _, _. split; [by apply name_fresh; [right|]|].
  by apply cache_typed_insert_group.
Qed.

Lemma report_exact file others users s :
file ∈ files -> cache_typed w files users ->
exists users' s',
  report w file (join "|" others) users s = (Returns users', s') /\
  cache_typed w files users' /\
  stdout s' = stdout s ++ record w (file :: others).
Proof.
intros Hfile Hc. unfold report, record. rewrite bind_run.
destruct (w_stat w file) as [st|e] eqn:Hst.
- rewrite Forall_forall in Hren.
  destruct (renderable_returns w file st (Hren _ Hfile) Hst)
    as (mdate & hsize & Hok).
  destruct (file_stats_stat w file users s st Hst)
    as (owner & group & users1 & users2 & s1 & s2 & Hown & Hgrp & -> & Ho & _).
  rewrite Hok.
  destruct (name_typed_user users (st_uid st) s Hc)
    as (users1' & s1' & Hown' & Hc1); [by exists file, st|].
  rewrite Hown' in Hown. injection Hown as <- <- <-.
  destruct (name_typed_group users1' (st_gid st) s1' Hc1)
    as (users2' & s2' & Hgrp' & Hc2); [by exists file, st|].
  rewrite Hgrp' in Hgrp. injection Hgrp as <- <- <-.
  simpl. rewrite bind_run. simpl.
  eexists _, _. split; [reflexivity|]. split; [done|].
  simpl. by rewrite Ho, join_piped.
- destruct (file_stats_fails w file users s e Hst) as (s' & -> & Ho & _).
  simpl. exists users, s'. split; [done|]. split; [done|].
  by rewrite Ho, app_nil_r.
Qed.

Lemma list_bind_app {A B} (f : A -> list B) (l k : list A) :
(l ++ k) ≫= f = (l ≫= f) ++ (k ≫= f).
Proof.
induction l as [|x l IH]; [done|].
change (((x :: l) ++ k) ≫= f) with (f x ++ ((l ++ k) ≫= f)).
change ((x :: l) ≫= f) with (f x ++ (l ≫= f)).
by rewrite IH, app_assoc.
Qed.

Lemma ls_stage_exact {K} first_block_only (size_of : K -> Z) items :
Forall (fun item : K * list string => item.2 <> []) items ->
Forall (fun item : K * list string => forall f, f ∈ item.2 -> f ∈ files)
  items ->
forall users hashes s,
cache_typed w files users ->
exists users' s',
  ls_stage w first_block_only size_of items users hashes s
    = (Returns (users', regroup w first_block_only size_of items hashes), s') /\
  cache_typed w files users' /\
  stdout s' = stdout s ++ (singletons items ≫= record w).
Proof.
induction 1 as [|[k fs] rest Hne _ IH]; intros Hin users hashes s Hc.
{ exists users, s. split; [done|]. split; [done|]. by rewrite app_nil_r. }
apply Forall_cons in Hin as [Hk Hin].
simpl in Hne, Hk. cbn [ls_stage regroup]. rewrite singletons_cons.
destruct (decide (small fs)) as [Hsmall|Hbig].
- destruct fs as [|file [|]]; [done| |simpl in Hsmall; lia].
  rewrite bind_run.
  destruct (report_exact file [] users s) as (users1 & s1 & Hrep & Hc1 & Ho1);
    [apply Hk, list_elem_of_here|done|].
  simpl in Hrep. rewrite Hrep.
  destruct (IH Hin users1 hashes s1 Hc1) as (users2 & s2 & -> & Hc2 & Ho2).
  exists users2, s2. split; [done|]. split; [done|].
  change (([file] :: singletons rest) ≫= record w)
    with (record w [file] ++ (singletons rest ≫= record w)).
  by rewrite Ho2, Ho1, app_assoc.
- rewrite bind_run.
  destruct (hash_files_run w first_block_only (size_of k) fs hashes s)
    as (s1 & -> & (Ho1 & _)).
  destruct (IH Hin users (group (hash_key w first_block_only (size_of k)) fs hashes)
              s1 Hc) as (users2 & s2 & -> & Hc2 & Ho2).
  exists users2, s2. split; [done|]. split; [done|].
  by rewrite Ho2, Ho1, app_nil_r.
Qed.

Lemma ls_dups_exact items :
Forall (fun item : (string * Z) * list string => item.2 <> []) items ->
Forall (fun item : (string * Z) * list string =>
          forall f, f ∈ item.2 -> f ∈ files) items ->
forall users s,
cache_typed w files users ->
exists users' s',
  ls_dups w items users s = (Returns users', s') /\
  cache_typed w files users' /\
  stdout s' = stdout s ++ (items.*2 ≫= record w).
Proof.
induction 1 as [|[k fs] rest Hne _ IH]; intros Hin users s Hc.
{ exists users, s. split; [done|]. split; [done|]. by rewrite app_nil_r. }
apply Forall_cons in Hin as [Hk Hin].
simpl in Hne, Hk. cbn [ls_dups]. destruct fs as [|file others]; [done|].
rewrite bind_run.
destruct (report_exact file others users s) as (users1 & s1 & -> & Hc1 & Ho1);
  [apply Hk, list_elem_of_here|done|].
destruct (IH Hin users1 s1 Hc1) as (users2 & s2 & -> & Hc2 & Ho2).
exists users2, s2. split; [done|]. split; [done|].
change ((((k, file :: others) :: rest).*2) ≫= record w)
  with (record w (file :: others) ++ (rest.*2 ≫= record w)).
by rewrite Ho2, Ho1, app_assoc.
Qed.

Lemma size_buckets_elems :
Forall (fun item : Z * list string => forall f, f ∈ item.2 -> f ∈ files)
  (size_buckets w files).
Proof.
apply Forall_forall. intros [size bucket] Hin f Hf. cbn [snd] in Hf.
apply size_bucket_elem in Hin as [-> _].
by apply elem_of_peers1 in Hf as [? _].
Qed.

Lemma mini_buckets_elems :
Forall (fun item : (string * Z) * list string =>
          forall f, f ∈ item.2 -> f ∈ files) (mini_buckets w files).
Proof.
apply Forall_forall. intros [[mini size] bucket] Hin f Hf. cbn [snd] in Hf.
apply mini_bucket_elem in Hin as (-> & _ & _).
by apply elem_of_peers2 in Hf as (? & _).
Qed.

Lemma full_buckets_elems :
Forall (fun item : (string * Z) * list string =>
          forall f, f ∈ item.2 -> f ∈ files) (full_buckets w files).
Proof.
apply Forall_forall. intros [[full size] bucket] Hin f Hf. cbn [snd] in Hf.
apply full_bucket_elem in Hin as [-> _].
apply elem_full_bucket in Hf as (mini & Hf & _).
by apply elem_of_peers2 in Hf as (? & _).
Qed.

Lemma ls_exact path md5 s :
traversed w path true = files ->
exists s',
  _ls w path md5 s = (Returns tt, s') /\
  stdout s' = stdout s ++ (final_buckets w files ≫= record w).
Proof.
intros Htr. unfold _ls. rewrite Htr, bind_run.
destruct (ls_sizes_run w files [] s) as (s1 & -> & (Ho1 & _)).
fold (size_buckets w files). rewrite bind_run, ls_mini_stage.
destruct (ls_stage_exact true id (size_buckets w files)
            (size_buckets_nonempty w files) size_buckets_elems ∅ [] s1)
  as (users2 & s2 & -> & Hc2 & Ho2).
{ intros id v Hl. by rewrite lookup_empty in Hl. }
fold (mini_buckets w files). cbn beta iota. rewrite bind_run, ls_full_stage.
destruct (ls_stage_exact false snd (mini_buckets w files)
            (mini_buckets_nonempty w files) mini_buckets_elems users2 [] s2 Hc2)
  as (users3 & s3 & -> & Hc3 & Ho3).
fold (full_buckets w files). cbn beta iota. rewrite bind_run.
destruct (ls_dups_exact (full_buckets w files)
            (full_buckets_nonempty w files) full_buckets_elems users3 s3 Hc3)
  as (users4 & s4 & -> & Hc4 & Ho4).
exists s4. split; [done|].
unfold final_buckets. rewrite !list_bind_app.
by rewrite Ho4, Ho3, Ho2, Ho1, app_nil_r, !app_assoc.
Qed.

End IdsApart.

(** X13: when, among the traversed files, no number is both an owner id
    and a group id, and the date and the size of every traversed file that
    [os.stat] can read can be rendered, the scan runs to its end and what it
    prints is settled by its final buckets alone: for each final bucket in
    turn whose first path [os.stat] can read, the line of that path, with
    the owner resolved in the user database and the group in the group
    database (the id itself when unknown), followed by the path and the
    other paths of the bucket. *)
Theorem ls_output_when_ids_apart (w : World) (path : string) (md5 : bool) :
  let files := traversed w path true in
  Forall (renderable w) files ->
  ids_apart w files ->
  exists s',
    _ls w path md5 initial = (Returns tt, s') /\
    stdout s' = final_buckets w files ≫= record w.
Proof.
  intros files Hren Hapart.
  destruct (ls_exact w files Hren Hapart path md5 initial eq_refl)
    as (s' & Hrun & Ho).
  by exists s'.
Qed.

Lemma plain_ids_apart :
  ids_apart Samples.plain (traversed Samples.plain "/p" true).
Proof.
  intros id (f & st & _ & Hst & Hu) (g & st' & _ & Hst' & Hg).
  unfold Samples.plain, Demo.io_error in *. simpl in *.
  repeat case_decide; try discriminate;
    injection Hst as <-; injection Hst' as <-; simpl in *; lia.
Qed.

Lemma ls_output_when_ids_apart_witness :
  let tab := String (Ascii.ascii_of_nat 9) "" in
  exists s',
    _ls Samples.plain "/p" false initial = (Returns tt, s') /\
    stdout s'
      = ["31" +:+ tab +:+ "-rw-r--r--" +:+ tab +:+ "alice" +:+ tab +:+ "staff"
         +:+ tab +:+ "10" +:+ tab +:+ "10.0 B" +:+ tab +:+ "1970-01-01-00:00"
         +:+ tab +:+ "/p/one" +:+ tab;
         "32" +:+ tab +:+ "-rw-r--r--" +:+ tab +:+ "1001" +:+ tab +:+ "staff"
         +:+ tab +:+ "2048" +:+ tab +:+ "2.0 KiB" +:+ tab +:+ "1970-01-01-00:00"
         +:+ tab +:+ "/p/two" +:+ tab].
Proof.
  intros tab.
  destruct (ls_output_when_ids_apart Samples.plain "/p" false)
    as (s' & Hrun & Hout).
  - exact plain_renderable.
  - exact plain_ids_apart.
  - exists s'. split; [exact Hrun|]. rewrite Hout. vm_compute. reflexivity.
Defined.

(** ** Lookups in the account databases *)

Section Lookups.

Variable w : World.

Lemma cache_logged_queried users s s' :
queried s' = queried s -> cache_logged users s -> cache_logged users s'.
Proof. unfold cache_logged. by intros ->. Qed.

Lemma name_logged uid uid_type users s v users' s' :
cache_logged users s ->
name w uid uid_type users s = (Returns (v, users'), s') ->
cache_logged users' s'.
Proof.
intros [Hnd Hiff] Hrun.
destruct (name_outcome w uid uid_type users s)
  as [(v0 & Hl & H)|[(Hl & _ & H)|(Hl & e & H)]];
  rewrite H in Hrun; [| |discriminate]; injection Hrun as <- <- <-; [done|].
assert (Hnew : uid ∉ (queried s).*2).
{ rewrite Hiff, Hl. by intros [? ?]. }
split; simpl.
- rewrite fmap_app. apply NoDup_app. split; [done|]. split.
  + intros id Hid ->%list_elem_of_singleton. done.
  + apply NoDup_singleton.
- intros id. rewrite fmap_app, elem_of_app, Hiff. simpl.
  rewrite list_elem_of_singleton. destruct (decide (id = uid)) as [->|Hne].
  + rewrite lookup_insert_eq. split; [by eexists|by right].
  + rewrite lookup_insert_ne by done. tauto.
Qed.

(** Whether [file_stats] returns or raises, no id has been looked up
  twice. *)
Lemma file_stats_logged file users s r s' :
cache_logged users s ->
file_stats w file users s = (r, s') ->
match r with
| Returns (info, users') => cache_logged users' s'
| Raises _ => NoDup (queried s').*2
end.
Proof.
intros Hc Hrun. destruct (w_stat w file) as [st|e] eqn:Hst.
- destruct (file_stats_stat w file users s st Hst)
    as (owner & group & users1 & users2 & s1 & s2 & Hown & Hgrp & H & _).
  rewrite H in Hrun. injection Hrun as <- <-.
  assert (Hc2 : cache_logged users2 s2).
  { eapply name_logged; [|exact Hgrp].
    eapply name_logged; [exact Hc|exact Hown]. }
  destruct (render w st) as [[mdate hsize]|e]; [done|by destruct Hc2].
- destruct (file_stats_fails w file users s e Hst) as (s'' & H & _ & _ & _ & Hq).
  rewrite H in Hrun. injection Hrun as <- <-.
  by apply (cache_logged_queried users s).
Qed.

Lemma report_logged file duplicates users s r s' :
cache_logged users s ->
report w file duplicates users s = (r, s') ->
match r with
| Returns users' => cache_logged users' s'
| Raises _ => NoDup (queried s').*2
end.
Proof.
intros Hc. unfold report. rewrite bind_run.
destruct (file_stats w file users s) as [[[info users1]|e] s1] eqn:Hfs.
- pose proof (file_stats_logged _ _ _ _ _ Hc Hfs) as Hc1. simpl in Hc1.
  destruct info as [|field info]; simpl.
  + by intros [= <- <-].
  + rewrite bind_run. simpl. intros [= <- <-].
    by apply (cache_logged_queried users1 s1).
- pose proof (file_stats_logged _ _ _ _ _ Hc Hfs) as Hnd. simpl in Hnd.
  by intros [= <- <-].
Qed.

Lemma hash_files_queried first_block_only size files : forall hashes s,
queried (hash_files w first_block_only size files hashes s).2 = queried s.
Proof.
induction files as [|file rest IH]; intros hashes s; [done|].
cbn [hash_files]. rewrite bind_run. unfold try_except. rewrite bind_run.
unfold md5sum. destruct (w_md5sum w file first_block_only) as [hash|e]; simpl.
- by rewrite IH.
- by rewrite IH.
Qed.

Lemma ls_sizes_queried files : forall sizes s,
queried (ls_sizes w files sizes s).2 = queried s.
Proof.
induction files as [|file rest IH]; intros sizes s; [done|].
cbn [ls_sizes]. rewrite bind_run. unfold try_except. rewrite bind_run.
unfold os_path_getsize, lift. destruct (w_getsize w file) as [size|e]; simpl.
- by rewrite IH.
- by rewrite IH.
Qed.

Lemma ls_stage_logged {K} first_block_only (size_of : K -> Z) items :
forall users hashes s r s',
cache_logged users s ->
ls_stage w first_block_only size_of items users hashes s = (r, s') ->
match r with
| Returns (users', hashes') => cache_logged users' s'
| Raises _ => NoDup (queried s').*2
end.
Proof.
induction items as [|[k files] rest IH]; intros users hashes s r s' Hc.
{ by intros [= <- <-]. }
cbn [ls_stage]. destruct (decide (small files)).
- destruct files as [|file ?].
  { intros [= <- <-]. by destruct Hc. }
  rewrite bind_run.
  destruct (report w file "" users s) as [[users1|e] s1] eqn:Hrep.
  + apply IH. by apply (report_logged _ _ _ _ _ _ Hc Hrep).
  + intros [= <- <-]. by apply (report_logged _ _ _ _ _ _ Hc Hrep).
- rewrite bind_run.
  pose proof (hash_files_queried first_block_only (size_of k) files hashes s)
    as Hq.
  destruct (hash_files w first_block_only (size_of k) files hashes s)
    as [[hashes1|e] s1].
  + apply IH. by apply (cache_logged_queried users s).
  + intros [= <- <-]. simpl in Hq. rewrite Hq. by destruct Hc.
Qed.

Lemma ls_dups_logged items : forall users s r s',
cache_logged users s ->
ls_dups w items users s = (r, s') ->
NoDup (queried s').*2.
Proof.
induction items as [|[k files] rest IH]; intros users s r s' Hc.
{ intros [= <- <-]. by destruct Hc. }
cbn [ls_dups]. destruct files as [|file others].
{ intros [= <- <-]. by destruct Hc. }
rewrite bind_run.
destruct (report w file (join "|" others) users s) as [[users1|e] s1] eqn:Hrep.
- apply IH. by apply (report_logged _ _ _ _ _ _ Hc Hrep).
- intros [= <- <-]. by apply (report_logged _ _ _ _ _ _ Hc Hrep).
Qed.

Lemma ls_logged path md5 s r s' :
queried s = [] ->
_ls w path md5 s = (r, s') ->
NoDup (queried s').*2.
Proof.
intros Hq. unfold _ls. rewrite bind_run.
pose proof (ls_sizes_queried (traversed w path true) [] s) as Hq1.
destruct (ls_sizes w (traversed w path true) [] s) as [[sizes|e] s1].
2: { intros [= <- <-]. simpl in Hq1. rewrite Hq1, Hq. constructor. }
assert (Hc1 : cache_logged ∅ s1).
{ simpl in Hq1. split.
  - rewrite Hq1, Hq. constructor.
  - intros id. rewrite Hq1, Hq, lookup_empty. simpl.
    split; [by intros ?%elem_of_nil|by intros [? ?]]. }
rewrite bind_run, ls_mini_stage.
destruct (ls_stage w true id sizes ∅ [] s1) as [[[users2 minis]|e] s2] eqn:H2.
2: { intros [= <- <-]. by apply (ls_stage_logged _ _ _ _ _ _ _ _ Hc1 H2). }
pose proof (ls_stage_logged _ _ _ _ _ _ _ _ Hc1 H2) as Hc2. simpl in Hc2.
cbn beta iota. rewrite bind_run, ls_full_stage.
destruct (ls_stage w false snd minis users2 [] s2)
  as [[[users3 fulls]|e] s3] eqn:H3.
2: { intros [= <- <-]. by apply (ls_stage_logged _ _ _ _ _ _ _ _ Hc2 H3). }
pose proof (ls_stage_logged _ _ _ _ _ _ _ _ Hc2 H3) as Hc3. simpl in Hc3.
cbn beta iota. rewrite bind_run.
destruct (ls_dups w fulls users3 s3) as [[users4|e] s4] eqn:H4.
- intros [= <- <-]. by apply (ls_dups_logged _ _ _ _ _ Hc3 H4).
- intros [= <- <-]. by apply (ls_dups_logged _ _ _ _ _ Hc3 H4).
Qed.

End Lookups.

(** X14: in one scan no id is looked up twice, whether the scan runs to
    its end or is cut short: the ids of the lookups made in the account
    databases, users and groups together, are pairwise distinct. *)
Theorem ls_looks_each_id_up_once (w : World) (path : string) (md5 : bool) :
  exists r s',
    _ls w path md5 initial = (r, s') /\
    NoDup (queried s').*2.
Proof.
  destruct (_ls w path md5 initial) as [r s'] eqn:Hrun.
  exists r, s'. split; [done|]. by eapply ls_logged; [|exact Hrun].
Qed.

(** ** What the groups share *)

Lemma two_elements_not_small {A} (l : list A) x y :
  x ∈ l -> y ∈ l -> x <> y -> ~ small l.
Proof.
  intros Hx Hy Hne Hsmall. destruct l as [|a [|b l]]; simpl in Hsmall; [|..].
  - by apply elem_of_nil in Hx.
  - apply list_elem_of_singleton in Hx, Hy. congruence.
  - lia.
Qed.

(** X15: whether the scan runs to its end or is cut short, the buckets
    it printed are a prefix of the readable final buckets, all of them when
    it returns, each on the line that renders it. The files of one final
    bucket have one size; when the bucket holds two files or more (a group
    of duplicates), all of them also have one partial digest read, and one
    full digest. *)
Theorem ls_groups_agree (w : World) (path : string) (md5 : bool) :
  let files := traversed w path true in
  exists r s' bks,
    _ls w path md5 initial = (r, s') /\
    Forall2 (renders w) bks (stdout s') /\
    bks `prefix_of` emitted w files /\
    (r = Returns tt -> bks = emitted w files) /\
    (forall bucket, bucket ∈ bks -> bucket ∈ final_buckets w files) /\
    forall bucket, bucket ∈ final_buckets w files ->
      exists size,
        (forall file, file ∈ bucket ->
           file ∈ files /\ w_getsize w file = Returns size) /\
        (~ small bucket ->
           exists full,
             forall file, file ∈ bucket ->
               returned (w_md5sum w file true) = true /\
               w_md5sum w file false = Returns full).
Proof.
  intros files.
  destruct (ls_scan w path md5)
    as (r & s' & bks & Hrun & Hout & Hpre & _ & _ & _ & _ & Hret & _).
  fold files in Hpre, Hret.
  exists r, s', bks. split; [done|]. split; [done|]. split; [done|].
  split; [intros Hr; by destruct (Hret Hr)|]. split.
  { intros bucket Hb. destruct Hpre as [rest Hrest].
    assert (Hin : bucket ∈ emitted w files).
    { rewrite Hrest, elem_of_app. by left. }
    unfold emitted in Hin. by apply list_elem_of_filter in Hin as [_ ?]. }
  intros bucket. unfold final_buckets. rewrite !elem_of_app.
  intros [Hb|[Hb|Hb]].
  - apply elem_of_singletons in Hb as (size & Hin & Hsmall).
    apply size_bucket_elem in Hin as [-> _]. exists size. split; [|done].
    intros file. by rewrite elem_of_peers1.
  - apply elem_of_singletons in Hb as ([mini size] & Hin & Hsmall).
    apply mini_bucket_elem in Hin as (-> & _ & _). exists size. split; [|done].
    intros file. rewrite elem_of_peers2. tauto.
  - apply list_elem_of_fmap in Hb as ([[full size] b] & -> & Hin).
    apply full_bucket_elem in Hin as [-> _]. cbn [snd].
    exists size. split.
    + intros file (mini & Hfile & _)%elem_full_bucket.
      apply elem_of_peers2 in Hfile. tauto.
    + intros _. exists full.
      intros file (mini & Hfile & _ & Hfull)%elem_full_bucket.
      apply elem_of_peers2 in Hfile as (_ & _ & Hmini).
      split; [by rewrite Hmini|done].
Qed.

Lemma ls_groups_agree_witness :
  exists s',
    _ls Demo.tree "/d" false initial = (Returns tt, s') /\
    length (stdout s') = 4%nat /\
    exists size full,
      (forall file, file ∈ ["/d/a"; "/d/b"] ->
         w_getsize Demo.tree file = Returns size) /\
      (forall file, file ∈ ["/d/a"; "/d/b"] ->
         w_md5sum Demo.tree file false = Returns full).
Proof.
  destruct (ls_groups_agree Demo.tree "/d" false)
    as (r & s' & bks & Hrun & Hout & _ & Hret & _ & Hb).
  assert (Hr : r = Returns tt).
  { replace r with (_ls Demo.tree "/d" false initial).1 by by rewrite Hrun.
    vm_compute. reflexivity. }
  rewrite (Hret Hr) in Hout.
  destruct (Hb ["/d/a"; "/d/b"]) as (size & Hsize & Hfull).
  { apply (proj1 (bool_decide_eq_true _)). vm_compute. reflexivity. }
  destruct Hfull as (full & Hfull); [simpl; lia|].
  exists s'. split; [by rewrite Hrun, Hr|]. split.
  - rewrite <- (Forall2_length _ _ _ Hout). vm_compute. reflexivity.
  - exists size, full. split.
    + intros file Hfile. by destruct (Hsize file Hfile).
    + intros file Hfile. by destruct (Hfull file Hfile).
Defined.

(** X16: two different traversed files whose size, partial digest and full
    digest were all read and agree end in one final bucket, that of their
    full digest and size: the scan does not tell them apart. When the scan
    runs to its end and the first path of that bucket can be read by
    [os.stat], the bucket is printed, on the line that renders it. *)
Theorem ls_equal_files_grouped (w : World) (path : string) (md5 : bool)
    (f g : string) (size : Z) (mini full : string) :
  let files := traversed w path true in
  f ∈ files -> g ∈ files -> f <> g ->
  w_getsize w f = Returns size -> w_getsize w g = Returns size ->
  w_md5sum w f true = Returns mini -> w_md5sum w g true = Returns mini ->
  w_md5sum w f false = Returns full -> w_md5sum w g false = Returns full ->
  exists r s' bucket,
    _ls w path md5 initial = (r, s') /\
    ((full, size), bucket) ∈ full_buckets w files /\
    bucket ∈ final_buckets w files /\ f ∈ bucket /\ g ∈ bucket /\
    (r = Returns tt -> readable w bucket ->
       exists line, line ∈ stdout s' /\ renders w bucket line).
Proof.
  intros files Hf Hg Hne Hsf Hsg Hmf Hmg Hff Hfg.
  destruct (ls_scan w path md5)
    as (r & s' & bks & Hrun & Hout & _ & _ & _ & _ & _ & Hret & _).
  fold files in Hret.
  assert (Hpf : f ∈ peers2 w files size mini) by by apply elem_of_peers2.
  assert (Hpg : g ∈ peers2 w files size mini) by by apply elem_of_peers2.
  pose proof (two_elements_not_small _ _ _ Hpf Hpg Hne) as Hbig.
  set (bucket := bucket_of (full, size) (full_buckets w files)).
  assert (Hbf : f ∈ bucket) by (apply elem_full_bucket; by exists mini).
  assert (Hbg : g ∈ bucket) by (apply elem_full_bucket; by exists mini).
  assert (Hin : ((full, size), bucket) ∈ full_buckets w files).
  { apply elem_bucket_of. intros Hnil. fold bucket in Hnil.
    rewrite Hnil in Hbf. by apply elem_of_nil in Hbf. }
  assert (Hfinal : bucket ∈ final_buckets w files).
  { unfold final_buckets. rewrite !elem_of_app. do 2 right.
    apply list_elem_of_fmap. by exists ((full, size), bucket). }
  exists r, s', bucket. split; [done|]. split; [done|]. split; [done|].
  split; [done|]. split; [done|].
  intros Hr Hread. destruct (Hret Hr) as (-> & _ & _).
  apply (Forall2_elem_l _ _ _ bucket Hout).
  by apply list_elem_of_filter.
Qed.

Lemma ls_equal_files_grouped_witness :
  let tab := String (Ascii.ascii_of_nat 9) "" in
  exists s',
    _ls Demo.tree "/d" false initial = (Returns tt, s') /\
    (("f1", 100000), ["/d/a"; "/d/b"])
      ∈ full_buckets Demo.tree (traversed Demo.tree "/d" true) /\
    stdout s' !! 2%nat
      = Some ("11" +:+ tab +:+ "-rw-r--r--" +:+ tab +:+ "root" +:+ tab +:+
              "root" +:+ tab +:+ "100000" +:+ tab +:+ "97.656 KiB" +:+ tab +:+
              "1970-01-01-00:00" +:+ tab +:+ "/d/a" +:+ tab +:+ "/d/b").
Proof.
  intros tab.
  destruct (ls_equal_files_grouped Demo.tree "/d" false "/d/a" "/d/b"
              100000 "p1" "f1")
    as (r & s' & bucket & Hrun & Hin & _ & _ & _ & _).
  - apply (proj1 (bool_decide_eq_true _)). vm_compute. reflexivity.
  - apply (proj1 (bool_decide_eq_true _)). vm_compute. reflexivity.
  - discriminate.
  - reflexivity.
  - reflexivity.
  - reflexivity.
  - reflexivity.
  - reflexivity.
  - reflexivity.
  - assert (Hb : bucket = ["/d/a"; "/d/b"]).
    { apply full_bucket_elem in Hin as [-> _]. vm_compute. reflexivity. }
    rewrite Hb in Hin.
    assert (Hr : r = Returns tt).
    { replace r with (_ls Demo.tree "/d" false initial).1 by by rewrite Hrun.
      vm_compute. reflexivity. }
    exists s'. split; [by rewrite Hrun, Hr|]. split; [exact Hin|].
    replace s' with (_ls Demo.tree "/d" false initial).2 by by rewrite Hrun.
    vm_compute. reflexivity.
Defined.

(** ** The first loop *)

(** X17: the first loop of [_ls] leaves one bucket for each size that was
    read, holding the files of that size in the order of the traversal and
    never empty; it writes one warning for each file whose size could not
    be read, in that order, and prints, hashes and looks up nothing. *)
Theorem ls_sizes_table (w : World) (files : list string) (s : State) :
  exists sizes s',
    ls_sizes w files [] s = (Returns sizes, s') /\
    NoDup sizes.*1 /\
    (forall size bucket,
       (size, bucket) ∈ sizes <->
       bucket <> [] /\
       bucket = filter (fun file => size_key w file = Some size) files) /\
    stdout s' = stdout s /\ hashed s' = hashed s /\ queried s' = queried s /\
    stderr s' = stderr s ++ failures (w_getsize w) files.
Proof.
  destruct (ls_sizes_run w files [] s) as (s' & Hrun & Ho & He & Hh).
  exists (size_buckets w files), s'. split; [done|].
  split; [apply size_buckets_NoDup|]. split.
  - intros size bucket. split.
    + intros Hin. apply size_bucket_elem in Hin as [-> Hne]. done.
    + intros [Hne ->]. by apply size_bucket_intro.
  - rewrite !app_nil_r in *. split; [done|]. split; [done|]. split; [|done].
    pose proof (ls_sizes_queried w files [] s) as Hq. by rewrite Hrun in Hq.
Qed.

(** ** When a scan is cut short *)

Lemma renders_renderable (w : World) (file : string) (others : list string)
    (line : string) :
  renders w (file :: others) line -> renderable w file.
Proof.
  intros (st & owner & group & hsize & mdate & Hst & Hdate & Hsize & _).
  unfold renderable, render. by rewrite Hst, Hdate, Hsize.
Qed.

(** X18: a scan returns exactly when, for every final bucket whose first
    path [os.stat] can read, the date and the size of that path can be
    rendered. Otherwise it is cut short at the first such bucket that
    cannot: the buckets before it are printed, each on the line that
    renders it, and the exception of the date or of the size escapes. *)
Theorem ls_returns_iff_renderable (w : World) (path : string) (md5 : bool) :
  let files := traversed w path true in
  exists r s' bks,
    _ls w path md5 initial = (r, s') /\
    Forall2 (renders w) bks (stdout s') /\
    (r = Returns tt <->
       forall file others,
         (file :: others) ∈ emitted w files -> renderable w file) /\
    (forall e, r = Raises e ->
       exists file others st,
         (bks ++ [file :: others]) `prefix_of` emitted w files /\
         w_stat w file = Returns st /\ render w st = Raises e /\
         forall f o, (f :: o) ∈ bks -> renderable w f).
Proof.
  intros files.
  destruct (ls_run_initial w path md5)
    as (r & s' & bks & Hrun & Hout & _ & _ & Hcut).
  fold files in Hcut.
  assert (Hbks : forall f o, (f :: o) ∈ bks -> renderable w f).
  { intros f o Hin.
    destruct (Forall2_elem_l _ _ _ _ Hout Hin) as (line & _ & Hline).
    by apply (renders_renderable w f o line). }
  exists r, s', bks. split; [done|]. split; [done|]. split; [split|].
  - intros ->. destruct Hcut as (<- & _ & _). exact Hbks.
  - intros Hall. destruct r as [[]|e]; [done|].
    destruct Hcut as (_ & _ & file & others & st & Hpre & Hst & Hren).
    assert (Hin : (file :: others) ∈ emitted w files).
    { eapply elem_of_prefix; [|exact Hpre].
      apply elem_of_app. right. apply list_elem_of_here. }
    pose proof (Hall _ _ Hin) as Hok. unfold renderable in Hok.
    by rewrite Hst, Hren in Hok.
  - intros e ->.
    destruct Hcut as (_ & _ & file & others & st & Hpre & Hst & Hren).
    by exists file, others, st.
Qed.

Lemma ls_returns_iff_renderable_witness :
  let tab := String (Ascii.ascii_of_nat 9) "" in
  exists s',
    _ls Samples.dated "/t" false initial
      = (Raises (Exn "ValueError" "year 10000 is out of range"), s') /\
    stdout s'
      = ["41" +:+ tab +:+ "-rw-r--r--" +:+ tab +:+ "alice" +:+ tab +:+
         "staff" +:+ tab +:+ "10" +:+ tab +:+ "10.0 B" +:+ tab +:+
         "1970-01-01-00:00" +:+ tab +:+ "/t/new" +:+ tab] /\
    ~ renderable Samples.dated "/t/far".
Proof.
  intros tab.
  destruct (ls_returns_iff_renderable Samples.dated "/t" false)
    as (r & s' & bks & Hrun & _ & Hiff & _).
  assert (Hfar : ~ renderable Samples.dated "/t/far").
  { apply (proj1 (bool_decide_eq_false _)). vm_compute. reflexivity. }
  exists s'. split; [|split; [|exact Hfar]].
  - replace r with (_ls Samples.dated "/t" false initial).1 in Hrun
      by by rewrite Hrun.
    exact Hrun.
  - replace s' with (_ls Samples.dated "/t" false initial).2
      by by rewrite Hrun.
    vm_compute. reflexivity.
Defined.
